(** * UrbanAid map screen: marker lifecycle, search filter and launch gate

  A shallow embedding of the TypeScript sources
    - mobile-app/src/utils/markerImages.ts
    - mobile-app/src/screens/MapScreen.tsx          (reconciler variant)
    - mobile-app/src/screens/PrivacyPolicyScreen.tsx (preloader variant of
      the same map screen)
    - the zustand utility store and the API service
  together with the properties the specification states about them.

  Conventions.
  - JavaScript strings are modelled as Rocq strings over ASCII;
    [toLowerCase] folds A-Z, the regular expression class \s is the six
    ASCII white-space characters.
  - JavaScript numbers used as coordinates are IEEE binary64 values and are
    modelled by Rocq's primitive floats, so every comparison below is the
    comparison the program performs (NaN included).
  - [Set] and [Map] objects are stdpp's [gset] and [gmap].  Plain object
    literals used as dictionaries keep their inherited members: reading
    [o[k]] walks the prototype chain. *)

From Stdlib Require Import ZArith Ascii Floats.
From Stdlib Require String.
From stdpp Require Import gmap strings list.

Set Default Proof Using "Type".
Set Warnings "-inexact-float,-clear-no-such-hyp".

(* ===================================================================== *)
(** ** JavaScript strings and object literals *)
(* ===================================================================== *)

Module JS.

(** [String.prototype.toLowerCase], on ASCII. *)
Definition lower_ascii (c : ascii) : ascii :=
  let n := nat_of_ascii c in
  if (65 <=? n) && (n <=? 90) then ascii_of_nat (n + 32) else c.

Fixpoint toLowerCase (s : string) : string :=
  match s with
  | EmptyString => EmptyString
  | String c s' => String (lower_ascii c) (toLowerCase s')
  end.

(** The class \s: TAB, LF, VT, FF, CR and SPACE. *)
Definition is_space (c : ascii) : bool :=
  let n := nat_of_ascii c in
  ((9 <=? n) && (n <=? 13)) || (n =? 32).

(** [s.split(/\s+/)]: the pieces between maximal runs of white space.  A
    leading or trailing run yields an empty first or last piece, and the
    empty string splits into one empty piece, as in JavaScript. *)
Fixpoint split_ws_from (cur : string) (in_gap : bool) (s : string) : list string :=
  match s with
  | EmptyString => [String.rev cur]
  | String c s' =>
      if is_space c
      then (if in_gap then split_ws_from cur true s'
            else String.rev cur :: split_ws_from EmptyString true s')
      else split_ws_from (String c cur) false s'
  end.

Definition split_ws (s : string) : list string :=
  split_ws_from EmptyString false s.

(** [s.startsWith(p)]. *)
Fixpoint isPrefix (p s : string) : bool :=
  match p with
  | EmptyString => true
  | String c p' =>
      match s with
      | EmptyString => false
      | String d s' => Ascii.eqb c d && isPrefix p' s'
      end
  end.

Definition startsWith (s p : string) : bool := isPrefix p s.

(** [s.includes(needle)]. *)
Fixpoint includes (s needle : string) : bool :=
  isPrefix needle s ||
  match s with
  | EmptyString => false
  | String _ s' => includes s' needle
  end.

(** [s.replace(/[\s-]/g, '_')]. *)
Fixpoint replace_space_hyphen (s : string) : string :=
  match s with
  | EmptyString => EmptyString
  | String c s' =>
      String (if is_space c || Ascii.eqb c "-" then "_"%char else c)
             (replace_space_hyphen s')
  end.

(** [s.trim()]. *)
Fixpoint trimStart (s : string) : string :=
  match s with
  | String c s' => if is_space c then trimStart s' else s
  | EmptyString => EmptyString
  end.

Definition trim (s : string) : string :=
  String.rev (trimStart (String.rev (trimStart s))).

(** A string is falsy exactly when it is empty. *)
Definition truthy (s : string) : bool :=
  match s with EmptyString => false | _ => true end.

(** An object literal [{k1: v1, ...}]: its own properties, a later
    duplicate key overriding an earlier one. *)
Definition object_literal {A} (props : list (string * A)) : gmap string A :=
  foldl (λ m kv, <[kv.1 := kv.2]> m) ∅ props.

(** The members every object literal inherits from [Object.prototype]. *)
Definition Object_prototype : list string :=
  [ "constructor"; "__proto__"; "hasOwnProperty"; "isPrototypeOf";
    "propertyIsEnumerable"; "toLocaleString"; "toString"; "valueOf";
    "__defineGetter__"; "__defineSetter__";
    "__lookupGetter__"; "__lookupSetter__" ].

(** The value of the expression [o[k]] for an object literal [o]:
    an own property, else an inherited member (a function, or for
    [__proto__] the prototype object: truthy, and not of the table's
    value type), else [undefined]. *)
Inductive property (A : Type) : Type :=
| Own (a : A)
| Inherited (name : string)
| Undefined.
Arguments Own {A} a.
Arguments Inherited {A} name.
Arguments Undefined {A}.

Definition inherited (k : string) : bool :=
  bool_decide (k ∈ Object_prototype).

Definition get {A} (o : gmap string A) (k : string) : property A :=
  match o !! k with
  | Some a => Own a
  | None => if inherited k then Inherited k else Undefined
  end.

(** The needle occurs in the string. *)
Definition substring_of (needle s : string) : Prop :=
  ∃ before after, s = String.append before (String.append needle after).

End JS.

(* ===================================================================== *)
(** ** utils/markerImages.ts *)
(* ===================================================================== *)

Module MarkerImages.

(** [ImageRequireSource]: the asset a [require('...png')] resolves to.
    Metro numbers registered assets from 1, so every image is truthy. *)
Inductive ImageRequireSource : Type :=
| require (path : string).

#[global] Instance ImageRequireSource_eq_dec : EqDecision ImageRequireSource.
Proof. solve_decision. Defined.

Definition marker (name : string) : ImageRequireSource :=
  require ("../assets/markers/marker_" +:+ name +:+ ".png").

Definition imageByCategory_props : list (string * ImageRequireSource) :=
  map (λ k, (k, marker k))
    [ "water_fountain"; "water"; "handwashing"; "restroom";
      "charging_station"; "shelter"; "warming_center"; "cooling_center";
      "hurricane_shelter"; "food"; "free_food"; "health"; "health_center";
      "clinic"; "medical"; "wifi"; "internet"; "library"; "transit";
      "bench"; "va_facility"; "usda"; "shower"; "laundry"; "legal";
      "social_services"; "job_training"; "mental_health"; "clothing";
      "needle_exchange"; "pet_services"; "baby_needs"; "dental";
      "eye_care"; "haircut"; "tax_help"; "parking"; "disaster_relief" ].

Definition imageByCategory : gmap string ImageRequireSource :=
  JS.object_literal imageByCategory_props.
Arguments imageByCategory : simpl never.

Definition defaultImage : ImageRequireSource := marker "default".
Definition HIDDEN_MARKER_IMAGE : ImageRequireSource := marker "hidden".

(** What [getMarkerImage] hands back: an image, or, when the table read
    hit an inherited member, that member. *)
Inductive marker_value : Type :=
| Image (img : ImageRequireSource)
| Member (name : string).

#[global] Instance marker_value_eq_dec : EqDecision marker_value.
Proof. solve_decision. Defined.

Definition of_property (p : JS.property ImageRequireSource) : option marker_value :=
  match p with
  | JS.Own i => Some (Image i)
  | JS.Inherited n => Some (Member n)
  | JS.Undefined => None
  end.

(** [category.toLowerCase().replace(/[\s-]/g, '_')]. *)
Definition normalize (category : string) : string :=
  JS.replace_space_hyphen (JS.toLowerCase category).

(** The [if (!img) { ... }] block: prefix and alias rules. *)
Definition groupedImage (lower : string) : option marker_value :=
  if JS.startsWith lower "va_" then of_property (JS.get imageByCategory "va_facility")
  else if JS.startsWith lower "usda_" then of_property (JS.get imageByCategory "usda")
  else if JS.includes lower "health_center" || JS.startsWith lower "community_health" ||
          JS.startsWith lower "migrant_health" || JS.startsWith lower "homeless_health" ||
          JS.startsWith lower "public_housing_health" ||
          JS.startsWith lower "school_based_health" ||
          JS.startsWith lower "federally_qualified"
       then of_property (JS.get imageByCategory "health_center")
  else if String.eqb lower "safe_injection"
       then of_property (JS.get imageByCategory "needle_exchange")
  else if String.eqb lower "addiction_services" || String.eqb lower "suicide_prevention" ||
          String.eqb lower "domestic_violence"
       then of_property (JS.get imageByCategory "mental_health")
  else None.

(** The body of [getMarkerImage] below the cache check, up to [result]. *)
Definition resolveImage (category : string) : marker_value :=
  let lower := normalize category in
  let img :=
    match of_property (JS.get imageByCategory lower) with
    | Some v => Some v
    | None => groupedImage lower
    end in
  default (Image defaultImage) img.

(** [categoryCache], a [Map<string, ImageRequireSource>]. *)
Definition getMarkerImage (category : string) (categoryCache : gmap string marker_value)
  : marker_value * gmap string marker_value :=
  match categoryCache !! category with
  | Some cached => (cached, categoryCache)
  | None =>
      let result := resolveImage category in
      (result, <[category := result]> categoryCache)
  end.

(** The fallback chain written out as a specification: an exact table
    entry, else the prefix rules (va_, usda_, the health-center family),
    else the two alias rules, else the default image. *)
Definition health_center_variant (lower : string) : bool :=
  JS.includes lower "health_center" || JS.startsWith lower "community_health" ||
  JS.startsWith lower "migrant_health" || JS.startsWith lower "homeless_health" ||
  JS.startsWith lower "public_housing_health" ||
  JS.startsWith lower "school_based_health" ||
  JS.startsWith lower "federally_qualified".

Definition mental_health_alias (lower : string) : bool :=
  String.eqb lower "addiction_services" || String.eqb lower "suicide_prevention" ||
  String.eqb lower "domestic_violence".

Definition image_chain (category : string) : ImageRequireSource :=
  let lower := normalize category in
  match imageByCategory !! lower with
  | Some img => img
  | None =>
      if JS.startsWith lower "va_" then marker "va_facility"
      else if JS.startsWith lower "usda_" then marker "usda"
      else if health_center_variant lower then marker "health_center"
      else if String.eqb lower "safe_injection" then marker "needle_exchange"
      else if mental_health_alias lower then marker "mental_health"
      else defaultImage
  end.

(** The chain as the claim words it: an exact entry, the prefix rules, and
    the default image otherwise. *)
Definition claimed_image (category : string) : ImageRequireSource :=
  let lower := normalize category in
  match imageByCategory !! lower with
  | Some img => img
  | None =>
      if JS.startsWith lower "va_" then marker "va_facility"
      else if JS.startsWith lower "usda_" then marker "usda"
      else if health_center_variant lower then marker "health_center"
      else defaultImage
  end.

(** The caches the module can hold: empty at load, then only ever
    written by [getMarkerImage]. *)
Inductive cache_reachable : gmap string marker_value → Prop :=
| cache_init : cache_reachable ∅
| cache_call c cache : cache_reachable cache →
                       cache_reachable (getMarkerImage c cache).2.

End MarkerImages.

(* ===================================================================== *)
(** ** Abrupt completion *)
(* ===================================================================== *)

(** The outcome of running a piece of JavaScript: it completes with a value
  or throws. *)
Inductive completion (A : Type) : Type :=
| Normal (a : A)
| Throw (error : string).
Arguments Normal {A} a.
Arguments Throw {A} error.

#[global] Instance completion_ret : MRet completion := λ A a, Normal a.
#[global] Instance completion_bind : MBind completion := λ A B f c,
match c with
| Normal a => f a
| Throw e => Throw e
end.

Definition completed {A} (c : completion A) : bool :=
match c with Normal _ => true | Throw _ => false end.

(* ===================================================================== *)
(** ** types/utility and the search tables shared by both map screens *)
(* ===================================================================== *)

Module Entities.

(** An entity identifier, [number | string]. *)
Inductive entity_id : Type :=
| IdNum (n : Z)
| IdStr (s : string).

#[global] Instance entity_id_eq_dec : EqDecision entity_id.
Proof. solve_decision. Defined.

#[global] Instance entity_id_countable : Countable entity_id.
Proof.
  refine (inj_countable'
            (λ i, match i with IdNum n => inl n | IdStr s => inr s end)
            (λ x, match x with inl n => IdNum n | inr s => IdStr s end) _).
  intros []; reflexivity.
Defined.

(** The fields of [Utility] the map screen reads.  A text field may be
    absent ([undefined] or [null]) in the data the backend returns. *)
Record Utility : Type := mkUtility {
  id : entity_id;
  name : option string;
  category : option string;
  type : option string;
  address : option string;
  description : option string;
  latitude : float;
  longitude : float;
}.

Record UtilityFilterChip : Type := mkChip {
  key : string;
  label : string;
  categories : option (list string);
}.

Definition UTILITY_FILTERS : list UtilityFilterChip :=
  [ mkChip "all" "All" None;
    mkChip "restroom" "Restrooms" (Some ["restroom"]);
    mkChip "water" "Water" (Some ["water_fountain"; "water"; "handwashing"]);
    mkChip "food" "Food" (Some ["free_food"; "food"]);
    mkChip "shelter" "Shelter"
      (Some ["shelter"; "hurricane_shelter"; "warming_center"; "cooling_center"]);
    mkChip "health" "Health"
      (Some ["health_center"; "community_health_center"; "migrant_health_center";
             "homeless_health_center"; "public_housing_health_center";
             "school_based_health_center"; "federally_qualified_health_center";
             "clinic"; "medical"]);
    mkChip "wifi" "WiFi" (Some ["wifi"; "internet"]);
    mkChip "transit" "Transit" (Some ["transit"]);
    mkChip "va" "VA"
      (Some ["va_facility"; "va_medical_center"; "va_outpatient_clinic";
             "va_vet_center"; "va_regional_office"; "va_cemetery"]);
    mkChip "usda" "USDA"
      (Some ["usda_facility"; "usda_snap_office"; "usda_wic_office";
             "usda_farm_service_center"; "usda_rural_development_office";
             "usda_extension_office"]) ].

(** [new Map(UTILITY_FILTERS.filter(f => f.categories)
                            .map(f => [f.key, new Set(f.categories)]))]. *)
Definition FILTER_CATEGORY_MAP : gmap string (gset string) :=
  foldl (λ m f,
           match categories f with
           | Some cs => <[key f := list_to_set cs]> m
           | None => m
           end) ∅ UTILITY_FILTERS.

Definition SEARCH_SYNONYMS_props : list (string * list string) :=
  [
    ("water", ["water_fountain"; "water"; "handwashing"]);
    ("drink", ["water_fountain"; "water"]);
    ("fountain", ["water_fountain"]);
    ("hydration", ["water_fountain"; "water"]);
    ("restroom", ["restroom"]);
    ("bathroom", ["restroom"]);
    ("toilet", ["restroom"]);
    ("wc", ["restroom"]);
    ("lavatory", ["restroom"]);
    ("food", ["free_food"; "food"]);
    ("eat", ["free_food"; "food"]);
    ("meal", ["free_food"; "food"]);
    ("hungry", ["free_food"; "food"]);
    ("grocery", ["free_food"; "food"]);
    ("snap", ["usda_snap_office"; "free_food"; "food"]);
    ("wic", ["usda_wic_office"]);
    ("shelter", ["shelter"; "hurricane_shelter"; "warming_center"; "cooling_center"]);
    ("housing", ["shelter"]);
    ("sleep", ["shelter"]);
    ("bed", ["shelter"]);
    ("homeless", ["shelter"; "homeless_health_center"]);
    ("warm", ["warming_center"]);
    ("cool", ["cooling_center"]);
    ("health", ["health_center"; "community_health_center"; "migrant_health_center"; "homeless_health_center"; "public_housing_health_center"; "school_based_health_center"; "federally_qualified_health_center"; "clinic"; "medical"]);
    ("doctor", ["health_center"; "community_health_center"; "clinic"; "medical"]);
    ("clinic", ["clinic"; "medical"; "health_center"; "community_health_center"]);
    ("medical", ["medical"; "clinic"; "health_center"; "community_health_center"; "va_medical_center"]);
    ("hospital", ["medical"; "clinic"; "health_center"]);
    ("dental", ["dental"]);
    ("dentist", ["dental"]);
    ("teeth", ["dental"]);
    ("eye", ["eye_care"]);
    ("vision", ["eye_care"]);
    ("glasses", ["eye_care"]);
    ("mental", ["mental_health"; "suicide_prevention"]);
    ("therapy", ["mental_health"]);
    ("counseling", ["mental_health"]);
    ("crisis", ["suicide_prevention"; "mental_health"]);
    ("suicide", ["suicide_prevention"]);
    ("addiction", ["addiction_services"]);
    ("rehab", ["addiction_services"]);
    ("drug", ["addiction_services"; "needle_exchange"; "safe_injection"]);
    ("sober", ["addiction_services"]);
    ("domestic", ["domestic_violence"]);
    ("abuse", ["domestic_violence"]);
    ("va", ["va_facility"; "va_medical_center"; "va_outpatient_clinic"; "va_vet_center"; "va_regional_office"; "va_cemetery"]);
    ("veteran", ["va_facility"; "va_medical_center"; "va_outpatient_clinic"; "va_vet_center"; "va_regional_office"]);
    ("vet", ["va_facility"; "va_medical_center"; "va_outpatient_clinic"; "va_vet_center"]);
    ("military", ["va_facility"; "va_medical_center"]);
    ("wifi", ["wifi"; "internet"]);
    ("internet", ["wifi"; "internet"]);
    ("online", ["wifi"; "internet"]);
    ("transit", ["transit"]);
    ("bus", ["transit"]);
    ("train", ["transit"]);
    ("ride", ["transit"]);
    ("transport", ["transit"]);
    ("shower", ["shower"]);
    ("laundry", ["laundry"]);
    ("wash", ["laundry"; "handwashing"; "shower"]);
    ("clean", ["laundry"; "shower"; "handwashing"]);
    ("haircut", ["haircut"]);
    ("barber", ["haircut"]);
    ("charging", ["charging"]);
    ("charge", ["charging"]);
    ("power", ["charging"]);
    ("phone", ["charging"]);
    ("battery", ["charging"]);
    ("library", ["library"]);
    ("book", ["library"]);
    ("books", ["library"]);
    ("legal", ["legal"]);
    ("lawyer", ["legal"]);
    ("law", ["legal"]);
    ("job", ["job_training"]);
    ("work", ["job_training"]);
    ("employment", ["job_training"]);
    ("training", ["job_training"]);
    ("tax", ["tax_help"]);
    ("taxes", ["tax_help"]);
    ("irs", ["tax_help"]);
    ("social", ["social_services"]);
    ("baby", ["baby_needs"]);
    ("infant", ["baby_needs"]);
    ("diaper", ["baby_needs"]);
    ("pet", ["pet_services"]);
    ("dog", ["pet_services"]);
    ("cat", ["pet_services"]);
    ("animal", ["pet_services"]);
    ("needle", ["needle_exchange"]);
    ("syringe", ["needle_exchange"; "safe_injection"]);
    ("clothing", ["clothing"]);
    ("clothes", ["clothing"]);
    ("jacket", ["clothing"]);
    ("coat", ["clothing"]);
    ("bench", ["bench"]);
    ("sit", ["bench"]);
    ("seat", ["bench"]);
    ("emergency", ["disaster_relief"; "hurricane_shelter"; "warming_center"; "cooling_center"]);
    ("disaster", ["disaster_relief"]);
    ("usda", ["usda_facility"; "usda_rural_development_office"; "usda_snap_office"; "usda_farm_service_center"; "usda_extension_office"; "usda_wic_office"]);
    ("farm", ["usda_farm_service_center"]) ].

(** [SEARCH_SYNONYMS] is a plain object literal. *)
Definition SEARCH_SYNONYMS : gmap string (list string) :=
  JS.object_literal SEARCH_SYNONYMS_props.
Arguments SEARCH_SYNONYMS : simpl never.

(** The loop over the query words:
    [const matches = SEARCH_SYNONYMS[word];
     if (matches) matches.forEach((c) => synonymCategories.add(c));]
    An inherited member is truthy and has no [forEach]. *)
Fixpoint collectSynonyms (words : list string) (synonymCategories : gset string)
  : completion (gset string) :=
  match words with
  | [] => Normal synonymCategories
  | word :: rest =>
      match JS.get SEARCH_SYNONYMS word with
      | JS.Own matches => collectSynonyms rest (synonymCategories ∪ list_to_set matches)
      | JS.Inherited _ => Throw "TypeError: matches.forEach is not a function"
      | JS.Undefined => collectSynonyms rest synonymCategories
      end
  end.

(** [set.has(x)] for a field that may be absent. *)
Definition has_field (set : gset string) (f : option string) : bool :=
  match f with
  | Some x => bool_decide (x ∈ set)
  | None => false
  end.

(** [u.type && set.has(u.type)]. *)
Definition truthy_and_has (set : gset string) (f : option string) : bool :=
  match f with
  | Some x => JS.truthy x && bool_decide (x ∈ set)
  | None => false
  end.

(** [f?.toLowerCase().includes(query)]. *)
Definition field_includes (query : string) (f : option string) : bool :=
  match f with
  | Some x => JS.includes (JS.toLowerCase x) query
  | None => false
  end.

(** The callback of [result.filter((u) => ...)] in the search branch. *)
Definition textMatch (synonymCategories : gset string) (query : string) (u : Utility) : bool :=
  (negb (bool_decide (size synonymCategories = 0)) &&
     (has_field synonymCategories (category u) ||
      truthy_and_has synonymCategories (type u)))
  || existsb (field_includes query)
             [name u; category u; type u; address u; description u].

(** The callback of the category-chip filter:
    [matchSet.has(u.category?.toLowerCase()) ||
     (u.type && matchSet.has(u.type.toLowerCase()))]. *)
Definition chipMatch (matchSet : gset string) (u : Utility) : bool :=
  has_field matchSet (JS.toLowerCase <$> category u) ||
  match type u with
  | Some t => JS.truthy t && bool_decide (JS.toLowerCase t ∈ matchSet)
  | None => false
  end.

(** The [useMemo] body computing [filteredUtilities]. *)
Definition filteredUtilities (utilities : list Utility)
           (deferredFilter committedSearch : string) : completion (list Utility) :=
  let query := JS.toLowerCase committedSearch in
  result ← (if JS.truthy query
            then synonymCategories ← collectSynonyms (JS.split_ws query) ∅;
                 mret (filter (λ u, textMatch synonymCategories query u) utilities)
            else mret utilities);
  mret (if negb (String.eqb deferredFilter "all")
        then match FILTER_CATEGORY_MAP !! deferredFilter with
             | Some matchSet => filter (λ u, chipMatch matchSet u) result
             | None => result
             end
        else result).

(** [matchingFilterIds]: [None] is the source's [null]. *)
Definition matchingFilterIds (utilities : list Utility)
           (deferredFilter committedSearch : string)
  : completion (option (gset entity_id)) :=
  if String.eqb deferredFilter "all" && negb (JS.truthy committedSearch)
  then mret None
  else fs ← filteredUtilities utilities deferredFilter committedSearch;
       mret (Some (list_to_set (id <$> fs))).

(** *** The filter as the specification words it *)

(** [t] lies in the union of the synonym expansions of the words of the
    (lower-cased) query. *)
Definition in_synonym_expansion (committedSearch : string) (t : string) : Prop :=
  ∃ word matches,
    word ∈ JS.split_ws (JS.toLowerCase committedSearch)
    ∧ SEARCH_SYNONYMS !! word = Some matches
    ∧ t ∈ matches.

(** The entity matches the query on text: its category or type lies in the
    synonym expansion, or one of its five text fields contains the
    lower-cased query, case-insensitively. *)
Definition matches_text (committedSearch : string) (u : Utility) : Prop :=
  (∃ t, (category u = Some t ∨ type u = Some t) ∧ in_synonym_expansion committedSearch t)
  ∨ (∃ x, Some x ∈ [name u; category u; type u; address u; description u]
          ∧ JS.substring_of (JS.toLowerCase committedSearch) (JS.toLowerCase x)).

(** The entity passes the category chip: no chip restricts ("all", or a key
    without a category set), or its lower-cased category, or its non-empty
    lower-cased type, is one of the chip's categories. *)
Definition matches_chip (deferredFilter : string) (u : Utility) : Prop :=
  deferredFilter = "all"
  ∨ FILTER_CATEGORY_MAP !! deferredFilter = None
  ∨ ∃ matchSet, FILTER_CATEGORY_MAP !! deferredFilter = Some matchSet
                ∧ ((∃ c, category u = Some c ∧ JS.toLowerCase c ∈ matchSet)
                   ∨ (∃ t, type u = Some t ∧ t ≠ "" ∧ JS.toLowerCase t ∈ matchSet)).

(** The two entities of the specification's scenario. *)
Definition scenario_entity_1 : Utility :=
  mkUtility (IdNum 1) None (Some "restroom") None None None 47.6%float (-122.3)%float.
Definition scenario_entity_2 : Utility :=
  mkUtility (IdNum 2) None (Some "water_fountain") None None None 47.61%float (-122.31)%float.
Definition scenario : list Utility := [scenario_entity_1; scenario_entity_2].

End Entities.

(* ===================================================================== *)
(** ** screens/MapScreen.tsx: viewport culling and the stable render set *)
(* ===================================================================== *)

Module MapScreen.
Import Entities.

(** react-native-maps' [Region]. *)
Record Region : Type := mkRegion {
  region_latitude : float;
  region_longitude : float;
  latitudeDelta : float;
  longitudeDelta : float;
}.

Record Bounds : Type := mkBounds {
  minLat : float;
  maxLat : float;
  minLng : float;
  maxLng : float;
}.

Definition VIEWPORT_BUFFER : float := 0.8%float.

Definition viewportBounds (mapRegion : option Region) : option Bounds :=
  match mapRegion with
  | None => None
  | Some r =>
      let latHalf := (latitudeDelta r * (0.5 + VIEWPORT_BUFFER))%float in
      let lngHalf := (longitudeDelta r * (0.5 + VIEWPORT_BUFFER))%float in
      Some {| minLat := (region_latitude r - latHalf)%float;
              maxLat := (region_latitude r + latHalf)%float;
              minLng := (region_longitude r - lngHalf)%float;
              maxLng := (region_longitude r + lngHalf)%float |}
  end.

(** [u.latitude >= b.minLat && u.latitude <= b.maxLat &&
     u.longitude >= b.minLng && u.longitude <= b.maxLng]. *)
Definition inViewport (b : Bounds) (u : Utility) : bool :=
  PrimFloat.leb (minLat b) (latitude u) && PrimFloat.leb (latitude u) (maxLat b) &&
  PrimFloat.leb (minLng b) (longitude u) && PrimFloat.leb (longitude u) (maxLng b).

Definition MOUNT_BATCH : nat := 5000.
Definition RENDER_BATCH : nat := 300.
Definition INITIAL_RENDER_BATCH : nat := 4000.
Definition MAX_RENDERED : nat := 4000.
Definition MOUNT_INTERVAL : nat := 50.

(** [utilities.slice(0, mountedCount)]. *)
Definition visibleUtilities (utilities : list Utility) (mountedCount : nat) : list Utility :=
  take mountedCount utilities.

(** The [useMemo] body computing [markersToRender]. *)
Definition markersToRender (visible : list Utility) (bounds : option Bounds)
           (matchingIds : option (gset entity_id)) : list Utility :=
  let markers :=
    match bounds with
    | Some b => filter (λ u, inViewport b u) visible
    | None => visible
    end in
  match matchingIds with
  | Some ids => filter (λ u, id u ∈ ids) markers
  | None => markers
  end.

(** The state [markersToRender] is memoised on. *)
Record inputs : Type := mkInputs {
  utilities : list Utility;
  mountedCount : nat;
  mapRegion : option Region;
  deferredFilter : string;
  committedSearch : string;
}.

(** One render's value of [markersToRender]; the render throws when
    [filteredUtilities] does. *)
Definition eligible (i : inputs) : completion (list Utility) :=
  ids ← matchingFilterIds (utilities i) (deferredFilter i) (committedSearch i);
  mret (markersToRender (visibleUtilities (utilities i) (mountedCount i))
                        (viewportBounds (mapRegion i)) ids).

(** [renderedIdsRef.current] and [renderTick]. *)
Record render_set : Type := mkRenderSet {
  renderedIds : gset entity_id;
  renderTick : nat;
}.

Definition batchSizeFor (initialLoadComplete : bool) : nat :=
  if initialLoadComplete then RENDER_BATCH else INITIAL_RENDER_BATCH.

(** The admission loop shared by the reconciliation effect and the growth
    timer:
    [for (const m of markersToRender) {
       if (rendered.size >= MAX_RENDERED) break;
       if (added >= batchSize) break;
       if (!rendered.has(m.id)) { rendered.add(m.id); added++; } }]. *)
Fixpoint admitBatch (batchSize : nat) (ms : list Utility)
         (rendered : gset entity_id) (added : nat) : gset entity_id * nat :=
  match ms with
  | [] => (rendered, added)
  | m :: rest =>
      if bool_decide (MAX_RENDERED ≤ size rendered) then (rendered, added)
      else if bool_decide (batchSize ≤ added) then (rendered, added)
      else if bool_decide (id m ∈ rendered) then admitBatch batchSize rest rendered added
      else admitBatch batchSize rest ({[id m]} ∪ rendered) (S added)
  end.

(** [new Set(markersToRender.map(m => m.id))]. *)
Definition validIdsOf (ms : list Utility) : gset entity_id :=
  list_to_set (id <$> ms).

(** The prune loop: delete every rendered id that is not valid. *)
Definition prune (validIds rendered : gset entity_id) : gset entity_id :=
  filter (λ i, i ∈ validIds) rendered.

(** The effect on [markersToRender]: prune, then add a first batch. *)
Definition reconcile (ms : list Utility) (initialLoadComplete : bool)
           (rs : render_set) : render_set :=
  let pruned := prune (validIdsOf ms) (renderedIds rs) in
  let pruned_any := negb (bool_decide (pruned = renderedIds rs)) in
  let '(rendered, added) := admitBatch (batchSizeFor initialLoadComplete) ms pruned 0 in
  let changed := pruned_any || negb (bool_decide (added = 0)) in
  {| renderedIds := rendered;
     renderTick := if changed then S (renderTick rs) else renderTick rs |}.

Definition growthTarget (ms : list Utility) : nat :=
  Nat.min (length ms) MAX_RENDERED.

(** The growth timer is armed unless [rendered.size >= target]. *)
Definition growthPending (ms : list Utility) (rs : render_set) : bool :=
  negb (bool_decide (growthTarget ms ≤ size (renderedIds rs))).

(** The growth timer's callback. *)
Definition growthTick (ms : list Utility) (initialLoadComplete : bool)
           (rs : render_set) : render_set :=
  let '(rendered, added) :=
    admitBatch (batchSizeFor initialLoadComplete) ms (renderedIds rs) 0 in
  {| renderedIds := rendered;
     renderTick := if bool_decide (added = 0) then renderTick rs else S (renderTick rs) |}.

(** [markersToRender.filter(m => renderedIdsRef.current.has(m.id))]. *)
Definition finalMarkers (ms : list Utility) (rs : render_set) : list Utility :=
  filter (λ m, id m ∈ renderedIds rs) ms.

(** *** The launch gate *)

Record gate : Type := mkGate {
  isLoading : bool;
  renderComplete : bool;
  initialLoadComplete : bool;   (* initialLoadCompleteRef.current *)
  gateTimer : bool;             (* the setRenderComplete(true) timer is armed *)
}.

(** [!initialLoadCompleteRef.current && (isLoading || !renderComplete)]. *)
Definition showLoadingOverlay (g : gate) : bool :=
  negb (initialLoadComplete g) && (isLoading g || negb (renderComplete g)).

(** The effect deciding [renderComplete]: each early return clears the
    timer and resets the flag, otherwise the timer is armed. *)
Definition gateEffect (i : inputs) (ms : list Utility) (rs : render_set) (g : gate) : gate :=
  let target := growthTarget ms in
  if isLoading g
     || bool_decide (mountedCount i < length (utilities i))
     || (bool_decide (0 < target) && bool_decide (size (renderedIds rs) < target))
  then {| isLoading := isLoading g; renderComplete := false;
          initialLoadComplete := initialLoadComplete g; gateTimer := false |}
  else {| isLoading := isLoading g; renderComplete := renderComplete g;
          initialLoadComplete := initialLoadComplete g; gateTimer := true |}.

(** [if (!isLoading && renderComplete) initialLoadCompleteRef.current = true],
    on the values the render closed over. *)
Definition markInitialLoad (isLoading_ renderComplete_ : bool) (g : gate) : gate :=
  if negb isLoading_ && renderComplete_
  then {| isLoading := isLoading g; renderComplete := renderComplete g;
          initialLoadComplete := true; gateTimer := gateTimer g |}
  else g.

(** *** The screen as a transition system *)

Record screen : Type := mkScreen {
  inp : inputs;
  rset : render_set;
  gt : gate;
  prevUtilitiesLen : nat;       (* prevUtilitiesLenRef.current *)
}.

(** One render followed by its effects, in declaration order: the
    reconciliation effect (when [markersToRender] is a new array, which is
    what [markersChanged] says), the gate effect, the effect marking the
    initial load.

    - The reconciliation effect reads [initialLoadCompleteRef.current]
      before the later effect of the same commit writes it.
    - The gate effect depends on [isLoading], [mountedCount],
      [utilities.length], [markersToRender.length] and [renderTick], and
      reads the size of the render set, which only changes together with
      [renderTick]; what it does is therefore a function of the state, and
      running it in every commit leaves the state it would leave if it ran
      on a change of its dependencies only.
    - The effect marking the initial load tests the [isLoading] and
      [renderComplete] the render closed over, not the value the gate
      effect may just have requested. *)
Definition commit (markersChanged : bool) (s : screen) : completion screen :=
  ms ← eligible (inp s);
  let rs' := if markersChanged
             then reconcile ms (initialLoadComplete (gt s)) (rset s)
             else rset s in
  let g' := markInitialLoad (isLoading (gt s)) (renderComplete (gt s))
                            (gateEffect (inp s) ms rs' (gt s)) in
  mret {| inp := inp s; rset := rs'; gt := g'; prevUtilitiesLen := prevUtilitiesLen s |}.

Definition with_inputs (i : inputs) (s : screen) : screen :=
  {| inp := i; rset := rset s; gt := gt s; prevUtilitiesLen := prevUtilitiesLen s |}.

Definition with_gate (g : gate) (s : screen) : screen :=
  {| inp := inp s; rset := rset s; gt := g; prevUtilitiesLen := prevUtilitiesLen s |}.

Definition set_utilities (us : list Utility) (i : inputs) : inputs :=
  {| utilities := us; mountedCount := mountedCount i; mapRegion := mapRegion i;
     deferredFilter := deferredFilter i; committedSearch := committedSearch i |}.
Definition set_mountedCount (n : nat) (i : inputs) : inputs :=
  {| utilities := utilities i; mountedCount := n; mapRegion := mapRegion i;
     deferredFilter := deferredFilter i; committedSearch := committedSearch i |}.
Definition set_mapRegion (r : option Region) (i : inputs) : inputs :=
  {| utilities := utilities i; mountedCount := mountedCount i; mapRegion := r;
     deferredFilter := deferredFilter i; committedSearch := committedSearch i |}.
Definition set_deferredFilter (k : string) (i : inputs) : inputs :=
  {| utilities := utilities i; mountedCount := mountedCount i; mapRegion := mapRegion i;
     deferredFilter := k; committedSearch := committedSearch i |}.
Definition set_committedSearch (q : string) (i : inputs) : inputs :=
  {| utilities := utilities i; mountedCount := mountedCount i; mapRegion := mapRegion i;
     deferredFilter := deferredFilter i; committedSearch := q |}.
Definition set_isLoading (b : bool) (g : gate) : gate :=
  {| isLoading := b; renderComplete := renderComplete g;
     initialLoadComplete := initialLoadComplete g; gateTimer := gateTimer g |}.
Definition set_renderComplete (b : bool) (g : gate) : gate :=
  {| isLoading := isLoading g; renderComplete := b;
     initialLoadComplete := initialLoadComplete g; gateTimer := gateTimer g |}.

(** The first render of a screen instance. *)
Definition initial (storeUtilities : list Utility) (storeLoading : bool)
           (currentLocation : option (float * float)) : screen :=
  {| inp := {| utilities := storeUtilities;
               mountedCount := 0;
               mapRegion := match currentLocation with
                            | Some (lat, lng) => Some (mkRegion lat lng 0.05 0.05)
                            | None => None
                            end;
               deferredFilter := "all";
               committedSearch := "" |};
     rset := {| renderedIds := ∅; renderTick := 0 |};
     gt := {| isLoading := storeLoading; renderComplete := false;
              initialLoadComplete := false; gateTimer := false |};
     prevUtilitiesLen := length storeUtilities |}.

Definition mount (storeUtilities : list Utility) (storeLoading : bool)
           (currentLocation : option (float * float)) : completion screen :=
  commit true (initial storeUtilities storeLoading currentLocation).

(** The pre-computation in [handleSearch] ("same logic as
    filteredUtilities"), whose result drives the map animation. *)
Definition searchResults (utilities : list Utility) (query : string)
  : completion (list Utility) :=
  let lowerQuery := JS.toLowerCase query in
  synonymCategories ← collectSynonyms (JS.split_ws lowerQuery) ∅;
  mret (filter (λ u, textMatch synonymCategories lowerQuery u) utilities).

(** [handleSearch]: commit the trimmed text of the search box.  Setting a
    state variable to the value it already has schedules no render. *)
Definition handleSearch (searchQuery : string) (s : screen) : completion screen :=
  let query := JS.trim searchQuery in
  _ ← (if JS.truthy query then searchResults (utilities (inp s)) query else mret []);
  if String.eqb query (committedSearch (inp s)) then mret s
  else commit true (with_inputs (set_committedSearch query (inp s)) s).

(** What can happen to a mounted screen: the store replaces the collection
    or flips [isLoading] (this is all [fetchAllUtilities] does to the
    screen); the user submits or clears the search box; the deferred
    category filter catches up with the tapped chip; [setMapRegion] applies
    a region reported by the map (immediately for the first, after the
    debounce for the others); and the three [setTimeout] chains fire.  A
    timer is armed exactly when its effect last found its guard open, and
    every effect that arms one re-runs on each change of the state its
    guard reads, so "armed" is a function of the current state. *)
Inductive event : Type :=
| StoreSetUtilities (us : list Utility)
| StoreSetLoading (b : bool)
| SubmitSearch (searchQuery : string)
| ClearSearch
| DeferredFilter (key : string)
| SetMapRegion (r : Region)
| MountTimer
| GrowthTimer
| RenderCompleteTimer.

(** One event and the renders it causes.  A new collection is rendered
    once with the old [mountedCount]; if its length differs from
    [prevUtilitiesLenRef.current] the effect on [utilities.length] resets
    [mountedCount] to 0, which renders again.  Setting a state variable to
    the value it has renders nothing. *)
Definition step (e : event) (s : screen) : completion screen :=
  match e with
  | StoreSetUtilities us =>
      s1 ← commit true (with_inputs (set_utilities us (inp s)) s);
      if bool_decide (length us = prevUtilitiesLen s1) then mret s1
      else
        let s2 := {| inp := set_mountedCount 0 (inp s1); rset := rset s1; gt := gt s1;
                     prevUtilitiesLen := length us |} in
        commit (negb (bool_decide (mountedCount (inp s1) = 0))) s2
  | StoreSetLoading b =>
      commit false (with_gate (set_isLoading b (gt s)) s)
  | SubmitSearch searchQuery => handleSearch searchQuery s
  | ClearSearch =>
      if String.eqb "" (committedSearch (inp s)) then mret s
      else commit true (with_inputs (set_committedSearch "" (inp s)) s)
  | DeferredFilter k =>
      if String.eqb k (deferredFilter (inp s)) then mret s
      else commit true (with_inputs (set_deferredFilter k (inp s)) s)
  | SetMapRegion r =>
      commit true (with_inputs (set_mapRegion (Some r) (inp s)) s)
  | MountTimer =>
      if bool_decide (mountedCount (inp s) < length (utilities (inp s)))
      then commit true
             (with_inputs
                (set_mountedCount
                   (Nat.min (mountedCount (inp s) + MOUNT_BATCH) (length (utilities (inp s))))
                   (inp s)) s)
      else mret s
  | GrowthTimer =>
      ms ← eligible (inp s);
      if growthPending ms (rset s)
      then commit false
             {| inp := inp s;
                rset := growthTick ms (initialLoadComplete (gt s)) (rset s);
                gt := gt s; prevUtilitiesLen := prevUtilitiesLen s |}
      else mret s
  | RenderCompleteTimer =>
      if gateTimer (gt s)
      then commit false (with_gate (set_renderComplete true (gt s)) s)
      else mret s
  end.

(** Running a sequence of events; a throw ends the screen instance. *)
Fixpoint run (es : list event) (s : screen) : completion screen :=
  match es with
  | [] => mret s
  | e :: rest => s' ← step e s; run rest s'
  end.

(** The states a screen instance can be in. *)
Definition reachable (s : screen) : Prop :=
  ∃ us loading loc es, (s0 ← mount us loading loc; run es s0) = Normal s.

(** *** The specification's scenario, run on the screen *)

(** A region whose buffered bounds hold entity 2 and not entity 1. *)
Definition scenario_region : Region :=
  mkRegion 47.61%float (-122.31)%float 0.002%float 0.002%float.

Definition state_of (c : completion screen) : screen :=
  match c with
  | Normal s => s
  | Throw _ => initial [] false None
  end.

(** Both entities fetched and mounted, before the map reports a region. *)
Definition scenario_mounted : screen :=
  state_of (s0 ← mount scenario false None; run [MountTimer] s0).

(** The same screen once the map has reported [scenario_region]. *)
Definition scenario_viewport : screen :=
  state_of (s0 ← mount scenario false None; run [MountTimer; SetMapRegion scenario_region] s0).

(** The same screen once the gate's timer has fired. *)
Definition scenario_open : screen :=
  state_of (s0 ← mount scenario false None; run [MountTimer; RenderCompleteTimer] s0).

(** The invariant of the render set. *)
Definition render_set_ok (s : screen) : Prop :=
  ∃ ms, eligible (inp s) = Normal ms
        ∧ renderedIds (rset s) ⊆ validIdsOf ms
        ∧ size (renderedIds (rset s)) ≤ MAX_RENDERED.

End MapScreen.

(* ===================================================================== *)
(** ** stores/utilityStore.ts and the fetch of MapScreen.tsx *)
(* ===================================================================== *)

Module UtilityStore.
Import Entities.

Record state : Type := mkStore {
  utilities : list Utility;
  isLoading : bool;
  error : option string;
  lastFetchTimestamp : option Z;
}.

(** [set({ utilities, error: null, lastFetchTimestamp: Date.now() })]. *)
Definition setUtilities (now : Z) (us : list Utility) (st : state) : state :=
  {| utilities := us; isLoading := isLoading st; error := None;
     lastFetchTimestamp := Some now |}.

Definition setLoading (loading : bool) (st : state) : state :=
  {| utilities := utilities st; isLoading := loading; error := error st;
     lastFetchTimestamp := lastFetchTimestamp st |}.

Definition setError (e : option string) (st : state) : state :=
  {| utilities := utilities st; isLoading := isLoading st; error := e;
     lastFetchTimestamp := lastFetchTimestamp st |}.

(** How an awaited promise of the API service settles.  The payload
    [response.data] may be missing ([undefined]). *)
Inductive settled (A : Type) : Type :=
| Fulfilled (value : A)
| Rejected (reason : string).
Arguments Fulfilled {A} value.
Arguments Rejected {A} reason.

Record apiService : Type := mkApi {
  getAllUtilities : settled (option (list Utility));
  getNearbyUtilities : float * float → settled (option (list Utility));
}.

(** The store's own [fetchNearbyUtilities]: reading [utilities.length] of
    a missing payload throws inside the [try]. *)
Definition fetchNearbyUtilities (api : apiService) (location : float * float)
           (st : state) : completion state :=
  match getNearbyUtilities api location with
  | Fulfilled (Some us) =>
      Normal {| utilities := us; isLoading := false; error := None;
                lastFetchTimestamp := lastFetchTimestamp st |}
  | Fulfilled None | Rejected _ =>
      Normal {| utilities := utilities st; isLoading := false;
                error := Some "Failed to fetch nearby utilities";
                lastFetchTimestamp := lastFetchTimestamp st |}
  end.

(** [fetchAllUtilities] of MapScreen.tsx.  [fetchInProgress] is the ref of
    that name; [loc] the argument, [currentLocation] the ref read by the
    fallback.  The result pairs the store with the ref. *)
Definition fetchAllUtilities (api : apiService) (now : Z)
           (loc currentLocation : option (float * float))
           (fetchInProgress : bool) (st : state) : completion (state * bool) :=
  if fetchInProgress then Normal (st, fetchInProgress)
  else
    let st1 := setLoading true st in
    let st2 :=
      match getAllUtilities api with
      | Fulfilled results => setUtilities now (default [] results) st1
      | Rejected _ =>
          match (match loc with Some l => Some l | None => currentLocation end) with
          | Some location =>
              match getNearbyUtilities api location with
              | Fulfilled results => setUtilities now (default [] results) st1
              | Rejected _ => st1
              end
          | None => st1
          end
      end in
    Normal (setLoading false st2, false).

(** Both calls of the fetch reject. *)
Definition fetch_fails (api : apiService) (loc currentLocation : option (float * float)) : Prop :=
  (∃ r, getAllUtilities api = Rejected r)
  ∧ ∀ location, (match loc with Some l => Some l | None => currentLocation end) = Some location →
                ∃ r, getNearbyUtilities api location = Rejected r.

(** *** A failing backend *)

(** The rejections [apiService] produces when the request fails. *)
Definition failing_api : apiService :=
  {| getAllUtilities := Rejected "Failed to fetch all utilities";
     getNearbyUtilities := λ _, Rejected "Failed to fetch nearby utilities" |}.

(** A store holding the scenario's two entities, with no error recorded. *)
Definition store_before : state :=
  {| utilities := scenario; isLoading := false; error := None;
     lastFetchTimestamp := Some 0%Z |}.

End UtilityStore.

(* ===================================================================== *)
(** ** screens/PrivacyPolicyScreen.tsx: the map screen with the native
       icon preloader *)
(* ===================================================================== *)

Module PreloaderScreen.
Import Entities MarkerImages.

(** A promise of the host: it resolves, rejects, or never settles. *)
Inductive promise (A : Type) : Type :=
| Resolves (value : A)
| Rejects
| Pending.
Arguments Resolves {A} value.
Arguments Rejects {A}.
Arguments Pending {A}.

Definition is_settled {A} (p : promise A) : bool :=
  match p with Pending => false | _ => true end.

Definition is_rejected {A} (p : promise A) : bool :=
  match p with Rejects => true | _ => false end.

(** The host interfaces the preload effect talks to.
    [MarkerIconPreloader] is [NativeModules.MarkerIconPreloader]'s
    [preloadIcons], when the module is linked; its result is the
    [{loaded, total}] object, or nothing. *)
Record host : Type := mkHost {
  resolveAssetSource : ImageRequireSource → option string;
  MarkerIconPreloader : option (list string → promise (option (nat * nat)));
  prefetch : string → promise bool;
  __DEV__ : bool;
}.

Inductive request : Type :=
| PreloadIcons (uris : list string)
| Prefetch (uri : string).

(** [images.map(src => Image.resolveAssetSource(src)?.uri).filter(Boolean)]. *)
Definition resolveUris (h : host) (images : list ImageRequireSource) : list string :=
  omap (λ src, match resolveAssetSource h src with
               | Some uri => if JS.truthy uri then Some uri else None
               | None => None
               end) images.

(** [await Promise.allSettled(ps)] returns once no promise is pending. *)
Definition allSettled {A} (ps : list (promise A)) : bool := forallb is_settled ps.

(** What one run of [preload] did: the requests it issued, in order, and
    whether it got past its last [await]. *)
Record preload_run : Type := mkRun {
  requests : list request;
  finished : bool;
}.

Section Preload.
(** [ALL_UNIQUE_MARKER_IMAGES] is exported by a revision of markerImages.ts
    that is not part of the sources at hand; the effect is modelled for any
    list of images. *)
Variable ALL_UNIQUE_MARKER_IMAGES : list ImageRequireSource.
Variable h : host.

(** The [catch] block: one [Image.prefetch] per URI, awaited together. *)
Definition fallback : preload_run :=
  let fallbackUris := resolveUris h ALL_UNIQUE_MARKER_IMAGES in
  {| requests := Prefetch <$> fallbackUris;
     finished := allSettled (prefetch h <$> fallbackUris) |}.

Definition after_bulk (uris : list string) (r : preload_run) : preload_run :=
  {| requests := PreloadIcons uris :: requests r; finished := finished r |}.

(** The [preload] function of the effect.  In a development build the log
    line reads [result.loaded], which throws when the module resolved with
    nothing. *)
Definition preload : preload_run :=
  let uris := resolveUris h ALL_UNIQUE_MARKER_IMAGES in
  match MarkerIconPreloader h with
  | Some preloadIcons =>
      match preloadIcons uris with
      | Resolves (Some _) => {| requests := [PreloadIcons uris]; finished := true |}
      | Resolves None =>
          if __DEV__ h then after_bulk uris fallback
          else {| requests := [PreloadIcons uris]; finished := true |}
      | Rejects => after_bulk uris fallback
      | Pending => {| requests := [PreloadIcons uris]; finished := false |}
      end
  | None =>
      {| requests := Prefetch <$> uris;
         finished := allSettled (prefetch h <$> uris) |}
  end.

(** The bulk path is unavailable, or it throws. *)
Definition bulk_unavailable : Prop := MarkerIconPreloader h = None.

Definition bulk_throws : Prop :=
  ∃ preloadIcons,
    MarkerIconPreloader h = Some preloadIcons
    ∧ (preloadIcons (resolveUris h ALL_UNIQUE_MARKER_IMAGES) = Rejects
       ∨ (preloadIcons (resolveUris h ALL_UNIQUE_MARKER_IMAGES) = Resolves None
          ∧ __DEV__ h = true)).

Definition prefetches (rs : list request) : list string :=
  omap (λ r, match r with Prefetch uri => Some uri | PreloadIcons _ => None end) rs.

(** [if (!cancelled) setImagesCached(true)], once [preload] is through. *)
Definition imagesCachedAfter (cancelled imagesCached : bool) : bool :=
  if finished preload && negb cancelled then true else imagesCached.

(** *** The screen *)

Record screen : Type := mkScreen {
  utilities : list Utility;
  hasLocationPermission : bool;
  committedSearch : string;
  deferredFilter : string;
  selectedUtility : option Utility;
  imagesCached : bool;
  renderComplete : bool;
  initialLoadComplete : bool;
  gateTimer : bool;
  categoryCache : gmap string marker_value;
}.

(** The props of a [<Marker>] built from an entity. *)
Record MarkerElement : Type := mkMarker {
  key : entity_id;
  coordinate : float * float;
  icon : marker_value;
}.

(** The children of [<MapView>]. *)
Inductive child : Type :=
| EntityMarker (m : MarkerElement)
| SelectedMarker (u : Utility).

Definition is_entity_marker (c : child) : bool :=
  match c with EntityMarker _ => true | SelectedMarker _ => false end.

Definition finalMarkers (us : list Utility) (matchingIds : option (gset entity_id))
  : list Utility :=
  match matchingIds with
  | Some ids => filter (λ u, id u ∈ ids) us
  | None => us
  end.

(** [utility.type || utility.category || 'water_fountain']. *)
Definition utilityType (u : Utility) : string :=
  match type u with
  | Some (String c t) => String c t
  | _ => match category u with
         | Some (String c t) => String c t
         | _ => "water_fountain"
         end
  end.

(** [finalMarkers.map((utility) => <Marker ... icon={getMarkerImage(...)} />)],
    threading the module's [categoryCache]. *)
Fixpoint markerElements (ms : list Utility) (cache : gmap string marker_value)
  : list MarkerElement * gmap string marker_value :=
  match ms with
  | [] => ([], cache)
  | u :: rest =>
      let '(img, cache1) := getMarkerImage (utilityType u) cache in
      let '(els, cache2) := markerElements rest cache1 in
      ({| key := id u; coordinate := (latitude u, longitude u); icon := img |} :: els,
       cache2)
  end.

(** The children of the map for given marker elements:
    [{imagesCached && markerElements}] followed by
    [{selectedUtility && <Marker key=selected-... />}]. *)
Definition mapChildren (s : screen) (elements : list MarkerElement) : list child :=
  (if imagesCached s then EntityMarker <$> elements else [])
  ++ match selectedUtility s with
     | Some u => [SelectedMarker u]
     | None => []
     end.

(** One render: the children of the map (none on the permission screen)
    and the cache it leaves. *)
Definition render (s : screen) : completion (list child * gmap string marker_value) :=
  ids ← matchingFilterIds (utilities s) (deferredFilter s) (committedSearch s);
  let '(elements, cache) :=
    markerElements (finalMarkers (utilities s) ids) (categoryCache s) in
  mret (if hasLocationPermission s then mapChildren s elements else [], cache).

Definition showLoadingOverlay (s : screen) : bool :=
  negb (initialLoadComplete s) && negb (renderComplete s).

(** One render and its effects: the gate effect
    ([if (!imagesCached || utilities.length === 0) setRenderComplete(false)]
    else arm the 5 s timer) and the effect marking the initial load. *)
Definition commit (s : screen) : completion screen :=
  r ← render s;
  let blocked := negb (imagesCached s) || bool_decide (length (utilities s) = 0) in
  mret {| utilities := utilities s;
          hasLocationPermission := hasLocationPermission s;
          committedSearch := committedSearch s;
          deferredFilter := deferredFilter s;
          selectedUtility := selectedUtility s;
          imagesCached := imagesCached s;
          renderComplete := if blocked then false else renderComplete s;
          initialLoadComplete := initialLoadComplete s || renderComplete s;
          gateTimer := negb blocked;
          categoryCache := r.2 |}.

Definition initial (storeUtilities : list Utility) (permission : bool)
           (cache : gmap string marker_value) : screen :=
  {| utilities := storeUtilities; hasLocationPermission := permission;
     committedSearch := ""; deferredFilter := "all"; selectedUtility := None;
     imagesCached := false; renderComplete := false; initialLoadComplete := false;
     gateTimer := false; categoryCache := cache |}.

Inductive event : Type :=
| PreloadFinishes            (* [preload] got past its last await *)
| StoreSetUtilities (us : list Utility)
| SetLocationPermission (granted : bool)
| SubmitSearch (searchQuery : string)
| ClearSearch
| DeferredFilter (k : string)
| MarkerPress (u : Utility)
| BottomSheetClose
| RenderCompleteTimer.

Definition set_search (q : string) (sel : option Utility) (s : screen) : screen :=
  {| utilities := utilities s; hasLocationPermission := hasLocationPermission s;
     committedSearch := q; deferredFilter := deferredFilter s;
     selectedUtility := sel; imagesCached := imagesCached s;
     renderComplete := renderComplete s; initialLoadComplete := initialLoadComplete s;
     gateTimer := gateTimer s; categoryCache := categoryCache s |}.

Definition set_selected (sel : option Utility) (s : screen) : screen :=
  set_search (committedSearch s) sel s.

Definition set_flags (us : list Utility) (permission : bool) (k : string)
           (cached complete : bool) (s : screen) : screen :=
  {| utilities := us; hasLocationPermission := permission;
     committedSearch := committedSearch s; deferredFilter := k;
     selectedUtility := selectedUtility s; imagesCached := cached;
     renderComplete := complete; initialLoadComplete := initialLoadComplete s;
     gateTimer := gateTimer s; categoryCache := categoryCache s |}.

(** [handleSearch]: commit the query; when exactly one entity matches,
    select it. *)
Definition handleSearch (searchQuery : string) (s : screen) : completion screen :=
  let query := JS.trim searchQuery in
  if JS.truthy query
  then results ← MapScreen.searchResults (utilities s) query;
       commit (set_search query
                 (match results with [u] => Some u | _ => selectedUtility s end) s)
  else commit (set_search query (selectedUtility s) s).

Definition step (e : event) (s : screen) : completion screen :=
  match e with
  | PreloadFinishes =>
      if finished preload
      then commit (set_flags (utilities s) (hasLocationPermission s) (deferredFilter s)
                             true (renderComplete s) s)
      else mret s
  | StoreSetUtilities us =>
      commit (set_flags us (hasLocationPermission s) (deferredFilter s)
                        (imagesCached s) (renderComplete s) s)
  | SetLocationPermission granted =>
      commit (set_flags (utilities s) granted (deferredFilter s)
                        (imagesCached s) (renderComplete s) s)
  | SubmitSearch q => handleSearch q s
  | ClearSearch => commit (set_search "" (selectedUtility s) s)
  | DeferredFilter k =>
      commit (set_flags (utilities s) (hasLocationPermission s) k
                        (imagesCached s) (renderComplete s) s)
  | MarkerPress u => commit (set_selected (Some u) s)
  | BottomSheetClose => commit (set_selected None s)
  | RenderCompleteTimer =>
      if gateTimer s
      then commit (set_flags (utilities s) (hasLocationPermission s) (deferredFilter s)
                             (imagesCached s) true s)
      else mret s
  end.

Fixpoint run (es : list event) (s : screen) : completion screen :=
  match es with
  | [] => mret s
  | e :: rest => s' ← step e s; run rest s'
  end.

End Preload.

(** *** A host whose bulk path rejects and one of whose prefetches fails *)

Definition example_images : list ImageRequireSource :=
  [marker "restroom"; marker "default"; marker "water_fountain"].

Definition example_host : host :=
  {| resolveAssetSource := λ src, match src with require path => Some path end;
     MarkerIconPreloader := Some (λ _, Rejects);
     prefetch := λ uri, if String.eqb uri "../assets/markers/marker_default.png"
                        then Rejects else Resolves true;
     __DEV__ := false |}.

End PreloaderScreen.

(* ===================================================================== *)
(** ** screens/MapScreen.tsx: the debounce of the region reports *)
(* ===================================================================== *)

Module RegionDebounce.
Import Entities MapScreen.

(** [firstRegionFiredRef.current], and the region the pending debounce
    timer of [regionDebounceRef] closed over, if one is pending. *)
Record debounce : Type := mkDebounce {
  firstRegionFired : bool;
  regionDebounce : option Region;
}.

(** [handleRegionChangeComplete]: the new refs and the region passed to
    [setMapRegion] right away, if any. *)
Definition handleRegionChangeComplete (region : Region) (d : debounce)
  : debounce * option Region :=
  if negb (firstRegionFired d)
  then ({| firstRegionFired := true; regionDebounce := regionDebounce d |}, Some region)
  else ({| firstRegionFired := firstRegionFired d; regionDebounce := Some region |}, None).

(** The debounce timer fires, 300 ms after it was last set. *)
Definition debounceFires (d : debounce) : debounce * option Region :=
  match regionDebounce d with
  | Some region =>
      ({| firstRegionFired := firstRegionFired d; regionDebounce := None |}, Some region)
  | None => (d, None)
  end.

Inductive map_event : Type :=
| RegionChangeComplete (region : Region)
| DebounceTimer.

Definition setMapRegion (r : option Region) (s : screen) : completion screen :=
  match r with
  | Some region => step (SetMapRegion region) s
  | None => mret s
  end.

Definition map_step (e : map_event) (ds : debounce * screen) : completion (debounce * screen) :=
  let '(d', applied) :=
    match e with
    | RegionChangeComplete region => handleRegionChangeComplete region ds.1
    | DebounceTimer => debounceFires ds.1
    end in
  s' ← setMapRegion applied ds.2; mret (d', s').

Fixpoint map_run (es : list map_event) (ds : debounce * screen)
  : completion (debounce * screen) :=
  match es with
  | [] => mret ds
  | e :: rest => ds' ← map_step e ds; map_run rest ds'
  end.

End RegionDebounce.

(* ===================================================================== *)
(** ** screens/MapScreen.tsx: the counters of the mount chain *)
(* ===================================================================== *)

Module ScreenInvariants.
Import Entities MapScreen.

(** [prevUtilitiesLenRef.current] is the length of the collection the
    screen renders, and no more entities are mounted than there are. *)
Definition counts_ok (s : screen) : Prop :=
  prevUtilitiesLen s = length (utilities (inp s))
  ∧ mountedCount (inp s) ≤ length (utilities (inp s)).

End ScreenInvariants.

(* ===================================================================== *)
(** ** JavaScript [Map]: keyed entries in insertion order *)
(* ===================================================================== *)

Module JSMap.

Section JSMap.
Context {K V : Type} `{EqDecision K}.

(** [m.set(k, v)]: the value of an existing key is replaced where the key
    stands; a new key is appended. *)
Fixpoint set (k : K) (v : V) (m : list (K * V)) : list (K * V) :=
  match m with
  | [] => [(k, v)]
  | (k', v') :: rest =>
      if decide (k' = k) then (k', v) :: rest else (k', v') :: set k v rest
  end.

(** [new Map(entries)]. *)
Definition of_entries (entries : list (K * V)) : list (K * V) :=
  foldl (λ m kv, set kv.1 kv.2 m) [] entries.

(** [Array.from(m.values())]. *)
Definition values (m : list (K * V)) : list V := snd <$> m.

End JSMap.

End JSMap.

(* ===================================================================== *)
(** ** stores/utilityStore.ts: the other actions *)
(* ===================================================================== *)

Module StoreActions.
Import Entities UtilityStore.

(** The loop [for (const u of newUtilities) existing.set(u.id, u)]. *)
Definition upsert (existing : list (entity_id * Utility)) (newUtilities : list Utility)
  : list (entity_id * Utility) :=
  foldl (λ m u, JSMap.set (id u) u m) existing newUtilities.

(** [mergeUtilities]: upsert by identifier into a [Map] built from the
    current collection. *)
Definition mergeUtilities (newUtilities : list Utility) (st : state) : state :=
  let existing := JSMap.of_entries ((λ u, (id u, u)) <$> utilities st) in
  {| utilities := JSMap.values (upsert existing newUtilities);
     isLoading := isLoading st; error := None;
     lastFetchTimestamp := lastFetchTimestamp st |}.

(** Every entry of a map is keyed by the identifier of its entity. *)
Definition keyed (m : list (entity_id * Utility)) : Prop :=
  Forall (λ kv, kv.1 = id kv.2) m.

(** The version of identifier [i] that a sequence of upserts leaves: the
    last entity of the sequence with that identifier. *)
Definition last_version (i : entity_id) (us : list Utility) : option Utility :=
  last (filter (λ u, id u = i) us).

(** *** The API actions

    Each action is run from its first statement to its last with no other
    action in between; [outcome] is how the awaited call of the API service
    settles, with the payload its type promises. *)

(** [searchUtilities]. *)
Definition searchUtilities (now : Z) (outcome : settled (list Utility)) (st : state) : state :=
  let st1 := setError None (setLoading true st) in
  let st2 :=
    match outcome with
    | Fulfilled us => setUtilities now us st1
    | Rejected _ => setError (Some "Failed to search utilities") st1
    end in
  setLoading false st2.

Definition set_utilities (us : list Utility) (st : state) : state :=
  {| utilities := us; isLoading := isLoading st; error := error st;
     lastFetchTimestamp := lastFetchTimestamp st |}.

(** [createUtility]: the store it leaves and the value it returns. *)
Definition createUtility (outcome : settled Utility) (st : state) : state * option Utility :=
  let st1 := setError None (setLoading true st) in
  match outcome with
  | Fulfilled newUtility =>
      (setLoading false (set_utilities (utilities st1 ++ [newUtility]) st1), Some newUtility)
  | Rejected _ =>
      (setLoading false (setError (Some "Failed to create utility") st1), None)
  end.

(** [utility.id === id] for the [id : string] of [updateUtility] and
    [deleteUtility]: strict equality, so a numeric identifier never
    matches. *)
Definition id_is (i : string) (u : Utility) : bool :=
  bool_decide (id u = IdStr i).

(** [updateUtility]. *)
Definition updateUtility (i : string) (outcome : settled Utility) (st : state) : state :=
  let st1 := setError None (setLoading true st) in
  let st2 :=
    match outcome with
    | Fulfilled updatedUtility =>
        set_utilities ((λ u, if id_is i u then updatedUtility else u) <$> utilities st1) st1
    | Rejected _ => setError (Some "Failed to update utility") st1
    end in
  setLoading false st2.

(** [deleteUtility]. *)
Definition deleteUtility (i : string) (outcome : settled unit) (st : state) : state :=
  let st1 := setError None (setLoading true st) in
  let st2 :=
    match outcome with
    | Fulfilled _ => set_utilities (filter (λ u, id_is i u = false) (utilities st1)) st1
    | Rejected _ => setError (Some "Failed to delete utility") st1
    end in
  setLoading false st2.

(** [reportUtility]. *)
Definition reportUtility (outcome : settled unit) (st : state) : state :=
  match outcome with
  | Fulfilled _ => st
  | Rejected _ => setError (Some "Failed to report utility") st
  end.

End StoreActions.

(* ===================================================================== *)
(** ** stores/utilityStore.ts: persistence *)
(* ===================================================================== *)

Module StorePersist.
Import Entities UtilityStore.

(** A value of [activeFilters]: [radius] and [limit] are numbers,
    [verified_only] and [open_now] booleans. *)
Inductive filter_value : Type :=
| FilterNumber (x : float)
| FilterBool (b : bool).

(** The data of [UtilityState]; [store] groups the four fields the fetch
    works on. *)
Record UtilityState : Type := mkUtilityState {
  store : state;
  selectedUtility : option Utility;
  lastFetchLocation : option (float * float);
  searchQuery : string;
  activeFilters : gmap string filter_value;
}.

(** A [Partial<UtilityState>] read back from storage: each key may be
    missing. *)
Record persisted : Type := mkPersisted {
  p_utilities : option (list Utility);
  p_selectedUtility : option (option Utility);
  p_isLoading : option bool;
  p_error : option (option string);
  p_lastFetchLocation : option (option (float * float));
  p_lastFetchTimestamp : option (option Z);
  p_searchQuery : option string;
  p_activeFilters : option (gmap string filter_value);
}.


Section Bundled.
(** [bundledUtilities], the JSON asset the store starts from. *)
Variable bundledUtilities : list Utility.

(** The initial state of the store. *)
Definition initialState : UtilityState :=
  {| store := {| utilities := bundledUtilities; isLoading := false; error := None;
                 lastFetchTimestamp := Some 0%Z |};
     selectedUtility := None; lastFetchLocation := None; searchQuery := "";
     activeFilters :=
       JS.object_literal
         [("radius", FilterNumber 25.0%float); ("verified_only", FilterBool false);
          ("open_now", FilterBool false); ("limit", FilterNumber 500%float)] |}.

(** [persistedState?.utilities ?? []] filtered by [!bundledIds.has(u.id)]. *)
Definition userCreated (p : option persisted) : list Utility :=
  let bundledIds : gset entity_id := list_to_set (id <$> bundledUtilities) in
  filter (λ u, id u ∉ bundledIds) (default [] (p ≫= p_utilities)).

(** [merge]: [{...currentState, ...persistedState, utilities: ...}].  A
    key of the persisted object overrides the current value; the entities
    are the current ones, followed by the persisted ones that are not
    bundled. *)
Definition merge (p : option persisted) (currentState : UtilityState) : UtilityState :=
  let spread {A} (field : persisted → option A) (current : A) : A :=
    default current (p ≫= field) in
  {| store :=
       {| utilities :=
            if bool_decide (0 < length (userCreated p))
            then utilities (store currentState) ++ userCreated p
            else utilities (store currentState);
          isLoading := spread p_isLoading (isLoading (store currentState));
          error := spread p_error (error (store currentState));
          lastFetchTimestamp :=
            spread p_lastFetchTimestamp (lastFetchTimestamp (store currentState)) |};
     selectedUtility := spread p_selectedUtility (selectedUtility currentState);
     lastFetchLocation := spread p_lastFetchLocation (lastFetchLocation currentState);
     searchQuery := spread p_searchQuery (searchQuery currentState);
     activeFilters := spread p_activeFilters (activeFilters currentState) |}.

End Bundled.

End StorePersist.

(* ===================================================================== *)
(** ** services/apiService.ts: the government facilities *)
(* ===================================================================== *)

Module ApiService.
Import UtilityStore.

Section Facilities.
Context {A : Type}.

(** The three lists the call answers with. *)
Record facilities : Type := mkFacilities {
  hrsa : list A;
  va : list A;
  usda : list A;
}.

(** [results[i]?.status === 'fulfilled' ? results[i].value : []]. *)
Definition fulfilled_value (results : list (settled (list A))) (i : nat) : list A :=
  match results !! i with
  | Some (Fulfilled value) => value
  | _ => []
  end.

(** [getAllGovernmentFacilities]: the requested calls are pushed in the
    order HRSA, VA, USDA and awaited with [Promise.allSettled], which never
    rejects; each list is then read back by position.  The three arguments
    say how each call settles if it is made.  [results.length - 1] is only
    read when USDA was requested, so the list is not empty there. *)
Definition getAllGovernmentFacilities
           (healthCenters vaFacilities usdaFacilities : settled (list A))
           (includeHRSA includeVA includeUSDA : bool) : facilities :=
  let promises :=
    (if includeHRSA then [healthCenters] else [])
    ++ (if includeVA then [vaFacilities] else [])
    ++ (if includeUSDA then [usdaFacilities] else []) in
  let results := promises in
  {| hrsa := if includeHRSA then fulfilled_value results 0 else [];
     va := if includeVA then fulfilled_value results (if includeHRSA then 1 else 0) else [];
     usda := if includeUSDA then fulfilled_value results (length results - 1) else [] |}.

(** What a call contributes: its value when it is requested and
    fulfilled. *)
Definition contribution (include : bool) (call : settled (list A)) : list A :=
  match call with
  | Fulfilled value => if include then value else []
  | Rejected _ => []
  end.

End Facilities.

End ApiService.

(* ===================================================================== *)
(** ** screens/SearchScreen.tsx: the list search *)
(* ===================================================================== *)

Module SearchScreen.
Import Entities.

Record UtilityType : Type := mkUtilityType {
  key : string;
  label : string;
  categories : list string;
}.

Definition UTILITY_TYPES : list UtilityType :=
  [ mkUtilityType "all" "All" [];
    mkUtilityType "restroom" "Restrooms" ["restroom"];
    mkUtilityType "water_fountain" "Water" ["water_fountain"; "water"; "handwashing"];
    mkUtilityType "food" "Food" ["free_food"; "food"];
    mkUtilityType "shelter" "Shelter"
      ["shelter"; "hurricane_shelter"; "warming_center"; "cooling_center"];
    mkUtilityType "health_center" "Health"
      ["health_center"; "community_health_center"; "migrant_health_center";
       "homeless_health_center"; "public_housing_health_center";
       "school_based_health_center"; "federally_qualified_health_center";
       "clinic"; "medical"];
    mkUtilityType "wifi" "WiFi" ["wifi"; "internet"];
    mkUtilityType "transit" "Transit" ["transit"];
    mkUtilityType "va_facility" "VA"
      ["va_facility"; "va_medical_center"; "va_outpatient_clinic";
       "va_vet_center"; "va_regional_office"; "va_cemetery"];
    mkUtilityType "usda_facility" "USDA"
      ["usda_facility"; "usda_snap_office"; "usda_wic_office";
       "usda_farm_service_center"; "usda_rural_development_office";
       "usda_extension_office"] ].

(** [toggleFilter], as the new value of [selectedFilters]. *)
Definition toggleFilter (k : string) (prev : list string) : list string :=
  if String.eqb k "all" then []
  else if bool_decide (k ∈ prev) then filter (λ f, f ≠ k) prev
       else prev ++ [k].

Definition clearFilters : list string := [].

(** The loop of [filterCategorySet]:
    [const filter = UTILITY_TYPES.find(f => f.key === key);
     if (filter) filter.categories.forEach(c => cats.add(c));]. *)
Definition addCategories (cats : gset string) (k : string) : gset string :=
  match find (λ f, String.eqb (key f) k) UTILITY_TYPES with
  | Some f => cats ∪ list_to_set (categories f)
  | None => cats
  end.

(** [filterCategorySet]: [None] is the source's [null]. *)
Definition filterCategorySet (selectedFilters : list string) : option (gset string) :=
  if bool_decide (length selectedFilters = 0) then None
  else Some (foldl addCategories ∅ selectedFilters).

(** [const x = f?.toLowerCase(); x && set.has(x)]. *)
Definition lower_and_has (set : gset string) (f : option string) : bool :=
  match f with
  | Some x => JS.truthy (JS.toLowerCase x) && bool_decide (JS.toLowerCase x ∈ set)
  | None => false
  end.

(** The callback of the chip filter. *)
Definition chipMatch (set : gset string) (u : Utility) : bool :=
  lower_and_has set (category u) || lower_and_has set (type u).

Section Sort.
(** [[...result].sort((a, b) => da - db)] with the distances of
    [calculateDistance] from utils/location, which is not part of the
    sources at hand. *)
Variable sortByDistance : float * float → list Utility → list Utility.

(** The [useMemo] body computing [filteredUtilities].  The synonym table
    of this file has the entries of the map screen's, in the same order,
    and the text callback is the same. *)
Definition filteredUtilities (utilities : list Utility) (searchQuery : string)
           (filterCategorySet : option (gset string))
           (userLocation : option (float * float)) : completion (list Utility) :=
  let query := JS.trim (JS.toLowerCase searchQuery) in
  result ← (if JS.truthy query
            then synonymCategories ← collectSynonyms (JS.split_ws query) ∅;
                 mret (filter (λ u, textMatch synonymCategories query u) utilities)
            else mret utilities);
  let result :=
    match filterCategorySet with
    | Some set => filter (λ u, chipMatch set u) result
    | None => result
    end in
  mret (match userLocation with
        | Some location => sortByDistance location result
        | None => result
        end).

End Sort.

End SearchScreen.

(* ===================================================================== *)
(** ** services/appRating.ts *)
(* ===================================================================== *)

Module AppRating.

Definition MIN_SESSIONS : Z := 5.
Definition MIN_DAYS_SINCE_INSTALL : float := 3%float.

Record RatingState : Type := mkRatingState {
  installDate : float;
  sessionCount : Z;
  hasRequested : bool;
}.

(** What the host does during one launch: the clock, and how each awaited
    call settles ([false]: it rejects).  [isAvailable] is the value of
    [StoreReview.isAvailableAsync()], if it resolves. *)
Record launch : Type := mkLaunch {
  now : float;
  getItem : bool;
  setItem_initial : bool;
  isAvailable : option bool;
  requestReview : bool;
  setItem : bool;
}.

(** What one launch leaves: the stored state (storage holds what was last
    written, [None] before the first write) and whether
    [StoreReview.requestReview] was called. *)
Record outcome : Type := mkOutcome {
  stored : option RatingState;
  prompted : bool;
}.

(** [(Date.now() - state.installDate) / (1000 * 60 * 60 * 24)]. *)
Definition daysSinceInstall (h : launch) (state : RatingState) : float :=
  ((now h - installDate state) / (1000 * 60 * 60 * 24))%float.

(** [eligible], computed after [state.sessionCount += 1]. *)
Definition eligible (h : launch) (state : RatingState) : bool :=
  negb (hasRequested state)
  && (MIN_SESSIONS <=? sessionCount state)%Z
  && PrimFloat.leb MIN_DAYS_SINCE_INSTALL (daysSinceInstall h state).

(** The final [AsyncStorage.setItem]; a rejection is swallowed by the
    [catch] and leaves storage as it was. *)
Definition save (h : launch) (storage : option RatingState) (state : RatingState)
           (prompted_ : bool) : outcome :=
  {| stored := if setItem h then Some state else storage; prompted := prompted_ |}.

(** The body of the [try] once [getState] has answered. *)
Definition track (h : launch) (storage : option RatingState) (loaded : RatingState) : outcome :=
  let state := {| installDate := installDate loaded;
                  sessionCount := sessionCount loaded + 1;
                  hasRequested := hasRequested loaded |} in
  if eligible h state
  then match isAvailable h with
       | None => {| stored := storage; prompted := false |}
       | Some false => save h storage state false
       | Some true =>
           if requestReview h
           then save h storage
                     {| installDate := installDate state;
                        sessionCount := sessionCount state;
                        hasRequested := true |} true
           else {| stored := storage; prompted := true |}
       end
  else save h storage state false.

(** [trackSessionAndMaybePrompt], with [getState] inlined: a missing item
    is initialised and written first. *)
Definition trackSessionAndMaybePrompt (h : launch) (storage : option RatingState) : outcome :=
  if getItem h
  then match storage with
       | Some state => track h storage state
       | None =>
           let initial := {| installDate := now h; sessionCount := 0;
                             hasRequested := false |} in
           if setItem_initial h then track h (Some initial) initial
           else {| stored := storage; prompted := false |}
       end
  else {| stored := storage; prompted := false |}.

(** The launches of the app, one after the other: the storage they leave
    and how many times the review was requested. *)
Fixpoint launches (hs : list launch) (storage : option RatingState) : option RatingState * nat :=
  match hs with
  | [] => (storage, 0)
  | h :: rest =>
      let o := trackSessionAndMaybePrompt h storage in
      let '(storage', n) := launches rest (stored o) in
      (storage', (if prompted o then 1 else 0) + n)
  end.

(** Storage records that the review was requested. *)
Definition requested (storage : option RatingState) : Prop :=
  ∃ state, storage = Some state ∧ hasRequested state = true.

End AppRating.

(* ===================================================================== *)
(** ** components/TransitArrivals.tsx: the clock of an arrival *)
(* ===================================================================== *)

Module TransitArrivals.

(** [n.toString()] for a non-negative integer: its decimal digits. *)
Fixpoint digits (fuel n : nat) (acc : string) : string :=
  let acc' := String (ascii_of_nat (48 + n mod 10)) acc in
  match fuel with
  | 0 => acc'
  | S fuel' => if n / 10 =? 0 then acc' else digits fuel' (n / 10) acc'
  end.

Definition toString (n : nat) : string := digits n n "".

(** [s.padStart(targetLength, "0")]. *)
Definition padStart0 (targetLength : nat) (s : string) : string :=
  String.append (String.string_of_list_ascii (replicate (targetLength - String.length s) "0"%char)) s.

(** [formatTime], from the hours and minutes the host's [Date] reports for
    [epochMs] in local time:
    [`${h % 12 || 12}:${m.toString().padStart(2, '0')} ${ampm}`]. *)
Definition formatTime (h m : nat) : string :=
  let ampm := if 12 <=? h then "PM" else "AM" in
  let hour := if h mod 12 =? 0 then 12 else h mod 12 in
  String.append (toString hour)
    (String.append ":" (String.append (padStart0 2 (toString m)) (String.append " " ampm))).

(** The minutes of the day, for the clocks a [Date] can report. *)
Definition clock_table : list (nat * string) :=
  (λ n, (n, formatTime (n / 60) (n mod 60))) <$> seq 0 1440.

(** Two entries show the same text only if they are the same minute. *)
Definition same_minute (x y : nat * string) : bool :=
  if String.eqb x.2 y.2 then x.1 =? y.1 else true.

(** The text of an entry: hour from 1 to 12, colon, two digits, AM or PM. *)
Definition shaped (ns : nat * string) : bool :=
  let h := ns.1 / 60 in
  let m := ns.1 mod 60 in
  existsb (λ hour,
    String.eqb ns.2
      (String.append (toString hour)
         (String.append ":"
            (String (ascii_of_nat (48 + m / 10))
               (String (ascii_of_nat (48 + m mod 10))
                  (if h <? 12 then " AM" else " PM")))))
    && (h mod 12 =? hour mod 12))
    (seq 1 12).

End TransitArrivals.

(* ===================================================================== *)
(** ** screens/PrivacyPolicyScreen.tsx: what the overlay waits for *)
(* ===================================================================== *)

Module PreloaderInvariants.
Import PreloaderScreen.

(** The gate has moved: [renderComplete] is set or the initial load is
    marked. *)
Definition gate_moved (s : screen) : Prop :=
  renderComplete s = true ∨ initialLoadComplete s = true.

(** The gate only moves, and its timer is only armed, with the icons
    cached. *)
Definition gate_needs_icons (s : screen) : Prop :=
  gate_moved s ∨ gateTimer s = true → imagesCached s = true.

End PreloaderInvariants.

(* ===================================================================== *)
(** * Properties *)
(* ===================================================================== *)

(** ** The admission loop, pruning and the reconciliation pass *)

Module RenderSetFacts.
Import Entities MapScreen.

Lemma size_add_fresh (i : entity_id) (X : gset entity_id) :
  i ∉ X → size ({[i]} ∪ X) = S (size X).
Proof.
  intros Hi. rewrite size_union by set_solver. by rewrite size_singleton.
Qed.

Lemma admitBatch_nil batch rendered added :
  admitBatch batch [] rendered added = (rendered, added).
Proof. reflexivity. Qed.

Lemma admitBatch_cons batch m rest rendered added :
  admitBatch batch (m :: rest) rendered added =
  if bool_decide (MAX_RENDERED ≤ size rendered) then (rendered, added)
  else if bool_decide (batch ≤ added) then (rendered, added)
  else if bool_decide (id m ∈ rendered) then admitBatch batch rest rendered added
  else admitBatch batch rest ({[id m]} ∪ rendered) (S added).
Proof. reflexivity. Qed.

Lemma validIdsOf_cons m rest : validIdsOf (m :: rest) = {[id m]} ∪ validIdsOf rest.
Proof. unfold validIdsOf. by rewrite fmap_cons, list_to_set_cons. Qed.

(** What one run of the admission loop does to the set and the counter. *)
Lemma admitBatch_spec batch ms rendered added rendered' added' :
  admitBatch batch ms rendered added = (rendered', added') →
  rendered ⊆ rendered'
  ∧ rendered' ⊆ rendered ∪ validIdsOf ms
  ∧ added ≤ added'
  ∧ size rendered' = size rendered + (added' - added)
  ∧ (added ≤ batch → added' ≤ batch)
  ∧ (size rendered ≤ MAX_RENDERED → size rendered' ≤ MAX_RENDERED).
Proof.
  revert rendered added.
  induction ms as [|m rest IH]; intros rendered added Heq.
  { rewrite admitBatch_nil in Heq. inversion Heq; subst.
    split_and!; [set_solver | set_solver | lia..]. }
  rewrite admitBatch_cons in Heq.
  destruct (bool_decide (MAX_RENDERED ≤ size rendered)) eqn:Hmax.
  { inversion Heq; subst. split_and!; [set_solver | set_solver | lia..]. }
  destruct (bool_decide (batch ≤ added)) eqn:Hbatch.
  { inversion Heq; subst. split_and!; [set_solver | set_solver | lia..]. }
  apply bool_decide_eq_false in Hmax, Hbatch.
  rewrite validIdsOf_cons.
  destruct (bool_decide (id m ∈ rendered)) eqn:Hin.
  - apply IH in Heq as (Ha & Hb & Hc & Hd & He & Hf).
    split_and!; [set_solver | set_solver | lia..].
  - apply bool_decide_eq_false in Hin.
    apply IH in Heq as (Ha & Hb & Hc & Hd & He & Hf).
    rewrite size_add_fresh in Hd, Hf by done.
    split_and!; [set_solver | set_solver | lia..].
Qed.

Lemma prune_subseteq validIds rendered : prune validIds rendered ⊆ rendered.
Proof. unfold prune. intros i. rewrite elem_of_filter. tauto. Qed.

Lemma elem_of_prune validIds rendered i :
  i ∈ prune validIds rendered ↔ i ∈ validIds ∧ i ∈ rendered.
Proof. unfold prune. by rewrite elem_of_filter. Qed.

Lemma prune_size validIds rendered : size (prune validIds rendered) ≤ size rendered.
Proof. apply subseteq_size, prune_subseteq. Qed.

Lemma prune_id validIds rendered : rendered ⊆ validIds → prune validIds rendered = rendered.
Proof.
  intros Hsub. apply set_eq. intros i. rewrite elem_of_prune. set_solver.
Qed.

Lemma elem_of_validIdsOf ms i : i ∈ validIdsOf ms ↔ ∃ u, u ∈ ms ∧ id u = i.
Proof.
  unfold validIdsOf. rewrite elem_of_list_to_set, list_elem_of_fmap. naive_solver.
Qed.

(** The set a reconciliation pass leaves, in terms of the loop. *)
Lemma reconcile_rendered ms ilc rs :
  renderedIds (reconcile ms ilc rs) =
  (admitBatch (batchSizeFor ilc) ms (prune (validIdsOf ms) (renderedIds rs)) 0).1.
Proof. unfold reconcile. by destruct (admitBatch _ _ _ _). Qed.

Lemma growthTick_rendered ms ilc rs :
  renderedIds (growthTick ms ilc rs) =
  (admitBatch (batchSizeFor ilc) ms (renderedIds rs) 0).1.
Proof. unfold growthTick. by destruct (admitBatch _ _ _ _). Qed.

Lemma reconcile_subseteq ms ilc rs :
  renderedIds (reconcile ms ilc rs) ⊆ validIdsOf ms.
Proof.
  rewrite reconcile_rendered.
  destruct (admitBatch _ _ _ _) as [r a] eqn:Heq. simpl.
  apply admitBatch_spec in Heq as (_ & H2 & _).
  intros i Hi. apply H2 in Hi. apply elem_of_union in Hi as [Hi|Hi]; [|done].
  by apply elem_of_prune in Hi as [? _].
Qed.

Lemma reconcile_size ms ilc rs :
  size (renderedIds rs) ≤ MAX_RENDERED →
  size (renderedIds (reconcile ms ilc rs)) ≤ MAX_RENDERED.
Proof.
  intros Hsz. rewrite reconcile_rendered.
  destruct (admitBatch _ _ _ _) as [r a] eqn:Heq. simpl.
  apply admitBatch_spec in Heq as (_ & _ & _ & _ & _ & H6). apply H6.
  pose proof (prune_size (validIdsOf ms) (renderedIds rs)). lia.
Qed.

Lemma reconcile_keeps ms ilc rs i :
  i ∈ renderedIds rs → i ∈ validIdsOf ms → i ∈ renderedIds (reconcile ms ilc rs).
Proof.
  intros Hi Hv. rewrite reconcile_rendered.
  destruct (admitBatch _ _ _ _) as [r a] eqn:Heq. simpl.
  apply admitBatch_spec in Heq as (H1 & _). apply H1. by apply elem_of_prune.
Qed.

Lemma reconcile_new ms ilc rs :
  size (renderedIds (reconcile ms ilc rs) ∖ renderedIds rs) ≤ batchSizeFor ilc.
Proof.
  rewrite reconcile_rendered.
  destruct (admitBatch _ _ _ _) as [r a] eqn:Heq. simpl.
  apply admitBatch_spec in Heq as (H1 & _ & _ & H4 & H5 & _).
  set (p := prune (validIdsOf ms) (renderedIds rs)) in *.
  assert (size (r ∖ p) = a) as Hnew.
  { pose proof (size_union_alt p r) as Hu.
    replace (p ∪ r) with r in Hu by set_solver. lia. }
  etrans; [apply subseteq_size|].
  { instantiate (1 := r ∖ p). pose proof (prune_subseteq (validIdsOf ms) (renderedIds rs)).
    set_solver. }
  rewrite Hnew. apply H5. lia.
Qed.

Lemma growthTick_subseteq ms ilc rs :
  renderedIds rs ⊆ validIdsOf ms → renderedIds (growthTick ms ilc rs) ⊆ validIdsOf ms.
Proof.
  intros Hsub. rewrite growthTick_rendered.
  destruct (admitBatch _ _ _ _) as [r a] eqn:Heq. simpl.
  apply admitBatch_spec in Heq as (_ & H2 & _). set_solver.
Qed.

Lemma growthTick_size ms ilc rs :
  size (renderedIds rs) ≤ MAX_RENDERED →
  size (renderedIds (growthTick ms ilc rs)) ≤ MAX_RENDERED.
Proof.
  intros Hsz. rewrite growthTick_rendered.
  destruct (admitBatch _ _ _ _) as [r a] eqn:Heq. simpl.
  by apply admitBatch_spec in Heq as (_ & _ & _ & _ & _ & H6); apply H6.
Qed.

Lemma growthTick_keeps ms ilc rs : renderedIds rs ⊆ renderedIds (growthTick ms ilc rs).
Proof.
  rewrite growthTick_rendered.
  destruct (admitBatch _ _ _ _) as [r a] eqn:Heq. simpl.
  by apply admitBatch_spec in Heq as (H1 & _).
Qed.

Lemma growthTick_new ms ilc rs :
  size (renderedIds (growthTick ms ilc rs) ∖ renderedIds rs) ≤ batchSizeFor ilc.
Proof.
  rewrite growthTick_rendered.
  destruct (admitBatch _ _ _ _) as [r a] eqn:Heq. simpl.
  apply admitBatch_spec in Heq as (H1 & _ & _ & H4 & H5 & _).
  pose proof (size_union_alt (renderedIds rs) r) as Hu.
  replace (renderedIds rs ∪ r) with r in Hu by set_solver.
  assert (a ≤ batchSizeFor ilc) by (apply H5; lia). lia.
Qed.

End RenderSetFacts.

(** ** The screen as a transition system: what every reachable state satisfies *)

Module ScreenFacts.
Import Entities MapScreen RenderSetFacts.

Lemma bind_Normal {A B} (c : completion A) (f : A → completion B) b :
  (c ≫= f) = Normal b → ∃ a, c = Normal a ∧ f a = Normal b.
Proof. destruct c as [a|e]; simpl; [eauto | discriminate]. Qed.

Ltac inv_bind H :=
  let a := fresh "a" in
  let Ha := fresh "Ha" in
  apply bind_Normal in H as (a & Ha & H).

Lemma Normal_inj {A} (a b : A) : Normal a = Normal b → a = b.
Proof. by inversion 1. Qed.

Lemma elem_of_markersToRender visible bounds matchingIds u :
  u ∈ markersToRender visible bounds matchingIds ↔
  u ∈ visible
  ∧ (∀ b, bounds = Some b → inViewport b u = true)
  ∧ (∀ ids, matchingIds = Some ids → id u ∈ ids).
Proof.
  unfold markersToRender.
  destruct bounds as [b|], matchingIds as [ids|];
    rewrite ?list_elem_of_filter; split.
  - intros (Hid & Hv & Hu). split_and!; [done| |].
    + intros ? [= <-]. by apply Is_true_true.
    + by intros ? [= <-].
  - intros (Hu & Hb & Hi). split_and!; [by apply Hi | apply Is_true_true; by apply Hb | done].
  - intros (Hv & Hu). split_and!; [done| |done].
    intros ? [= <-]. by apply Is_true_true.
  - intros (Hu & Hb & _). split; [apply Is_true_true; by apply Hb | done].
  - intros (Hid & Hu). split_and!; [done|done|]. by intros ? [= <-].
  - intros (Hu & _ & Hi). split; [by apply Hi | done].
  - intros Hu. by split_and!.
  - by intros (Hu & _).
Qed.

Lemma commit_inp b s s' : commit b s = Normal s' → inp s' = inp s.
Proof. unfold commit. intros H. inv_bind H. by inversion H. Qed.

Lemma commit_prevLen b s s' :
  commit b s = Normal s' → prevUtilitiesLen s' = prevUtilitiesLen s.
Proof. unfold commit. intros H. inv_bind H. by inversion H. Qed.

Lemma commit_rset b s s' ms :
  commit b s = Normal s' → eligible (inp s) = Normal ms →
  rset s' = if b then reconcile ms (initialLoadComplete (gt s)) (rset s) else rset s.
Proof.
  unfold commit. intros H Hms. rewrite Hms in H. simpl in H. by inversion H.
Qed.

Lemma commit_eligible b s s' : commit b s = Normal s' → ∃ ms, eligible (inp s) = Normal ms.
Proof. unfold commit. intros H. inv_bind H. eauto. Qed.

Lemma commit_ok b s s' :
  commit b s = Normal s' →
  size (renderedIds (rset s)) ≤ MAX_RENDERED →
  (b = false → ∀ ms, eligible (inp s) = Normal ms → renderedIds (rset s) ⊆ validIdsOf ms) →
  render_set_ok s'.
Proof.
  intros Hc Hsz Hsub.
  destruct (commit_eligible _ _ _ Hc) as [ms Hms].
  exists ms. rewrite (commit_inp _ _ _ Hc), (commit_rset _ _ _ _ Hc Hms).
  split; [done|]. destruct b.
  - split; [apply reconcile_subseteq | by apply reconcile_size].
  - split; [by apply Hsub | done].
Qed.

Lemma mount_ok us loading loc s : mount us loading loc = Normal s → render_set_ok s.
Proof.
  unfold mount. intros Hc. eapply commit_ok; [done| |done].
  unfold initial. cbn [rset renderedIds]. rewrite size_empty. lia.
Qed.

Lemma step_ok e s s' : render_set_ok s → step e s = Normal s' → render_set_ok s'.
Proof.
  intros (ms & Hms & Hsub & Hsz) Hstep.
  assert (render_set_ok s) as Hs by (exists ms; done).
  destruct e; cbn [step] in Hstep.
  - (* StoreSetUtilities *)
    inv_bind Hstep.
    assert (render_set_ok a) as (ms1 & Hms1 & Hsub1 & Hsz1)
        by (eapply commit_ok; [done|done|done]).
    case_bool_decide; [apply Normal_inj in Hstep; subst; by exists ms1|].
    eapply commit_ok; [done|done|]. simpl.
    intros Hb ms2 Hms2. apply negb_false_iff, bool_decide_eq_true in Hb.
    assert (set_mountedCount 0 (inp a) = inp a) as Heq
        by (destruct (inp a); simpl in *; by subst).
    rewrite Heq in Hms2. assert (ms2 = ms1) as -> by congruence. done.
  - (* StoreSetLoading *)
    eapply commit_ok; [done|done|]. simpl. intros _ ms' Hms'.
    assert (ms' = ms) as -> by congruence. done.
  - (* SubmitSearch *)
    unfold handleSearch in Hstep. inv_bind Hstep.
    destruct (String.eqb _ _); [apply Normal_inj in Hstep; by subst|].
    eapply commit_ok; [done|done|done].
  - (* ClearSearch *)
    destruct (String.eqb _ _); [apply Normal_inj in Hstep; by subst|].
    eapply commit_ok; [done|done|done].
  - (* DeferredFilter *)
    destruct (String.eqb _ _); [apply Normal_inj in Hstep; by subst|].
    eapply commit_ok; [done|done|done].
  - (* SetMapRegion *)
    eapply commit_ok; [done|done|done].
  - (* MountTimer *)
    case_bool_decide; [|apply Normal_inj in Hstep; by subst].
    eapply commit_ok; [done|done|done].
  - (* GrowthTimer *)
    rewrite Hms in Hstep. simpl in Hstep.
    destruct (growthPending ms (rset s)); [|apply Normal_inj in Hstep; by subst].
    eapply commit_ok; [done| |]; simpl.
    + by apply growthTick_size.
    + intros _ ms' Hms'. assert (ms' = ms) as -> by congruence.
      by apply growthTick_subseteq.
  - (* RenderCompleteTimer *)
    destruct (gateTimer (gt s)); [|apply Normal_inj in Hstep; by subst].
    eapply commit_ok; [done|done|]. simpl. intros _ ms' Hms'.
    assert (ms' = ms) as -> by congruence. done.
Qed.

Lemma run_ok es s s' : render_set_ok s → run es s = Normal s' → render_set_ok s'.
Proof.
  revert s. induction es as [|e es IH]; intros s Hs Hrun; simpl in Hrun.
  - apply Normal_inj in Hrun. by subst.
  - inv_bind Hrun. eapply IH; [|done]. by eapply step_ok.
Qed.

Lemma reachable_ok s : reachable s → render_set_ok s.
Proof.
  intros (us & loading & loc & es & Hrun). inv_bind Hrun.
  eapply run_ok; [|done]. by eapply mount_ok.
Qed.

Lemma run_snoc es e s : run (es ++ [e]) s = (s' ← run es s; step e s').
Proof.
  revert s. induction es as [|e' es IH]; intros s; simpl.
  - by destruct (step e s).
  - destruct (step e' s) as [s1|err]; simpl; [apply IH | done].
Qed.

Lemma reachable_step e s s' : reachable s → step e s = Normal s' → reachable s'.
Proof.
  intros (us & loading & loc & es & Hrun) Hstep.
  exists us, loading, loc, (es ++ [e]).
  destruct (mount us loading loc) as [s0|err]; simpl in *; [|done].
  rewrite run_snoc, Hrun. done.
Qed.

(** Entities of a collection with pairwise distinct identifiers are
    determined by their identifier. *)
Lemma unique_id (us : list Utility) u v :
  NoDup (id <$> us) → u ∈ us → v ∈ us → id u = id v → u = v.
Proof.
  induction us as [|w us IH]; intros Hnd Hu Hv Heq; [by apply elem_of_nil in Hu|].
  rewrite fmap_cons in Hnd. apply NoDup_cons in Hnd as [Hw Hnd].
  apply elem_of_cons in Hu as [->|Hu], Hv as [->|Hv]; [done| | |by apply IH].
  - exfalso. apply Hw. rewrite Heq. apply list_elem_of_fmap. eauto.
  - exfalso. apply Hw. rewrite <- Heq. apply list_elem_of_fmap. eauto.
Qed.

End ScreenFacts.

(** ** Claims about the render-set reconciler (MapScreen.tsx) *)

Module ReconcilerClaims.
Import Entities MapScreen RenderSetFacts ScreenFacts.

Lemma filteredUtilities_sublist us f q fs :
  filteredUtilities us f q = Normal fs → ∀ u, u ∈ fs → u ∈ us.
Proof.
  unfold filteredUtilities. intros H u Hu. inv_bind H.
  apply Normal_inj in H. subst fs.
  assert (u ∈ a) as Hua.
  { destruct (negb _); [|done].
    destruct (FILTER_CATEGORY_MAP !! f); [|done].
    by apply list_elem_of_filter in Hu as [_ ?]. }
  destruct (JS.truthy _).
  - inv_bind Ha. apply Normal_inj in Ha. subst a.
    by apply list_elem_of_filter in Hua as [_ ?].
  - apply Normal_inj in Ha. by subst.
Qed.

Lemma filteredUtilities_all_empty us : filteredUtilities us "all" "" = Normal us.
Proof. reflexivity. Qed.

(** What a successful render knows about [markersToRender]. *)
Lemma eligible_spec i ms :
  eligible i = Normal ms →
  ∃ fs, filteredUtilities (utilities i) (deferredFilter i) (committedSearch i) = Normal fs
        ∧ ∀ u, u ∈ ms →
               u ∈ visibleUtilities (utilities i) (mountedCount i)
               ∧ (∀ b, viewportBounds (mapRegion i) = Some b → inViewport b u = true)
               ∧ id u ∈ (list_to_set (id <$> fs) : gset entity_id).
Proof.
  unfold eligible, matchingFilterIds. intros H.
  destruct (String.eqb (deferredFilter i) "all" && negb (JS.truthy (committedSearch i)))
    eqn:Hnull.
  - apply andb_true_iff in Hnull as [Hall Hq].
    apply String.eqb_eq in Hall.
    assert (committedSearch i = "") as Hq' by (by destruct (committedSearch i)).
    rewrite Hall, Hq'. exists (utilities i). split; [apply filteredUtilities_all_empty|].
    cbn [mret mbind completion_ret completion_bind] in H.
    apply Normal_inj in H. subst ms.
    intros u Hu. apply elem_of_markersToRender in Hu as (Hv & Hb & _).
    split_and!; [done|done|].
    apply elem_of_list_to_set, list_elem_of_fmap. exists u. split; [done|].
    unfold visibleUtilities in Hv. by apply subseteq_take in Hv.
  - inv_bind H. inv_bind Ha. apply Normal_inj in Ha. subst a.
    exists a0. split; [done|].
    cbn [mret mbind completion_ret completion_bind] in H.
    apply Normal_inj in H. subst ms.
    intros u Hu. apply elem_of_markersToRender in Hu as (Hv & Hb & Hi).
    split_and!; [done|done|]. by apply Hi.
Qed.

Lemma visibleUtilities_sublist us n u : u ∈ visibleUtilities us n → u ∈ us.
Proof.
  unfold visibleUtilities. apply subseteq_take.
Qed.

(** C1 -- Subset invariant.  In every state a screen instance can reach
    (so in particular after every reconciliation pass) the render proceeds
    with some filtered collection [fs], and the render set
    (1) holds only identifiers of entities matching the committed search
        query and category filter,
    (2) holds only identifiers of entities inside the buffered viewport
        bounds, whenever the map has reported a region,
    (3) for a collection with unique identifiers, names for each of its
        members one entity that both matches and lies inside the bounds,
    (4) has at most [MAX_RENDERED] members,
    and (5) the markers handed to the map ([finalMarkers]) are among the
    eligible markers and carry identifiers of the render set. *)
Theorem render_set_subset_invariant (s : screen) :
  reachable s →
  ∃ fs ms,
    filteredUtilities (utilities (inp s)) (deferredFilter (inp s))
                      (committedSearch (inp s)) = Normal fs
    ∧ eligible (inp s) = Normal ms
    ∧ renderedIds (rset s) ⊆ list_to_set (id <$> fs)
    ∧ (∀ b, viewportBounds (mapRegion (inp s)) = Some b →
            renderedIds (rset s)
              ⊆ list_to_set (id <$> filter (λ u, inViewport b u) (utilities (inp s))))
    ∧ (NoDup (id <$> utilities (inp s)) →
       ∀ j, j ∈ renderedIds (rset s) →
            ∃ u, u ∈ utilities (inp s) ∧ id u = j ∧ u ∈ fs
                 ∧ ∀ b, viewportBounds (mapRegion (inp s)) = Some b → inViewport b u = true)
    ∧ size (renderedIds (rset s)) ≤ MAX_RENDERED
    ∧ (∀ u, u ∈ finalMarkers ms (rset s) → u ∈ ms ∧ id u ∈ renderedIds (rset s)).
Proof.
  intros Hreach. destruct (reachable_ok s Hreach) as (ms & Hms & Hsub & Hsz).
  destruct (eligible_spec _ _ Hms) as (fs & Hfs & Hspec).
  exists fs, ms. split_and!; [done|done| | | |done|].
  - intros j Hj. apply Hsub, elem_of_validIdsOf in Hj as (u & Hu & <-).
    by apply Hspec.
  - intros b Hb j Hj. apply Hsub, elem_of_validIdsOf in Hj as (u & Hu & <-).
    destruct (Hspec u Hu) as (Hv & Hin & _).
    apply elem_of_list_to_set, list_elem_of_fmap. exists u. split; [done|].
    apply list_elem_of_filter. split; [apply Is_true_true; by apply Hin|].
    by eapply visibleUtilities_sublist.
  - intros Hnd j Hj. apply Hsub, elem_of_validIdsOf in Hj as (u & Hu & <-).
    destruct (Hspec u Hu) as (Hv & Hin & Hid).
    apply visibleUtilities_sublist in Hv.
    exists u. split_and!; [done|done| |done].
    apply elem_of_list_to_set, list_elem_of_fmap in Hid as (v & Heq & Hvfs).
    assert (u = v) as ->; [|done].
    eapply unique_id; [done|done| |done].
    by eapply filteredUtilities_sublist.
  - intros u Hu. unfold finalMarkers in Hu.
    by apply list_elem_of_filter in Hu as [? ?].
Qed.

Lemma eligible_region_change i r ms1 ms2 u :
  eligible i = Normal ms1 →
  eligible (set_mapRegion (Some r) i) = Normal ms2 →
  u ∈ ms1 →
  (∀ b, viewportBounds (Some r) = Some b → inViewport b u = true) →
  u ∈ ms2.
Proof.
  unfold eligible. cbn [set_mapRegion utilities mountedCount mapRegion
                        deferredFilter committedSearch].
  intros H1 H2 Hu Hin.
  destruct (matchingFilterIds _ _ _) as [ids|];
    cbn [mret mbind completion_ret completion_bind] in *; [|done].
  apply Normal_inj in H1, H2. subst.
  apply elem_of_markersToRender in Hu as (Hv & _ & Hi).
  apply elem_of_markersToRender. split_and!; [done| |done].
  intros b Hb. by apply Hin.
Qed.

(** C2 -- Churn avoidance.  When the viewport moves to [B2]:
    (1) an entity that was eligible and rendered under the previous
        viewport and lies within the bounds of [B2] (the filter criteria
        being unchanged, it still matches them) is still rendered after
        the pass;
    (2) an identifier the pass removed is absent from the new eligible
        set;
    and (3) in any pass at all, an identifier that is rendered and valid
    for the new eligible set stays rendered. *)
Theorem churn_avoidance (s s' : screen) (B2 : Region) :
  step (SetMapRegion B2) s = Normal s' →
  (∀ ms1 u, eligible (inp s) = Normal ms1 → u ∈ ms1 →
            id u ∈ renderedIds (rset s) →
            (∀ b, viewportBounds (Some B2) = Some b → inViewport b u = true) →
            id u ∈ renderedIds (rset s'))
  ∧ (∀ ms2 j, eligible (inp s') = Normal ms2 →
              j ∈ renderedIds (rset s) → j ∉ renderedIds (rset s') →
              j ∉ validIdsOf ms2)
  ∧ (∀ ms ilc rs j, j ∈ renderedIds rs → j ∈ validIdsOf ms →
                    j ∈ renderedIds (reconcile ms ilc rs)).
Proof.
  cbn [step]. intros Hc.
  destruct (commit_eligible _ _ _ Hc) as [ms2 Hms2].
  pose proof (commit_rset _ _ _ _ Hc Hms2) as Hrs.
  pose proof (commit_inp _ _ _ Hc) as Hinp.
  cbn [with_inputs inp rset gt] in *.
  split_and!.
  - intros ms1 u Hms1 Hu Hr Hin. rewrite Hrs.
    apply reconcile_keeps; [done|]. apply elem_of_validIdsOf. exists u. split; [|done].
    by eapply eligible_region_change.
  - intros ms2' j Hms2' Hj Hnj Hv. rewrite Hinp in Hms2'.
    assert (ms2' = ms2) as -> by congruence.
    apply Hnj. rewrite Hrs. by apply reconcile_keeps.
  - intros. by apply reconcile_keeps.
Qed.

Lemma eligible_unmounted i ms : mountedCount i = 0 → eligible i = Normal ms → ms = [].
Proof.
  unfold eligible. intros Hz H. inv_bind H.
  cbn [mret mbind completion_ret completion_bind] in H.
  apply Normal_inj in H. subst ms.
  rewrite Hz. unfold visibleUtilities, markersToRender. simpl.
  by destruct (viewportBounds _), a.
Qed.

Lemma size_difference_self (X : gset entity_id) n : size (X ∖ X) ≤ n.
Proof. replace (X ∖ X) with (∅ : gset entity_id) by set_solver. rewrite size_empty. lia. Qed.

(** One transition of the screen admits at most one batch. *)
Lemma step_new e s s' :
  step e s = Normal s' →
  size (renderedIds (rset s') ∖ renderedIds (rset s))
    ≤ batchSizeFor (initialLoadComplete (gt s)).
Proof.
  assert (∀ b t t', commit b t = Normal t' →
            size (renderedIds (rset t') ∖ renderedIds (rset t))
              ≤ batchSizeFor (initialLoadComplete (gt t))) as Hcommit.
  { intros b t t' Hc. destruct (commit_eligible _ _ _ Hc) as [ms Hms].
    rewrite (commit_rset _ _ _ _ Hc Hms). destruct b.
    - apply reconcile_new.
    - apply size_difference_self. }
  intros Hstep. destruct e; cbn [step] in Hstep.
  - inv_bind Hstep. pose proof (Hcommit _ _ _ Ha) as Hfirst.
    cbn [with_inputs rset gt] in Hfirst.
    case_bool_decide; [apply Normal_inj in Hstep; by subst|].
    destruct (commit_eligible _ _ _ Hstep) as [ms2 Hms2].
    rewrite (commit_rset _ _ _ _ Hstep Hms2). cbn [rset gt inp] in *.
    case_bool_decide as Hmc; cbn [negb]; [done|].
    apply eligible_unmounted in Hms2 as ->; [|done].
    pose proof (reconcile_subseteq [] (initialLoadComplete (gt a)) (rset a)) as Hempty.
    change (validIdsOf []) with (∅ : gset entity_id) in Hempty.
    replace (renderedIds (reconcile [] (initialLoadComplete (gt a)) (rset a))
               ∖ renderedIds (rset s)) with (∅ : gset entity_id) by set_solver.
    rewrite size_empty. lia.
  - by apply Hcommit in Hstep.
  - unfold handleSearch in Hstep. inv_bind Hstep.
    destruct (String.eqb _ _).
    + apply Normal_inj in Hstep. subst. apply size_difference_self.
    + by apply Hcommit in Hstep.
  - destruct (String.eqb _ _).
    + apply Normal_inj in Hstep. subst. apply size_difference_self.
    + by apply Hcommit in Hstep.
  - destruct (String.eqb _ _).
    + apply Normal_inj in Hstep. subst. apply size_difference_self.
    + by apply Hcommit in Hstep.
  - by apply Hcommit in Hstep.
  - case_bool_decide.
    + by apply Hcommit in Hstep.
    + apply Normal_inj in Hstep. subst. apply size_difference_self.
  - inv_bind Hstep. destruct (growthPending _ _).
    + destruct (commit_eligible _ _ _ Hstep) as [ms Hms].
      rewrite (commit_rset _ _ _ _ Hstep Hms). cbn [rset].
      apply growthTick_new.
    + apply Normal_inj in Hstep. subst. apply size_difference_self.
  - destruct (gateTimer _).
    + by apply Hcommit in Hstep.
    + apply Normal_inj in Hstep. subst. apply size_difference_self.
Qed.

(** C3 -- Batch bound.  A reconciliation pass, a growth-timer tick, and
    more generally any single transition of the screen, adds at most the
    batch size in effect to the render set: [INITIAL_RENDER_BATCH] = 4000
    while the initial load is not marked complete, [RENDER_BATCH] = 300
    afterwards; and the first is strictly larger than the second. *)
Theorem batch_bound :
  (∀ ms ilc rs,
      size (renderedIds (reconcile ms ilc rs) ∖ renderedIds rs) ≤ batchSizeFor ilc)
  ∧ (∀ ms ilc rs,
      size (renderedIds (growthTick ms ilc rs) ∖ renderedIds rs) ≤ batchSizeFor ilc)
  ∧ (∀ e s s',
      MapScreen.step e s = Normal s' →
      size (renderedIds (rset s') ∖ renderedIds (rset s))
        ≤ batchSizeFor (initialLoadComplete (gt s)))
  ∧ batchSizeFor false = INITIAL_RENDER_BATCH
  ∧ batchSizeFor true = RENDER_BATCH
  ∧ INITIAL_RENDER_BATCH = 4000
  ∧ RENDER_BATCH = 300
  ∧ RENDER_BATCH < INITIAL_RENDER_BATCH.
Proof.
  split_and!; [apply reconcile_new | apply growthTick_new | apply step_new
              | done | done | done | done |].
  unfold RENDER_BATCH, INITIAL_RENDER_BATCH. lia.
Qed.

End ReconcilerClaims.

(** ** The launch gate and the search commit (MapScreen.tsx) *)

Module GateClaims.
Import Entities MapScreen RenderSetFacts ScreenFacts.

Lemma gateEffect_initialLoadComplete i ms rs g :
  initialLoadComplete (gateEffect i ms rs g) = initialLoadComplete g.
Proof. unfold gateEffect. by destruct (_ || _). Qed.

Lemma markInitialLoad_mono l r g :
  initialLoadComplete g = true → initialLoadComplete (markInitialLoad l r g) = true.
Proof. unfold markInitialLoad. by destruct (_ && _). Qed.

Lemma commit_keeps_open b s s' :
  commit b s = Normal s' →
  initialLoadComplete (gt s) = true → initialLoadComplete (gt s') = true.
Proof.
  unfold commit. intros H Hopen. inv_bind H. apply Normal_inj in H. subst s'.
  cbn [gt]. apply markInitialLoad_mono. by rewrite gateEffect_initialLoadComplete.
Qed.

Lemma step_keeps_open e s s' :
  step e s = Normal s' →
  initialLoadComplete (gt s) = true → initialLoadComplete (gt s') = true.
Proof.
  intros Hstep Hopen. destruct e; cbn [step] in Hstep.
  - inv_bind Hstep. pose proof (commit_keeps_open _ _ _ Ha Hopen) as Ha'.
    case_bool_decide; [apply Normal_inj in Hstep; by subst|].
    by eapply commit_keeps_open.
  - by eapply commit_keeps_open.
  - unfold handleSearch in Hstep. inv_bind Hstep.
    destruct (String.eqb _ _); [apply Normal_inj in Hstep; by subst|].
    by eapply commit_keeps_open.
  - destruct (String.eqb _ _); [apply Normal_inj in Hstep; by subst|].
    by eapply commit_keeps_open.
  - destruct (String.eqb _ _); [apply Normal_inj in Hstep; by subst|].
    by eapply commit_keeps_open.
  - by eapply commit_keeps_open.
  - case_bool_decide; [|apply Normal_inj in Hstep; by subst].
    by eapply commit_keeps_open.
  - inv_bind Hstep.
    destruct (growthPending _ _); [|apply Normal_inj in Hstep; by subst].
    by eapply commit_keeps_open.
  - destruct (gateTimer _); [|apply Normal_inj in Hstep; by subst].
    by eapply commit_keeps_open.
Qed.

(** C6 -- Gate single-shot.  Once [initialLoadCompleteRef.current] is
    true, whatever events follow (store updates, a new fetch raising
    [isLoading] again, searches, filters, viewport moves, timers), in the
    state they lead to the ref is still true and [showLoadingOverlay] is
    false. *)
Theorem gate_single_shot (es : list event) (s s' : screen) :
  initialLoadComplete (gt s) = true →
  run es s = Normal s' →
  initialLoadComplete (gt s') = true ∧ showLoadingOverlay (gt s') = false.
Proof.
  revert s. induction es as [|e es IH]; intros s Hopen Hrun; cbn [run] in Hrun.
  - apply Normal_inj in Hrun. subst s'. split; [done|].
    unfold showLoadingOverlay. by rewrite Hopen.
  - inv_bind Hrun. eapply IH; [|done]. by eapply step_keeps_open.
Qed.

(** The gate opens: a render that sees the data loaded and
    [renderComplete] marks the initial load, and that render already
    hides the overlay. *)
Lemma gate_opens b s s' :
  commit b s = Normal s' →
  isLoading (gt s) = false → renderComplete (gt s) = true →
  initialLoadComplete (gt s') = true
  ∧ (isLoading (gt s) || negb (renderComplete (gt s))) = false.
Proof.
  unfold commit. intros H Hl Hr. inv_bind H. apply Normal_inj in H. subst s'.
  cbn [gt]. rewrite Hl, Hr. done.
Qed.

Lemma size_list_to_set_le (l : list entity_id) :
  size (list_to_set l : gset entity_id) ≤ length l.
Proof.
  induction l as [|x l IH]; [by rewrite list_to_set_nil, size_empty|].
  rewrite list_to_set_cons, length_cons.
  destruct (decide (x ∈ (list_to_set l : gset entity_id))) as [Hx|Hx].
  - replace ({[x]} ∪ list_to_set l) with (list_to_set l : gset entity_id) by set_solver.
    lia.
  - rewrite size_add_fresh by done. lia.
Qed.

Lemma admitBatch_noop batch ms rendered added :
  (MAX_RENDERED ≤ size rendered ∨ validIdsOf ms ⊆ rendered) →
  admitBatch batch ms rendered added = (rendered, added).
Proof.
  intros Hfull. induction ms as [|m rest IH]; [done|]. simpl.
  case_bool_decide; [done|]. case_bool_decide; [done|].
  destruct Hfull as [?|Hall]; [lia|].
  unfold validIdsOf in Hall. rewrite fmap_cons, list_to_set_cons in Hall.
  rewrite bool_decide_eq_true_2 by set_solver.
  apply IH. right. unfold validIdsOf. set_solver.
Qed.

(** A reconciliation pass over a settled render set changes nothing. *)
Lemma reconcile_settled ms ilc rs :
  renderedIds rs ⊆ validIdsOf ms →
  growthPending ms rs = false →
  reconcile ms ilc rs = rs.
Proof.
  intros Hsub Hpend. unfold growthPending in Hpend.
  apply negb_false_iff, bool_decide_eq_true in Hpend. unfold growthTarget in Hpend.
  unfold reconcile. rewrite (prune_id _ _ Hsub).
  rewrite admitBatch_noop.
  - rewrite !bool_decide_eq_true_2 by done. by destruct rs.
  - destruct (decide (MAX_RENDERED ≤ size (renderedIds rs))) as [|Hlt]; [by left|right].
    assert (length ms ≤ size (renderedIds rs)) as Hlen by lia.
    assert (renderedIds rs = validIdsOf ms) as ->; [|done].
    apply set_subseteq_size_eq; [done|].
    unfold validIdsOf. etrans; [apply size_list_to_set_le|].
    by rewrite length_fmap.
Qed.

Lemma step_growth_inp s s' : step GrowthTimer s = Normal s' → inp s' = inp s.
Proof.
  cbn [step]. intros H. inv_bind H.
  destruct (growthPending _ _); [|apply Normal_inj in H; by subst].
  by apply commit_inp in H.
Qed.

Lemma run_growth_inp n s s' : run (replicate n GrowthTimer) s = Normal s' → inp s' = inp s.
Proof.
  revert s. induction n as [|n IH]; intros s H; simpl in H.
  - apply Normal_inj in H. by subst.
  - inv_bind H. rewrite (IH _ H). by apply step_growth_inp.
Qed.

Lemma run_growth_keeps n s s' :
  run (replicate n GrowthTimer) s = Normal s' →
  renderedIds (rset s) ⊆ renderedIds (rset s').
Proof.
  revert s. induction n as [|n IH]; intros s Hrun; simpl in Hrun.
  - apply Normal_inj in Hrun. by subst.
  - inv_bind Hrun. etrans; [|by eapply IH].
    cbn [step] in Ha. inv_bind Ha.
    destruct (growthPending _ _); [|apply Normal_inj in Ha; by subst].
    pose proof (commit_rset _ _ _ _ Ha Ha0) as Hr. cbn [inp rset gt] in Hr.
    rewrite Hr. apply growthTick_keeps.
Qed.

(** C9 -- Idempotence of commit.  If committing the text [q] succeeds,
    committing the same text again, at once or after any number of growth
    ticks have let the render set settle, leaves the whole screen state,
    and so the render set, exactly as it was.  And were a reconciliation
    pass forced on a settled render set all the same, it would return the
    same render set. *)
Theorem commit_idempotent (q : string) (s s1 : screen) :
  step (SubmitSearch q) s = Normal s1 →
  step (SubmitSearch q) s1 = Normal s1
  ∧ (∀ n s2, run (replicate n GrowthTimer) s1 = Normal s2 →
             step (SubmitSearch q) s2 = Normal s2
             ∧ renderedIds (rset s1) ⊆ renderedIds (rset s2))
  ∧ (∀ s2 ms ilc, reachable s2 → eligible (inp s2) = Normal ms →
                  growthPending ms (rset s2) = false →
                  reconcile ms ilc (rset s2) = rset s2).
Proof.
  intros Hstep.
  assert (committedSearch (inp s1) = JS.trim q ∧ utilities (inp s1) = utilities (inp s)
          ∧ ∃ rs, (if JS.truthy (JS.trim q)
                   then searchResults (utilities (inp s)) (JS.trim q)
                   else mret []) = Normal rs) as (Hq & Hus & rs & Hrs).
  { cbn [step] in Hstep. unfold handleSearch in Hstep. inv_bind Hstep.
    destruct (String.eqb _ _) eqn:Heq.
    - apply Normal_inj in Hstep. subst s1. apply String.eqb_eq in Heq. eauto.
    - apply commit_inp in Hstep. rewrite Hstep. cbn [with_inputs inp]. eauto. }
  assert (∀ t, committedSearch (inp t) = JS.trim q → utilities (inp t) = utilities (inp s) →
               step (SubmitSearch q) t = Normal t) as Hnoop.
  { intros t Ht Hut. cbn [step]. unfold handleSearch. rewrite Hut, Hrs.
    cbn [mbind completion_bind]. by rewrite Ht, String.eqb_refl. }
  split_and!.
  - by apply Hnoop.
  - intros n s2 Hrun. pose proof (run_growth_inp _ _ _ Hrun) as Hinp. split.
    + apply Hnoop; by rewrite Hinp.
    + by eapply run_growth_keeps.
  - intros s2 ms ilc Hreach Hms Hpend.
    destruct (reachable_ok _ Hreach) as (ms' & Hms' & Hsub & _).
    assert (ms' = ms) as -> by congruence.
    by apply reconcile_settled.
Qed.

End GateClaims.

(** ** The search filter (both map screens) *)

Module FilterClaims.
Import Entities ScreenFacts.

Lemma append_nil_l s : String.append "" s = s.
Proof. reflexivity. Qed.

Lemma append_cons c a b : String.append (String c a) b = String c (String.append a b).
Proof. reflexivity. Qed.

Lemma isPrefix_spec p s : JS.isPrefix p s = true ↔ ∃ after, s = String.append p after.
Proof.
  revert s. induction p as [|c p IH]; intros s; simpl.
  - split; [intros _; by exists s | done].
  - destruct s as [|d s]; [split; [done | by intros [? ?]]|].
    rewrite andb_true_iff, Ascii.eqb_eq, IH. split.
    + intros [-> [after ->]]. by exists after.
    + intros [after Hs]. rewrite append_cons in Hs. inversion Hs. eauto.
Qed.

Lemma includes_spec s needle : JS.includes s needle = true ↔ JS.substring_of needle s.
Proof.
  unfold JS.substring_of. induction s as [|c s IH]; simpl.
  - rewrite orb_false_r, isPrefix_spec. split.
    + intros [after Hs]. by exists "", after.
    + intros (before & after & Hs). destruct before; [by exists after | done].
  - rewrite orb_true_iff, IH, isPrefix_spec. split.
    + intros [[after Hs] | (before & after & Hs)].
      * by exists "", after.
      * exists (String c before), after. by rewrite append_cons, Hs.
    + intros (before & after & Hs). destruct before as [|d before].
      * left. by exists after.
      * right. rewrite append_cons in Hs. inversion Hs. by exists before, after.
Qed.

Lemma object_literal_lookup {A} (props : list (string * A)) k v :
  JS.object_literal props !! k = Some v → (k, v) ∈ props.
Proof.
  unfold JS.object_literal.
  assert (∀ m : gmap string A,
             foldl (λ m kv, <[kv.1 := kv.2]> m) m props !! k = Some v →
               m !! k = Some v ∨ (k, v) ∈ props) as Hgen.
  { induction props as [|[k' v'] props IH]; intros m Hm; simpl in Hm; [by left|].
    apply IH in Hm as [Hm|Hm]; [|right; by apply list_elem_of_further].
    destruct (decide (k' = k)) as [->|Hne].
    - rewrite lookup_insert_eq in Hm. inversion Hm. subst. right. apply list_elem_of_here.
    - rewrite lookup_insert_ne in Hm by done. by left. }
  intros Hm. apply Hgen in Hm as [Hm|Hm]; [by rewrite lookup_empty in Hm | done].
Qed.

(** No synonym expansion contains the empty token. *)
Lemma synonyms_nonempty_tokens word matches :
  SEARCH_SYNONYMS !! word = Some matches → "" ∉ matches.
Proof.
  intros Hm. apply object_literal_lookup in Hm.
  assert (Forall (λ kv : string * list string, "" ∉ kv.2) SEARCH_SYNONYMS_props) as Hall.
  { apply (bool_decide_unpack
             (Forall (λ kv : string * list string, "" ∉ kv.2) SEARCH_SYNONYMS_props)).
    vm_compute. exact I. }
  rewrite Forall_forall in Hall. by apply Hall in Hm.
Qed.

Lemma get_not_inherited {A} (o : gmap string A) k :
  JS.inherited k = false →
  JS.get o k = match o !! k with Some a => JS.Own a | None => JS.Undefined end.
Proof. unfold JS.get. intros ->. done. Qed.

#[local] Opaque SEARCH_SYNONYMS.

(** The loop over the words computes the union of the expansions, unless a
    word names an inherited member. *)
Lemma collectSynonyms_spec words acc :
  Forall (λ w, JS.inherited w = false) words →
  ∃ syn, collectSynonyms words acc = Normal syn
         ∧ ∀ t, t ∈ syn ↔
                t ∈ acc ∨ ∃ word matches,
                            word ∈ words ∧ SEARCH_SYNONYMS !! word = Some matches
                            ∧ t ∈ matches.
Proof.
  intros Hwords. revert acc.
  induction Hwords as [|w words Hw _ IH]; intros acc; cbn [collectSynonyms].
  - exists acc. split; [reflexivity|]. intros t. split; [intros Ht; left; exact Ht|].
    intros [Ht|(? & ? & Hin & _)]; [exact Ht|]. by apply elem_of_nil in Hin.
  - rewrite (get_not_inherited _ _ Hw).
    destruct (SEARCH_SYNONYMS !! w) as [matches|] eqn:Hlook.
    + destruct (IH (acc ∪ list_to_set matches)) as (syn & -> & Hsyn).
      exists syn. split; [reflexivity|]. intros t. rewrite Hsyn. split.
      * intros [Ht|(w' & m' & Hin & Hl & Ht)].
        -- apply elem_of_union in Ht as [Ht|Ht]; [left; exact Ht|].
           right. exists w, matches. split_and!; [apply list_elem_of_here|exact Hlook|].
           apply elem_of_list_to_set in Ht. exact Ht.
        -- right. exists w', m'.
           split_and!; [apply list_elem_of_further; exact Hin|exact Hl|exact Ht].
      * intros [Ht|(w' & m' & Hin & Hl & Ht)].
        { left. apply elem_of_union. left. exact Ht. }
        apply elem_of_cons in Hin as [->|Hin].
        -- left. rewrite Hlook in Hl. inversion Hl. subst.
           apply elem_of_union. right. apply elem_of_list_to_set. exact Ht.
        -- right. exists w', m'. split_and!; assumption.
    + destruct (IH acc) as (syn & -> & Hsyn).
      exists syn. split; [reflexivity|]. intros t. rewrite Hsyn. split.
      * intros [Ht|(w' & m' & Hin & Hl & Ht)]; [left; exact Ht|].
        right. exists w', m'.
        split_and!; [apply list_elem_of_further; exact Hin|exact Hl|exact Ht].
      * intros [Ht|(w' & m' & Hin & Hl & Ht)]; [left; exact Ht|].
        apply elem_of_cons in Hin as [->|Hin]; [congruence|].
        right. exists w', m'. split_and!; assumption.
Qed.

#[local] Transparent SEARCH_SYNONYMS.

Lemma has_field_spec (set : gset string) f :
  has_field set f = true ↔ ∃ t, f = Some t ∧ t ∈ set.
Proof.
  unfold has_field. destruct f as [x|].
  - rewrite bool_decide_eq_true. split; [eauto | by intros (t & [= ->] & ?)].
  - split; [done | by intros (? & ? & _)].
Qed.

Lemma truthy_spec x : JS.truthy x = true ↔ x ≠ "".
Proof. destruct x; simpl; split; done. Qed.

Lemma truthy_and_has_spec (set : gset string) f :
  "" ∉ set →
  truthy_and_has set f = true ↔ ∃ t, f = Some t ∧ t ∈ set.
Proof.
  intros Hne. unfold truthy_and_has. destruct f as [x|].
  - rewrite andb_true_iff, bool_decide_eq_true, truthy_spec. split.
    + intros [_ ?]. eauto.
    + intros (t & [= ->] & Ht). split; [|done]. by intros ->.
  - split; [done | by intros (? & ? & _)].
Qed.

Lemma field_includes_spec query f :
  field_includes query f = true ↔
  ∃ x, f = Some x ∧ JS.substring_of query (JS.toLowerCase x).
Proof.
  unfold field_includes. destruct f as [x|].
  - rewrite includes_spec. split; [eauto | by intros (? & [= ->] & ?)].
  - split; [done | by intros (? & ? & _)].
Qed.

(** The search callback decides the specification's text match. *)
Lemma textMatch_spec (syn : gset string) q u :
  (∀ t, t ∈ syn ↔ in_synonym_expansion q t) →
  textMatch syn (JS.toLowerCase q) u = true ↔ matches_text q u.
Proof.
  intros Hsyn.
  assert ("" ∉ syn) as Hne.
  { rewrite Hsyn. intros (w & m & _ & Hl & Hin). by eapply synonyms_nonempty_tokens. }
  unfold textMatch, matches_text.
  rewrite orb_true_iff, andb_true_iff, orb_true_iff, negb_true_iff, bool_decide_eq_false.
  rewrite has_field_spec, (truthy_and_has_spec _ _ Hne).
  cbn [existsb]. rewrite orb_false_r, !orb_true_iff, !field_includes_spec.
  split.
  - intros [[_ Hcat] | Hfields].
    + left. destruct Hcat as [(t & Hc & Ht) | (t & Hc & Ht)];
        exists t; (split; [tauto | by apply Hsyn]).
    + right.
      destruct Hfields as [(x & Hf & Hx) | [(x & Hf & Hx) | [(x & Hf & Hx)
                          | [(x & Hf & Hx) | (x & Hf & Hx)]]]];
        exists x; (split; [|done]); rewrite <- Hf; set_solver.
  - intros [(t & Hc & Ht) | (x & Hin & Hx)].
    + left. apply Hsyn in Ht. split.
      * intros Hz. apply size_empty_inv in Hz. set_solver.
      * destruct Hc as [Hc|Hc]; [left|right]; eauto.
    + right. rewrite !elem_of_cons in Hin.
      destruct Hin as [Hin | [Hin | [Hin | [Hin | [Hin | Hin]]]]];
        [| | | | |by apply elem_of_nil in Hin]; eauto 10.
Qed.

Lemma chipMatch_spec (matchSet : gset string) u :
  chipMatch matchSet u = true ↔
  (∃ c, category u = Some c ∧ JS.toLowerCase c ∈ matchSet)
  ∨ (∃ t, type u = Some t ∧ t ≠ "" ∧ JS.toLowerCase t ∈ matchSet).
Proof.
  unfold chipMatch. rewrite orb_true_iff, has_field_spec.
  assert ((∃ t, JS.toLowerCase <$> category u = Some t ∧ t ∈ matchSet)
          ↔ ∃ c, category u = Some c ∧ JS.toLowerCase c ∈ matchSet) as ->.
  { split.
    - intros (t & Hc & Ht). destruct (category u) as [c|]; [|done].
      simpl in Hc. inversion Hc. subst. eauto.
    - intros (c & -> & Hc). simpl. eauto. }
  assert (match type u with
          | Some t => JS.truthy t && bool_decide (JS.toLowerCase t ∈ matchSet)
          | None => false
          end = true
          ↔ ∃ t, type u = Some t ∧ t ≠ "" ∧ JS.toLowerCase t ∈ matchSet) as ->; [|done].
  destruct (type u) as [t|].
  - rewrite andb_true_iff, bool_decide_eq_true, truthy_spec. split.
    + intros [? ?]. eauto.
    + by intros (? & [= ->] & ? & ?).
  - split; [done | by intros (? & ? & _)].
Qed.

Lemma truthy_toLowerCase q : JS.truthy (JS.toLowerCase q) = JS.truthy q.
Proof. by destruct q. Qed.

(** The counterexample to the claim as worded: with the "water" chip
    selected, the scenario's first entity matches the query "bathroom" on
    text and yet is not kept. *)
Lemma filter_keeps_exactly_text_matches_fails :
  ¬ (∃ fs, filteredUtilities scenario "water" "bathroom" = Normal fs
           ∧ ∀ u, u ∈ fs ↔ u ∈ scenario ∧ matches_text "bathroom" u).
Proof.
  intros (fs & Hfs & Hiff).
  assert (fs = []) as -> by (vm_compute in Hfs; by inversion Hfs).
  assert (scenario_entity_1 ∈ ([] : list Utility)) as Hin; [|by apply elem_of_nil in Hin].
  apply Hiff. split; [apply list_elem_of_here|].
  left. exists "restroom". split; [by left|].
  exists "bathroom", ["restroom"]. split_and!.
  - vm_compute. apply list_elem_of_here.
  - by vm_compute.
  - apply list_elem_of_here.
Qed.

(** C4, amended -- Filter/search semantics.  For a non-empty committed
    query none of whose words names a member inherited from
    [Object.prototype], [filteredUtilities] returns, in the order of the
    collection, exactly the entities that match the query on text (category
    or type in the union of the synonym expansions of the words of the
    lower-cased query, or one of name, category, type, address, description
    containing the lower-cased query case-insensitively) and pass the
    category chip.  With no category selected that is exactly the entities
    matching on text, and in the scenario the result for "bathroom" is
    entity 1 alone. *)
Theorem filter_semantics (us : list Utility) (deferredFilter committedSearch : string) :
  committedSearch ≠ "" →
  Forall (λ w, JS.inherited w = false) (JS.split_ws (JS.toLowerCase committedSearch)) →
  ∃ fs,
    filteredUtilities us deferredFilter committedSearch = Normal fs
    ∧ fs `sublist_of` us
    ∧ (∀ u, u ∈ fs ↔
            u ∈ us ∧ matches_text committedSearch u ∧ matches_chip deferredFilter u)
    ∧ (deferredFilter = "all" →
       ∀ u, u ∈ fs ↔ u ∈ us ∧ matches_text committedSearch u)
    ∧ filteredUtilities scenario "all" "bathroom" = Normal [scenario_entity_1].
Proof.
  intros Hq Hwords.
  destruct (collectSynonyms_spec _ ∅ Hwords) as (syn & Hcollect & Hsyn).
  assert (∀ t, t ∈ syn ↔ in_synonym_expansion committedSearch t) as Hsyn'.
  { intros t. rewrite Hsyn. unfold in_synonym_expansion. split; [|by right].
    intros [Ht|Ht]; [by apply elem_of_empty in Ht | done]. }
  pose proof (textMatch_spec syn committedSearch) as Htext.
  unfold filteredUtilities.
  rewrite truthy_toLowerCase, (proj2 (truthy_spec _) Hq), Hcollect.
  cbn [mbind mret completion_bind completion_ret].
  set (texted := filter (λ u, textMatch syn (JS.toLowerCase committedSearch) u) us).
  assert (∀ u, u ∈ texted ↔ u ∈ us ∧ matches_text committedSearch u) as Htexted.
  { intros u. unfold texted. rewrite list_elem_of_filter, <- (Htext _ Hsyn').
    rewrite Is_true_true. tauto. }
  assert (texted `sublist_of` us) as Hsub by apply sublist_filter.
  eexists. split; [done|].
  destruct (String.eqb deferredFilter "all") eqn:Hall; cbn [negb].
  - apply String.eqb_eq in Hall. split_and!; [done| |done|by vm_compute].
    intros u. rewrite Htexted. unfold matches_chip. tauto.
  - apply String.eqb_neq in Hall.
    destruct (FILTER_CATEGORY_MAP !! deferredFilter) as [matchSet|] eqn:Hmap.
    + split_and!; [|  |done|by vm_compute].
      * etrans; [apply sublist_filter|done].
      * intros u. rewrite list_elem_of_filter, Htexted, Is_true_true, chipMatch_spec.
        unfold matches_chip. rewrite Hmap. split.
        -- intros (Hchip & Hu & Ht). split_and!; [done|done|]. right. right. eauto.
        -- intros (Hu & Ht & [?|[?|(ms' & [= <-] & Hchip)]]); [done|done|]. tauto.
    + split_and!; [done| |done|by vm_compute].
      intros u. rewrite Htexted. unfold matches_chip. tauto.
Qed.

(** The words that break the loop: the query "constructor" makes the render
    throw, whatever the collection. *)
Lemma filter_throws_on_inherited_word (us : list Utility) (deferredFilter : string) :
  filteredUtilities us deferredFilter "constructor"
  = Throw "TypeError: matches.forEach is not a function".
Proof. reflexivity. Qed.

End FilterClaims.

(** ** The marker image lookup (utils/markerImages.ts) *)

Module MarkerImageClaims.
Import MarkerImages FilterClaims.

(** Every entry of a reachable cache is what the cache-free computation
    returns for its key. *)
Lemma cache_sound cache :
  cache_reachable cache → ∀ k v, cache !! k = Some v → v = resolveImage k.
Proof.
  induction 1 as [|c cache Hreach IH]; intros k v Hk.
  - by rewrite lookup_empty in Hk.
  - unfold getMarkerImage in Hk.
    destruct (cache !! c) as [cached|] eqn:Hc; cbn [snd] in Hk; [by apply IH|].
    destruct (decide (c = k)) as [->|Hne].
    + rewrite lookup_insert_eq in Hk. by inversion Hk.
    + rewrite lookup_insert_ne in Hk by done. by apply IH.
Qed.

Lemma getMarkerImage_value c cache :
  cache_reachable cache → (getMarkerImage c cache).1 = resolveImage c.
Proof.
  intros Hreach. unfold getMarkerImage.
  destruct (cache !! c) as [cached|] eqn:Hc; cbn [fst]; [|done].
  by eapply cache_sound.
Qed.

Lemma grouped_va : of_property (JS.get imageByCategory "va_facility") = Some (Image (marker "va_facility")).
Proof. by vm_compute. Qed.
Lemma grouped_usda : of_property (JS.get imageByCategory "usda") = Some (Image (marker "usda")).
Proof. by vm_compute. Qed.
Lemma grouped_health : of_property (JS.get imageByCategory "health_center") = Some (Image (marker "health_center")).
Proof. by vm_compute. Qed.
Lemma grouped_needle : of_property (JS.get imageByCategory "needle_exchange") = Some (Image (marker "needle_exchange")).
Proof. by vm_compute. Qed.
Lemma grouped_mental : of_property (JS.get imageByCategory "mental_health") = Some (Image (marker "mental_health")).
Proof. by vm_compute. Qed.

(** Off the inherited names, the lookup is the fallback chain and returns
    an image. *)
Lemma resolveImage_chain category :
  JS.inherited (normalize category) = false →
  resolveImage category = Image (image_chain category).
Proof.
  intros Hown. unfold resolveImage, image_chain. cbn zeta.
  rewrite (get_not_inherited _ _ Hown).
  destruct (imageByCategory !! normalize category) as [img|]; [done|].
  cbn [of_property]. unfold groupedImage, health_center_variant, mental_health_alias.
  rewrite grouped_va, grouped_usda, grouped_health, grouped_needle, grouped_mental.
  repeat match goal with |- context [if ?b then _ else _] => destruct b; [done|] end.
  done.
Qed.

(** The counterexample to the claim as worded: "safe_injection" is neither
    a table entry nor covered by a prefix rule, and the function returns
    the needle-exchange image, not the default one. *)
Lemma default_otherwise_fails :
  (getMarkerImage "safe_injection" ∅).1 ≠ Image (claimed_image "safe_injection")
  ∧ claimed_image "safe_injection" = defaultImage.
Proof. split; [by vm_compute | by vm_compute]. Qed.

(** C10, amended -- Total, cache-consistent asset lookup.  For every
    category string and every cache the module can hold, [getMarkerImage]
    returns what the cache-free computation returns, and calling it again
    returns the same value once more; and for every category whose
    normalised form is not the name of a member inherited from
    [Object.prototype] that value is an image: the table entry, else the
    va_ / usda_ / health-center prefix rules, else the aliases of
    safe_injection (needle exchange) and of addiction_services,
    suicide_prevention and domestic_violence (mental health), else the
    default image. *)
Theorem getMarkerImage_total_cached (category : string)
        (categoryCache : gmap string marker_value) :
  cache_reachable categoryCache →
  (getMarkerImage category categoryCache).1 = resolveImage category
  ∧ (getMarkerImage category (getMarkerImage category categoryCache).2).1
    = (getMarkerImage category categoryCache).1
  ∧ cache_reachable (getMarkerImage category categoryCache).2
  ∧ (JS.inherited (normalize category) = false →
     (getMarkerImage category categoryCache).1 = Image (image_chain category)).
Proof.
  intros Hreach.
  assert (cache_reachable (getMarkerImage category categoryCache).2) as Hreach'
      by by constructor.
  split_and!; [by apply getMarkerImage_value| |done|].
  - by rewrite !getMarkerImage_value.
  - intros Hown. rewrite getMarkerImage_value by done. by apply resolveImage_chain.
Qed.

(** On an inherited name the table read returns the inherited member, and
    so does the function: not an image. *)
Lemma getMarkerImage_inherited_member :
  (getMarkerImage "constructor" ∅).1 = Member "constructor".
Proof. by vm_compute. Qed.

End MarkerImageClaims.

(** ** The fetch and the store *)

Module FetchClaims.
Import Entities UtilityStore.

(** When both calls reject, the fetch completes normally and leaves the
    store as it was, but for [isLoading]: the collection is untouched and
    [error] is not written. *)
Lemma fetchAllUtilities_failure api now loc currentLocation st :
  fetch_fails api loc currentLocation →
  fetchAllUtilities api now loc currentLocation false st
  = Normal ({| utilities := utilities st; isLoading := false; error := error st;
               lastFetchTimestamp := lastFetchTimestamp st |}, false).
Proof.
  intros [[r Hall] Hnear]. unfold fetchAllUtilities. rewrite Hall.
  destruct (match loc with Some l => Some l | None => currentLocation end)
    as [location|] eqn:Hloc; [|done].
  destruct (Hnear location eq_refl) as [r' ->]. done.
Qed.

(** C7 -- Data-fetch failure, on the code.  With the statewide call and the
    nearby fallback both rejecting, [fetchAllUtilities] returns normally and
    the collection is what it was, but the store's [error] is still [null]:
    no error flag is raised.  The store's own [fetchNearbyUtilities], on the
    same rejection, does set [error]. *)
Theorem fetch_failure_raises_no_error_flag :
  fetchAllUtilities failing_api 1%Z (Some (47.6%float, (-122.3)%float)) None false store_before
  = Normal (store_before, false)
  ∧ error store_before = None
  ∧ fetchNearbyUtilities failing_api (47.6%float, (-122.3)%float) store_before
    = Normal {| utilities := scenario; isLoading := false;
                error := Some "Failed to fetch nearby utilities";
                lastFetchTimestamp := Some 0%Z |}.
Proof. split_and!; reflexivity. Qed.

End FetchClaims.

(** ** The preloader and the mount gate (PrivacyPolicyScreen.tsx) *)

Module PreloaderClaims.
Import Entities MarkerImages PreloaderScreen ScreenFacts.

Lemma prefetches_fmap uris : prefetches (Prefetch <$> uris) = uris.
Proof.
  unfold prefetches. induction uris as [|u uris IH]; [done|].
  rewrite fmap_cons. cbn [omap list_omap]. by rewrite IH.
Qed.

Lemma allSettled_spec (h : host) uris :
  Forall (λ uri, is_settled (prefetch h uri) = true) uris →
  allSettled (prefetch h <$> uris) = true.
Proof.
  unfold allSettled. induction 1 as [|u uris Hu _ IH]; [done|].
  rewrite fmap_cons. cbn [forallb]. by rewrite Hu, IH.
Qed.

Lemma resolveUris_length (h : host) images :
  Forall (λ src, ∃ uri, resolveAssetSource h src = Some uri ∧ uri ≠ "") images →
  length (resolveUris h images) = length images.
Proof.
  unfold resolveUris. induction 1 as [|src images (uri & Hsrc & Hne) _ IH]; [done|].
  cbn [omap list_omap]. rewrite Hsrc.
  destruct uri; [done|]. cbn [JS.truthy length]. by rewrite IH.
Qed.

(** C5 -- Preloader readiness always resolves.  When the bulk primitive is
    unavailable or throws, the individual prefetch requests issued are
    exactly the URIs handed to the bulk path, one per unique marker asset
    when every asset resolves to a URI; and if each of them settles,
    whether it resolves or rejects and however many reject, [preload] gets
    to its end and, the screen still being mounted, sets [imagesCached]. *)
Theorem preload_readiness (images : list ImageRequireSource) (h : host)
        (imagesCached : bool) :
  bulk_unavailable h ∨ bulk_throws images h →
  prefetches (requests (preload images h)) = resolveUris h images
  ∧ (Forall (λ src, ∃ uri, resolveAssetSource h src = Some uri ∧ uri ≠ "") images →
     length (prefetches (requests (preload images h))) = length images)
  ∧ (Forall (λ uri, is_settled (prefetch h uri) = true) (resolveUris h images) →
     finished (preload images h) = true
     ∧ imagesCachedAfter images h false imagesCached = true
     ∧ length (filter (λ uri, is_rejected (prefetch h uri)) (resolveUris h images))
       ≤ length (resolveUris h images)).
Proof.
  intros Hbulk.
  assert (requests (preload images h) = Prefetch <$> resolveUris h images
          ∨ requests (preload images h)
            = PreloadIcons (resolveUris h images) :: (Prefetch <$> resolveUris h images))
    as Hreq.
  { unfold preload. destruct Hbulk as [Hnone | (f & Hsome & [Hrej | [Hres Hdev]])].
    - unfold bulk_unavailable in Hnone. rewrite Hnone. by left.
    - rewrite Hsome, Hrej. by right.
    - rewrite Hsome, Hres, Hdev. by right. }
  assert (finished (preload images h) = allSettled (prefetch h <$> resolveUris h images))
    as Hfin.
  { unfold preload. destruct Hbulk as [Hnone | (f & Hsome & [Hrej | [Hres Hdev]])].
    - unfold bulk_unavailable in Hnone. by rewrite Hnone.
    - by rewrite Hsome, Hrej.
    - by rewrite Hsome, Hres, Hdev. }
  assert (prefetches (requests (preload images h)) = resolveUris h images) as Hpre.
  { destruct Hreq as [-> | ->]; [apply prefetches_fmap|].
    unfold prefetches. cbn [omap list_omap]. apply prefetches_fmap. }
  split_and!; [done| |].
  - intros Hres. rewrite Hpre. by apply resolveUris_length.
  - intros Hsettled. rewrite Hfin.
    pose proof (allSettled_spec h _ Hsettled) as Hall.
    split_and!; [done| |apply length_filter].
    unfold imagesCachedAfter. by rewrite Hfin, Hall.
Qed.

Lemma commit_imagesCached s s' :
  commit s = Normal s' →
  imagesCached s' = imagesCached s
  ∧ hasLocationPermission s' = hasLocationPermission s.
Proof. unfold commit. intros H. inv_bind H. by inversion H. Qed.

Lemma step_imagesCached images h e s s' :
  step images h e s = Normal s' →
  imagesCached s' = true →
  imagesCached s = true ∨ (e = PreloadFinishes ∧ finished (preload images h) = true).
Proof.
  intros Hstep Hcached. destruct e; cbn [step] in Hstep.
  - destruct (finished (preload images h)) eqn:Hfin; [by right|].
    apply Normal_inj in Hstep. subst. by left.
  - apply commit_imagesCached in Hstep as [Hc _].
    cbn [imagesCached set_flags set_search set_selected] in Hc. left. congruence.
  - apply commit_imagesCached in Hstep as [Hc _].
    cbn [imagesCached set_flags set_search set_selected] in Hc. left. congruence.
  - unfold handleSearch in Hstep. destruct (JS.truthy _).
    + inv_bind Hstep. apply commit_imagesCached in Hstep as [Hc _].
    cbn [imagesCached set_flags set_search set_selected] in Hc. left. congruence.
    + apply commit_imagesCached in Hstep as [Hc _].
    cbn [imagesCached set_flags set_search set_selected] in Hc. left. congruence.
  - apply commit_imagesCached in Hstep as [Hc _].
    cbn [imagesCached set_flags set_search set_selected] in Hc. left. congruence.
  - apply commit_imagesCached in Hstep as [Hc _].
    cbn [imagesCached set_flags set_search set_selected] in Hc. left. congruence.
  - apply commit_imagesCached in Hstep as [Hc _].
    cbn [imagesCached set_flags set_search set_selected] in Hc. left. congruence.
  - apply commit_imagesCached in Hstep as [Hc _].
    cbn [imagesCached set_flags set_search set_selected] in Hc. left. congruence.
  - destruct (gateTimer s).
    + apply commit_imagesCached in Hstep as [Hc _].
    cbn [imagesCached set_flags set_search set_selected] in Hc. left. congruence.
    + apply Normal_inj in Hstep. subst. by left.
Qed.

Lemma run_imagesCached images h es s s' :
  run images h es s = Normal s' →
  imagesCached s' = true →
  imagesCached s = true
  ∨ (PreloadFinishes ∈ es ∧ finished (preload images h) = true).
Proof.
  revert s. induction es as [|e es IH]; intros s Hrun Hcached; cbn [run] in Hrun.
  - apply Normal_inj in Hrun. subst. by left.
  - inv_bind Hrun. destruct (IH _ Hrun Hcached) as [Ha' | [Hin Hfin]].
    + destruct (step_imagesCached _ _ _ _ _ Ha Ha') as [?|[-> Hfin]]; [by left|].
      right. split; [apply list_elem_of_here | done].
    + right. split; [by apply list_elem_of_further | done].
Qed.

Lemma entity_marker_mounted s elements c :
  c ∈ mapChildren s elements → is_entity_marker c = true → imagesCached s = true.
Proof.
  unfold mapChildren. intros Hc Hm. apply elem_of_app in Hc as [Hc|Hc].
  - by destruct (imagesCached s); [|apply elem_of_nil in Hc].
  - destruct (selectedUtility s); [|by apply elem_of_nil in Hc].
    apply list_elem_of_singleton in Hc. by subst.
Qed.

(** C8 -- Mount gating on asset readiness.  In every state the preloader
    screen reaches from its first render, if the render hands the map an
    entity marker element then [imagesCached] is true, and it became true
    because the preload ran to its end: the event is in the history. *)
Theorem mount_gated_on_readiness (images : list ImageRequireSource) (h : host)
        (us : list Utility) (permission : bool) (cache : gmap string marker_value)
        (es : list event) (s : screen) (children : list child)
        (cache' : gmap string marker_value) (c : child) :
  run images h es (initial us permission cache) = Normal s →
  render s = Normal (children, cache') →
  c ∈ children → is_entity_marker c = true →
  imagesCached s = true
  ∧ PreloadFinishes ∈ es
  ∧ finished (preload images h) = true.
Proof.
  intros Hrun Hrender Hc Hm.
  assert (imagesCached s = true) as Hcached.
  { unfold render in Hrender. inv_bind Hrender.
    destruct (markerElements _ _) as [elements cache1].
    apply Normal_inj in Hrender. inversion Hrender; subst.
    destruct (hasLocationPermission s); [|by apply elem_of_nil in Hc].
    by eapply entity_marker_mounted. }
  split; [done|].
  by destruct (run_imagesCached _ _ _ _ _ Hrun Hcached) as [Hinit|[? ?]].
Qed.

End PreloaderClaims.

(** ** The claims at concrete inputs *)

Module Witnesses.
Import Entities MarkerImages MapScreen.

Ltac by_computation :=
  match goal with |- ?P => apply (bool_decide_unpack P); vm_compute; exact I end.

Lemma scenario_viewport_reachable : reachable scenario_viewport.
Proof.
  exists scenario, false, None, [MountTimer; SetMapRegion scenario_region].
  vm_compute. reflexivity.
Defined.

(** C1 at the scenario: with the viewport around entity 2 only, the render
    set is within the filtered and the in-bounds identifiers, and it is
    exactly {2}. *)
Lemma render_set_subset_invariant_witness :
  reachable scenario_viewport
  ∧ (∃ fs ms,
        filteredUtilities (utilities (inp scenario_viewport))
                          (deferredFilter (inp scenario_viewport))
                          (committedSearch (inp scenario_viewport)) = Normal fs
        ∧ eligible (inp scenario_viewport) = Normal ms
        ∧ renderedIds (rset scenario_viewport) ⊆ list_to_set (id <$> fs)
        ∧ size (renderedIds (rset scenario_viewport)) ≤ MAX_RENDERED)
  ∧ renderedIds (rset scenario_viewport) = {[IdNum 2]}.
Proof.
  split; [exact scenario_viewport_reachable|]. split.
  - destruct (ReconcilerClaims.render_set_subset_invariant
                scenario_viewport scenario_viewport_reachable)
      as (fs & ms & Hfs & Hms & Hsub & _ & _ & Hsz & _).
    exists fs, ms. repeat split; assumption.
  - vm_compute. reflexivity.
Defined.

(** C2 at the scenario: entity 2 is rendered before the viewport tightens
    around it and is still rendered afterwards; entity 1 is pruned. *)
Lemma churn_avoidance_witness :
  step (SetMapRegion scenario_region) scenario_mounted = Normal scenario_viewport
  ∧ IdNum 2 ∈ renderedIds (rset scenario_mounted)
  ∧ IdNum 2 ∈ renderedIds (rset scenario_viewport)
  ∧ IdNum 1 ∉ renderedIds (rset scenario_viewport).
Proof.
  assert (step (SetMapRegion scenario_region) scenario_mounted = Normal scenario_viewport)
    as Hstep by (vm_compute; reflexivity).
  assert (IdNum 2 ∈ renderedIds (rset scenario_mounted)) as Hin
      by by_computation.
  split; [exact Hstep|]. split; [exact Hin|]. split.
  - destruct (ReconcilerClaims.churn_avoidance _ _ _ Hstep) as (Hkeep & _ & _).
    apply (Hkeep scenario scenario_entity_2).
    + vm_compute. reflexivity.
    + apply list_elem_of_further, list_elem_of_here.
    + exact Hin.
    + intros b Hb. injection Hb as <-. vm_compute. reflexivity.
  - by_computation.
Defined.

(** C4 at the scenario: the query "bathroom" with no category selected. *)
Lemma filter_semantics_witness :
  "bathroom" ≠ ""
  ∧ Forall (λ w, JS.inherited w = false) (JS.split_ws (JS.toLowerCase "bathroom"))
  ∧ ∃ fs, filteredUtilities scenario "all" "bathroom" = Normal fs
          ∧ ∀ u, u ∈ fs ↔ u ∈ scenario ∧ matches_text "bathroom" u.
Proof.
  assert ("bathroom" ≠ "") as Hq by discriminate.
  assert (Forall (λ w, JS.inherited w = false) (JS.split_ws (JS.toLowerCase "bathroom")))
    as Hw by (repeat constructor).
  split; [exact Hq|]. split; [exact Hw|].
  destruct (FilterClaims.filter_semantics scenario "all" "bathroom" Hq Hw)
    as (fs & Hfs & _ & _ & Hall & _).
  exists fs. split; [exact Hfs | exact (Hall eq_refl)].
Defined.

(** C6 at the scenario: after the gate has opened, a new fetch that raises
    [isLoading], an emptied store and a viewport move leave it open. *)
Lemma gate_single_shot_witness :
  initialLoadComplete (gt scenario_open) = true
  ∧ ∃ s', run [StoreSetLoading true; StoreSetUtilities []; SetMapRegion scenario_region]
              scenario_open = Normal s'
          ∧ isLoading (gt s') = true
          ∧ renderComplete (gt s') = false
          ∧ initialLoadComplete (gt s') = true
          ∧ showLoadingOverlay (gt s') = false.
Proof.
  assert (initialLoadComplete (gt scenario_open) = true) as Hopen by (vm_compute; reflexivity).
  split; [exact Hopen|].
  eexists. split; [vm_compute; reflexivity|].
  split; [vm_compute; reflexivity|]. split; [vm_compute; reflexivity|].
  refine (GateClaims.gate_single_shot
            [StoreSetLoading true; StoreSetUtilities []; SetMapRegion scenario_region]
            scenario_open _ Hopen _).
  vm_compute. reflexivity.
Defined.

(** C9 at the scenario: committing "bathroom " twice. *)
Lemma commit_idempotent_witness :
  ∃ s1, step (SubmitSearch "bathroom ") scenario_mounted = Normal s1
        ∧ step (SubmitSearch "bathroom ") s1 = Normal s1
        ∧ renderedIds (rset s1) = {[IdNum 1]}.
Proof.
  eexists. split; [vm_compute; reflexivity|]. split; [|vm_compute; reflexivity].
  refine (proj1 (GateClaims.commit_idempotent "bathroom " scenario_mounted _ _)).
  vm_compute. reflexivity.
Defined.

(** C10 at a warm cache: a mixed-case, space- and hyphen-containing VA
    category. *)
Lemma getMarkerImage_total_cached_witness :
  cache_reachable (getMarkerImage "restroom" ∅).2
  ∧ (getMarkerImage "VA Medical-Center" (getMarkerImage "restroom" ∅).2).1
    = Image (marker "va_facility")
  ∧ (getMarkerImage "restroom" (getMarkerImage "restroom" ∅).2).1
    = (getMarkerImage "restroom" ∅).1.
Proof.
  assert (cache_reachable (getMarkerImage "restroom" ∅).2) as Hreach
      by (constructor; constructor).
  split; [exact Hreach|]. split.
  - destruct (MarkerImageClaims.getMarkerImage_total_cached
                "VA Medical-Center" _ Hreach) as (_ & _ & _ & Himg).
    rewrite Himg; [|vm_compute; reflexivity]. vm_compute. reflexivity.
  - exact (proj1 (proj2 (MarkerImageClaims.getMarkerImage_total_cached
                           "restroom" ∅ cache_init))).
Defined.

Import PreloaderScreen.

(** C5 at the example host: the bulk call rejects, three prefetches are
    issued, one of them fails, and [imagesCached] is set all the same. *)
Lemma preload_readiness_witness :
  (bulk_unavailable example_host ∨ bulk_throws example_images example_host)
  ∧ prefetches (requests (preload example_images example_host))
    = resolveUris example_host example_images
  ∧ length (resolveUris example_host example_images) = 3
  ∧ length (filter (λ uri, is_rejected (prefetch example_host uri))
                   (resolveUris example_host example_images)) = 1
  ∧ finished (preload example_images example_host) = true
  ∧ imagesCachedAfter example_images example_host false false = true.
Proof.
  assert (bulk_unavailable example_host ∨ bulk_throws example_images example_host) as Hbulk.
  { right. eexists. split; [reflexivity|]. left. reflexivity. }
  destruct (PreloaderClaims.preload_readiness example_images example_host false Hbulk)
    as (Hreq & _ & Hready).
  split; [exact Hbulk|]. split; [exact Hreq|].
  split; [vm_compute; reflexivity|]. split; [vm_compute; reflexivity|].
  assert (Forall (λ uri, is_settled (prefetch example_host uri) = true)
                 (resolveUris example_host example_images)) as Hsettled
      by (repeat constructor).
  destruct (Hready Hsettled) as (Hfin & Hcached & _).
  split; [exact Hfin | exact Hcached].
Defined.

(** C8 at the example host: before the preload finishes the map has no
    entity marker; once it has, the markers are mounted and the history
    holds the event. *)
Lemma mount_gated_on_readiness_witness :
  (∃ cache, PreloaderScreen.render (PreloaderScreen.initial scenario true ∅)
            = Normal ([], cache))
  ∧ ∃ s children cache' c,
      PreloaderScreen.run example_images example_host [PreloadFinishes]
                          (PreloaderScreen.initial scenario true ∅) = Normal s
      ∧ PreloaderScreen.render s = Normal (children, cache')
      ∧ c ∈ children ∧ is_entity_marker c = true
      ∧ PreloaderScreen.imagesCached s = true
      ∧ PreloadFinishes ∈ [PreloadFinishes].
Proof.
  split; [eexists; vm_compute; reflexivity|].
  eexists _, _, _, _.
  assert (∀ (P Q R : Prop), P → (P → Q) → (P → Q → R) → P ∧ Q ∧ R) as Hchain by tauto.
  apply Hchain; [vm_compute; reflexivity| |].
  - intros _. vm_compute. reflexivity.
  - intros Hrun Hrender.
    assert (∀ (P Q R : Prop), P → Q → (P → Q → R) → P ∧ Q ∧ R) as Hchain2 by tauto.
    apply Hchain2; [apply list_elem_of_here | reflexivity |].
    intros Hc Hm.
    destruct (PreloaderClaims.mount_gated_on_readiness
                _ _ _ _ _ _ _ _ _ _ Hrun Hrender Hc Hm) as (Hcached & Hin & _).
    split; [exact Hcached | exact Hin].
Defined.

End Witnesses.

(* ===================================================================== *)
(** * Further properties of the map screen *)
(* ===================================================================== *)

Module GrowthFacts.
Import Entities MapScreen RenderSetFacts ScreenFacts.

Lemma validIdsOf_nil : validIdsOf [] = ∅.
Proof. reflexivity. Qed.

Lemma validIdsOf_take_subseteq k ms : validIdsOf (take k ms) ⊆ validIdsOf ms.
Proof.
  intros i. rewrite !elem_of_validIdsOf. intros (u & Hu & <-).
  exists u. split; [|done]. by eapply subseteq_take.
Qed.

(** X1 -- Admission follows the list order.  The admission loop stops at
    some position of the marker list: what it leaves is the set it started
    from together with the identifiers of the markers before that position,
    and it stops before the end only at the cap or when the batch is used
    up. *)
Theorem admitBatch_prefix batch ms rendered added :
  ∃ k, k ≤ length ms
       ∧ (admitBatch batch ms rendered added).1 = rendered ∪ validIdsOf (take k ms)
       ∧ (k < length ms →
          MAX_RENDERED ≤ size (admitBatch batch ms rendered added).1
          ∨ batch ≤ (admitBatch batch ms rendered added).2).
Proof.
  revert rendered added.
  induction ms as [|m rest IH]; intros rendered added.
  { exists 0. rewrite admitBatch_nil. cbn [fst snd length take].
    rewrite validIdsOf_nil. split_and!; [lia | by rewrite union_empty_r_L | lia]. }
  rewrite admitBatch_cons.
  destruct (bool_decide (MAX_RENDERED ≤ size rendered)) eqn:Hmax.
  { exists 0. cbn [fst snd take]. rewrite validIdsOf_nil.
    apply bool_decide_eq_true in Hmax.
    split_and!; [cbn [length]; lia | by rewrite union_empty_r_L | by left]. }
  destruct (bool_decide (batch ≤ added)) eqn:Hbatch.
  { exists 0. cbn [fst snd take]. rewrite validIdsOf_nil.
    apply bool_decide_eq_true in Hbatch.
    split_and!; [cbn [length]; lia | by rewrite union_empty_r_L | by right]. }
  destruct (bool_decide (id m ∈ rendered)) eqn:Hin.
  - apply bool_decide_eq_true in Hin.
    destruct (IH rendered added) as (k & Hk & Heq & Hstop).
    exists (S k). cbn [length take]. rewrite validIdsOf_cons.
    split_and!; [lia| |intros ?; apply Hstop; lia].
    rewrite Heq.
    apply set_eq. intros i. rewrite !elem_of_union, elem_of_singleton.
    split; [tauto|]. intros [?|[->|?]]; tauto.
  - destruct (IH ({[id m]} ∪ rendered) (S added)) as (k & Hk & Heq & Hstop).
    exists (S k). cbn [length take]. rewrite validIdsOf_cons.
    split_and!; [lia| |intros ?; apply Hstop; lia].
    rewrite Heq.
    apply set_eq. intros i. rewrite !elem_of_union, elem_of_singleton. tauto.
Qed.

(** The size the loop leaves: it fills up to the distinct identifiers on
    offer, the room left in the batch, or the cap, whichever comes first. *)
Lemma admitBatch_size batch ms rendered added :
  added ≤ batch → size rendered ≤ MAX_RENDERED →
  size (admitBatch batch ms rendered added).1 =
  Nat.min (size (rendered ∪ validIdsOf ms))
          (Nat.min (size rendered + (batch - added)) MAX_RENDERED).
Proof.
  revert rendered added.
  induction ms as [|m rest IH]; intros rendered added Ha Hsz.
  { rewrite admitBatch_nil, validIdsOf_nil, union_empty_r_L. cbn [fst]. lia. }
  rewrite admitBatch_cons.
  assert (size rendered ≤ size (rendered ∪ validIdsOf (m :: rest))) as Hle
      by (apply subseteq_size, union_subseteq_l).
  destruct (bool_decide (MAX_RENDERED ≤ size rendered)) eqn:Hmax.
  { apply bool_decide_eq_true in Hmax. cbn [fst]. lia. }
  destruct (bool_decide (batch ≤ added)) eqn:Hbatch.
  { apply bool_decide_eq_true in Hbatch. cbn [fst]. lia. }
  apply bool_decide_eq_false in Hmax, Hbatch.
  destruct (bool_decide (id m ∈ rendered)) eqn:Hin.
  - apply bool_decide_eq_true in Hin. rewrite IH by lia.
    replace (rendered ∪ validIdsOf (m :: rest)) with (rendered ∪ validIdsOf rest); [done|].
    rewrite validIdsOf_cons. apply set_eq. intros i.
    rewrite !elem_of_union, elem_of_singleton. split; [tauto|].
    intros [?|[->|?]]; tauto.
  - apply bool_decide_eq_false in Hin.
    rewrite IH; [|lia|rewrite size_add_fresh by done; lia].
    rewrite size_add_fresh by done.
    replace ({[id m]} ∪ rendered ∪ validIdsOf rest)
      with (rendered ∪ validIdsOf (m :: rest)); [lia|].
    rewrite validIdsOf_cons. apply set_eq. intros i.
    rewrite !elem_of_union, elem_of_singleton. tauto.
Qed.

Lemma growthTick_size_step ms ilc rs :
  renderedIds rs ⊆ validIdsOf ms → size (renderedIds rs) ≤ MAX_RENDERED →
  size (renderedIds (growthTick ms ilc rs)) =
  Nat.min (size (renderedIds rs) + batchSizeFor ilc)
          (Nat.min (size (validIdsOf ms)) MAX_RENDERED).
Proof.
  intros Hsub Hsz. rewrite growthTick_rendered, admitBatch_size by lia.
  replace (renderedIds rs ∪ validIdsOf ms) with (validIdsOf ms); [lia|].
  apply set_eq. intros i. rewrite elem_of_union. split; [tauto|].
  intros [?|?]; [by apply Hsub|done].
Qed.

Lemma iter_growth_ok n ms ilc rs :
  renderedIds rs ⊆ validIdsOf ms → size (renderedIds rs) ≤ MAX_RENDERED →
  renderedIds (Nat.iter n (growthTick ms ilc) rs) ⊆ validIdsOf ms
  ∧ size (renderedIds (Nat.iter n (growthTick ms ilc) rs)) ≤ MAX_RENDERED.
Proof.
  intros Hsub Hsz. induction n as [|n [IH1 IH2]]; [done|].
  change (Nat.iter (S n) (growthTick ms ilc) rs)
    with (growthTick ms ilc (Nat.iter n (growthTick ms ilc) rs)).
  split; [by apply growthTick_subseteq | by apply growthTick_size].
Qed.

(** X2 -- Growth, counted.  Over an unchanged marker list each firing of
    the growth timer adds a full batch until the distinct eligible
    identifiers or the cap are reached: after [n] firings the render set
    holds the smaller of its old size plus [n] batches and that bound. *)
Theorem growth_size_after n ms ilc rs :
  renderedIds rs ⊆ validIdsOf ms → size (renderedIds rs) ≤ MAX_RENDERED →
  size (renderedIds (Nat.iter n (growthTick ms ilc) rs)) =
  Nat.min (size (renderedIds rs) + n * batchSizeFor ilc)
          (Nat.min (size (validIdsOf ms)) MAX_RENDERED).
Proof.
  intros Hsub Hsz.
  assert (size (renderedIds rs) ≤ size (validIdsOf ms)) by by apply subseteq_size.
  induction n as [|n IH]; [change (Nat.iter 0 (growthTick ms ilc) rs) with rs; lia|].
  destruct (iter_growth_ok n ms ilc rs Hsub Hsz) as [H1 H2].
  change (Nat.iter (S n) (growthTick ms ilc) rs)
    with (growthTick ms ilc (Nat.iter n (growthTick ms ilc) rs)).
  rewrite growthTick_size_step by done. rewrite IH. lia.
Qed.

Lemma size_validIdsOf_NoDup ms : NoDup (id <$> ms) → size (validIdsOf ms) = length ms.
Proof.
  intros Hnd. unfold validIdsOf. rewrite size_list_to_set by done.
  by rewrite length_fmap.
Qed.

End GrowthFacts.

Module GateFacts.
Import Entities MapScreen RenderSetFacts ScreenFacts GrowthFacts.

(** Every branch of [step] either leaves the state alone or ends in a
    commit, so what holds after every commit holds in every reachable
    state. *)
Lemma step_commit_inv (P : screen → Prop) :
  (∀ b s s', commit b s = Normal s' → P s') →
  ∀ e s s', P s → step e s = Normal s' → P s'.
Proof.
  intros HP e s s' Hs Hstep. destruct e; cbn [step] in Hstep.
  - inv_bind Hstep. case_bool_decide.
    + apply Normal_inj in Hstep. subst. by eapply HP.
    + by eapply HP.
  - by eapply HP.
  - unfold handleSearch in Hstep. inv_bind Hstep.
    destruct (String.eqb _ _); [apply Normal_inj in Hstep; by subst | by eapply HP].
  - destruct (String.eqb _ _); [apply Normal_inj in Hstep; by subst | by eapply HP].
  - destruct (String.eqb _ _); [apply Normal_inj in Hstep; by subst | by eapply HP].
  - by eapply HP.
  - case_bool_decide; [by eapply HP | apply Normal_inj in Hstep; by subst].
  - inv_bind Hstep.
    destruct (growthPending _ _); [by eapply HP | apply Normal_inj in Hstep; by subst].
  - destruct (gateTimer _); [by eapply HP | apply Normal_inj in Hstep; by subst].
Qed.

Lemma run_commit_inv (P : screen → Prop) :
  (∀ b s s', commit b s = Normal s' → P s') →
  ∀ es s s', P s → run es s = Normal s' → P s'.
Proof.
  intros HP es. induction es as [|e es IH]; intros s s' Hs Hrun; cbn [run] in Hrun.
  - apply Normal_inj in Hrun. by subst.
  - inv_bind Hrun. eapply IH; [|done]. by eapply step_commit_inv.
Qed.

Lemma reachable_commit_inv (P : screen → Prop) :
  (∀ b s s', commit b s = Normal s' → P s') → ∀ s, reachable s → P s.
Proof.
  intros HP s (us & loading & loc & es & Hrun). inv_bind Hrun.
  eapply run_commit_inv; [done| |done]. by eapply HP.
Qed.

Lemma commit_gate b s s' ms :
  commit b s = Normal s' → eligible (inp s') = Normal ms →
  (renderComplete (gt s') = true ∨ gateTimer (gt s') = true) →
  isLoading (gt s') = false
  ∧ length (utilities (inp s')) ≤ mountedCount (inp s')
  ∧ growthTarget ms ≤ size (renderedIds (rset s')).
Proof.
  intros Hc Hms Hopen. rewrite (commit_inp _ _ _ Hc) in Hms |- *.
  unfold commit in Hc. rewrite Hms in Hc.
  cbn [mret mbind completion_ret completion_bind] in Hc.
  apply Normal_inj in Hc. subst s'. cbn [gt rset] in *.
  set (rs' := if b then reconcile ms (initialLoadComplete (gt s)) (rset s) else rset s) in *.
  unfold gateEffect in Hopen |- *.
  destruct (isLoading (gt s)) eqn:Hl; cbn [orb] in *.
  { unfold markInitialLoad in Hopen. cbn [negb andb] in Hopen.
    cbn [renderComplete gateTimer] in Hopen. destruct Hopen; discriminate. }
  destruct (bool_decide (mountedCount (inp s) < length (utilities (inp s)))) eqn:Hm;
    cbn [orb] in *.
  { unfold markInitialLoad in Hopen.
    destruct (negb false && renderComplete (gt s));
      cbn [renderComplete gateTimer] in Hopen; destruct Hopen; discriminate. }
  destruct (bool_decide (0 < growthTarget ms) &&
            bool_decide (size (renderedIds rs') < growthTarget ms)) eqn:Ht.
  { unfold markInitialLoad in Hopen.
    destruct (negb false && renderComplete (gt s));
      cbn [renderComplete gateTimer] in Hopen; destruct Hopen; discriminate. }
  apply bool_decide_eq_false in Hm.
  apply andb_false_iff in Ht. rewrite !bool_decide_eq_false in Ht.
  unfold markInitialLoad.
  destruct (negb false && renderComplete (gt s)); cbn [isLoading];
    (split_and!; [done | lia | lia]).
Qed.


Lemma commit_gate_reachable s ms :
  reachable s → eligible (inp s) = Normal ms →
  renderComplete (gt s) = true ∨ gateTimer (gt s) = true →
  isLoading (gt s) = false
  ∧ length (utilities (inp s)) ≤ mountedCount (inp s)
  ∧ growthTarget ms ≤ size (renderedIds (rset s)).
Proof.
  intros Hr. revert ms.
  apply (reachable_commit_inv
           (λ s, ∀ ms, eligible (inp s) = Normal ms →
                       renderComplete (gt s) = true ∨ gateTimer (gt s) = true →
                       isLoading (gt s) = false
                       ∧ length (utilities (inp s)) ≤ mountedCount (inp s)
                       ∧ growthTarget ms ≤ size (renderedIds (rset s)))); [|done].
  intros b s0 s' Hc ms. by eapply commit_gate.
Qed.

(** X4 -- What [renderComplete] stands for.  In every reachable state,
    [renderComplete] set, or its timer armed, means that nothing is loading,
    every entity of the collection is mounted and the render set has reached
    its target. *)
Theorem render_complete_sound s ms :
  reachable s → eligible (inp s) = Normal ms →
  renderComplete (gt s) = true ∨ gateTimer (gt s) = true →
  isLoading (gt s) = false
  ∧ length (utilities (inp s)) ≤ mountedCount (inp s)
  ∧ growthTarget ms ≤ size (renderedIds (rset s)).
Proof. apply commit_gate_reachable. Qed.

(** X5 -- Shared identifiers keep the gate shut.  The render set holds
    identifiers and its target counts markers: in every reachable state
    whose eligible markers have fewer distinct identifiers than the target,
    [renderComplete] is false and its timer is not armed, so the overlay is
    shown unless the gate had opened before. *)
Theorem duplicate_ids_block_gate s ms :
  reachable s → eligible (inp s) = Normal ms →
  size (validIdsOf ms) < growthTarget ms →
  renderComplete (gt s) = false
  ∧ gateTimer (gt s) = false
  ∧ showLoadingOverlay (gt s) = negb (initialLoadComplete (gt s)).
Proof.
  intros Hr Hms Hdup.
  destruct (reachable_ok s Hr) as (ms' & Hms' & Hsub & _).
  assert (ms' = ms) as -> by congruence.
  apply subseteq_size in Hsub.
  assert (¬ (renderComplete (gt s) = true ∨ gateTimer (gt s) = true)) as Hno.
  { intros Hopen.
    destruct (commit_gate_reachable s ms Hr Hms Hopen) as (_ & _ & Hge). lia. }
  destruct (renderComplete (gt s)) eqn:Hrc; [exfalso; apply Hno; by left|].
  destruct (gateTimer (gt s)) eqn:Hgt; [exfalso; apply Hno; by right|].
  unfold showLoadingOverlay. rewrite Hrc. cbn [negb].
  by rewrite orb_true_r, andb_true_r.
Qed.

End GateFacts.

Module GrowthChain.
Import Entities MapScreen RenderSetFacts ScreenFacts GrowthFacts GateFacts.

Lemma RENDER_BATCH_le ilc : RENDER_BATCH ≤ batchSizeFor ilc.
Proof.
  destruct ilc; cbn [batchSizeFor]; [done|].
  apply (bool_decide_unpack (RENDER_BATCH ≤ INITIAL_RENDER_BATCH)). vm_compute. exact I.
Qed.

Lemma size_validIdsOf_le ms : size (validIdsOf ms) ≤ length ms.
Proof.
  induction ms as [|m ms IH]; [by rewrite validIdsOf_nil, size_empty|].
  rewrite validIdsOf_cons. cbn [length].
  destruct (decide (id m ∈ validIdsOf ms)) as [Hx|Hx].
  - replace ({[id m]} ∪ validIdsOf ms) with (validIdsOf ms); [lia|].
    apply set_eq. intros i. rewrite elem_of_union, elem_of_singleton.
    split; [tauto|]. intros [->|?]; done.
  - rewrite size_add_fresh by done. lia.
Qed.

Lemma commit_false_rset s s' : commit false s = Normal s' → rset s' = rset s.
Proof.
  intros Hc. destruct (commit_eligible _ _ _ Hc) as [ms Hms].
  by rewrite (commit_rset _ _ _ _ Hc Hms).
Qed.

Lemma commit_total b s ms : eligible (inp s) = Normal ms → ∃ s', commit b s = Normal s'.
Proof. intros Hms. unfold commit. rewrite Hms. eexists. reflexivity. Qed.

Lemma filter_all {A} (P : A → Prop) `{!∀ x, Decision (P x)} (l : list A) :
  Forall P l → filter P l = l.
Proof.
  induction 1 as [|x l Hx _ IH]; [done|].
  rewrite filter_cons_True by done. by rewrite IH.
Qed.

(** One firing of the growth timer. *)
Lemma growth_step s ms :
  eligible (inp s) = Normal ms →
  renderedIds (rset s) ⊆ validIdsOf ms → size (renderedIds (rset s)) ≤ MAX_RENDERED →
  ∃ s', step GrowthTimer s = Normal s'
        ∧ inp s' = inp s
        ∧ renderedIds (rset s') ⊆ validIdsOf ms
        ∧ size (renderedIds (rset s')) ≤ MAX_RENDERED
        ∧ Nat.min (size (renderedIds (rset s)) + RENDER_BATCH)
                  (Nat.min (size (validIdsOf ms)) MAX_RENDERED)
          ≤ size (renderedIds (rset s')).
Proof.
  intros Hms Hsub Hsz. cbn [step]. rewrite Hms.
  cbn [mret mbind completion_ret completion_bind].
  destruct (growthPending ms (rset s)) eqn:Hp.
  - set (s1 := {| inp := inp s; rset := growthTick ms (initialLoadComplete (gt s)) (rset s);
                  gt := gt s; prevUtilitiesLen := prevUtilitiesLen s |}).
    destruct (commit_total false s1 ms Hms) as [s' Hc].
    exists s'. split; [done|].
    rewrite (commit_false_rset _ _ Hc), (commit_inp _ _ _ Hc). cbn [s1 rset inp].
    split_and!; [done | by apply growthTick_subseteq | by apply growthTick_size |].
    rewrite growthTick_size_step by done.
    pose proof (RENDER_BATCH_le (initialLoadComplete (gt s))). lia.
  - exists s. split_and!; [done..|].
    unfold growthPending in Hp. apply negb_false_iff, bool_decide_eq_true in Hp.
    unfold growthTarget in Hp. pose proof (size_validIdsOf_le ms). lia.
Qed.

Lemma growth_run n s ms :
  eligible (inp s) = Normal ms →
  renderedIds (rset s) ⊆ validIdsOf ms → size (renderedIds (rset s)) ≤ MAX_RENDERED →
  ∃ s', run (replicate n GrowthTimer) s = Normal s'
        ∧ inp s' = inp s
        ∧ renderedIds (rset s') ⊆ validIdsOf ms
        ∧ size (renderedIds (rset s')) ≤ MAX_RENDERED
        ∧ Nat.min (size (renderedIds (rset s)) + n * RENDER_BATCH)
                  (Nat.min (size (validIdsOf ms)) MAX_RENDERED)
          ≤ size (renderedIds (rset s')).
Proof.
  revert s. induction n as [|n IH]; intros s Hms Hsub Hsz.
  { exists s. cbn [replicate run]. split_and!; [done..|].
    apply subseteq_size in Hsub. lia. }
  destruct (growth_step s ms Hms Hsub Hsz) as (s1 & Hstep & Hinp & Hsub1 & Hsz1 & Hge1).
  rewrite <- Hinp in Hms.
  destruct (IH s1 Hms Hsub1 Hsz1) as (s' & Hrun & Hinp' & Hsub' & Hsz' & Hge').
  exists s'. cbn [replicate run]. rewrite Hstep.
  cbn [mret mbind completion_ret completion_bind].
  split_and!; [done | congruence | done | done |]. lia.
Qed.

Lemma growth_chain_settles_aux n s ms :
  reachable s → eligible (inp s) = Normal ms → NoDup (id <$> ms) →
  MAX_RENDERED ≤ n * RENDER_BATCH →
  ∃ s', run (replicate n GrowthTimer) s = Normal s'
        ∧ inp s' = inp s
        ∧ growthPending ms (rset s') = false.
Proof.
  intros Hr Hms Hnd Hn.
  destruct (reachable_ok s Hr) as (ms' & Hms' & Hsub & Hsz).
  assert (ms' = ms) as -> by congruence.
  destruct (growth_run n s ms Hms Hsub Hsz) as (s' & Hrun & Hinp & Hsub' & Hsz' & Hge).
  pose proof (size_validIdsOf_NoDup ms Hnd) as Hsize.
  pose proof (subseteq_size _ _ Hsub') as Hle.
  exists s'. split_and!; [done | done |].
  unfold growthPending, growthTarget. apply negb_false_iff, bool_decide_eq_true. lia.
Qed.

(** X3 -- The growth chain completes.  In a reachable state whose eligible
    markers have pairwise distinct identifiers, [n] firings of the growth
    timer with [n * RENDER_BATCH] at least the cap run without a throw, leave
    the inputs alone and leave nothing pending; when the eligible markers are
    no more than the cap, the render set is then the whole eligible set and
    every eligible marker is mounted. *)
Theorem growth_chain_settles n s ms :
  reachable s → eligible (inp s) = Normal ms → NoDup (id <$> ms) →
  MAX_RENDERED ≤ n * RENDER_BATCH →
  ∃ s', run (replicate n GrowthTimer) s = Normal s'
        ∧ inp s' = inp s
        ∧ growthPending ms (rset s') = false
        ∧ (length ms ≤ MAX_RENDERED →
           renderedIds (rset s') = validIdsOf ms ∧ finalMarkers ms (rset s') = ms).
Proof.
  intros Hr Hms Hnd Hn.
  destruct (reachable_ok s Hr) as (ms' & Hms' & Hsub & Hsz).
  assert (ms' = ms) as -> by congruence.
  destruct (growth_run n s ms Hms Hsub Hsz) as (s' & Hrun & Hinp & Hsub' & Hsz' & Hge).
  pose proof (size_validIdsOf_NoDup ms Hnd) as Hsize.
  pose proof (subseteq_size _ _ Hsub') as Hle.
  exists s'. split_and!; [done | done | |].
  - unfold growthPending, growthTarget. apply negb_false_iff, bool_decide_eq_true. lia.
  - intros Hlen.
    assert (renderedIds (rset s') = validIdsOf ms) as Heq.
    { apply set_subseteq_size_eq; [done|lia]. }
    split; [done|]. unfold finalMarkers. rewrite Heq.
    apply filter_all. apply Forall_forall. intros u Hu.
    apply elem_of_validIdsOf. by exists u.
Qed.

End GrowthChain.

Module RefreshFacts.
Import Entities MapScreen ScreenInvariants RenderSetFacts ScreenFacts GrowthFacts GateFacts.

Lemma commit_counts_ok b s s' : counts_ok s → commit b s = Normal s' → counts_ok s'.
Proof.
  intros Hs Hc. unfold counts_ok.
  by rewrite (commit_inp _ _ _ Hc), (commit_prevLen _ _ _ Hc).
Qed.

Lemma step_counts_ok e s s' : counts_ok s → step e s = Normal s' → counts_ok s'.
Proof.
  intros Hs Hstep. pose proof Hs as [Hp Hm]. destruct e; cbn [step] in Hstep.
  - inv_bind Hstep.
    pose proof (commit_inp _ _ _ Ha) as Hi. pose proof (commit_prevLen _ _ _ Ha) as Hp'.
    cbn [with_inputs inp prevUtilitiesLen] in Hi, Hp'.
    case_bool_decide as Hlen.
    + apply Normal_inj in Hstep. subst s'. unfold counts_ok. rewrite Hi.
      cbn [set_utilities utilities mountedCount]. lia.
    + unfold counts_ok. rewrite (commit_inp _ _ _ Hstep), (commit_prevLen _ _ _ Hstep).
      cbn [inp prevUtilitiesLen]. rewrite Hi.
      cbn [set_mountedCount set_utilities utilities mountedCount]. lia.
  - (eapply commit_counts_ok; [|exact Hstep]); exact Hs.
  - unfold handleSearch in Hstep. inv_bind Hstep.
    destruct (String.eqb _ _); [apply Normal_inj in Hstep; by subst|].
    (eapply commit_counts_ok; [|exact Hstep]); exact Hs.
  - destruct (String.eqb _ _); [apply Normal_inj in Hstep; by subst|].
    (eapply commit_counts_ok; [|exact Hstep]); exact Hs.
  - destruct (String.eqb _ _); [apply Normal_inj in Hstep; by subst|].
    (eapply commit_counts_ok; [|exact Hstep]); exact Hs.
  - (eapply commit_counts_ok; [|exact Hstep]); exact Hs.
  - case_bool_decide; [|apply Normal_inj in Hstep; by subst].
    eapply commit_counts_ok; [|done]. unfold counts_ok.
    cbn [with_inputs inp prevUtilitiesLen set_mountedCount utilities mountedCount]. lia.
  - inv_bind Hstep.
    destruct (growthPending _ _); [|apply Normal_inj in Hstep; by subst].
    (eapply commit_counts_ok; [|exact Hstep]); exact Hs.
  - destruct (gateTimer _); [|apply Normal_inj in Hstep; by subst].
    (eapply commit_counts_ok; [|exact Hstep]); exact Hs.
Qed.

Lemma reachable_counts_ok s : reachable s → counts_ok s.
Proof.
  intros (us & loading & loc & es & Hrun). inv_bind Hrun.
  assert (counts_ok a) as Ha0.
  { unfold mount in Ha. eapply commit_counts_ok; [|done].
    unfold counts_ok, initial. cbn [inp prevUtilitiesLen utilities mountedCount]. lia. }
  clear Ha. revert a Ha0 Hrun.
  induction es as [|e es IH]; intros a Ha0 Hrun; cbn [run] in Hrun.
  - apply Normal_inj in Hrun. by subst.
  - inv_bind Hrun. eapply IH; [|done]. by eapply step_counts_ok.
Qed.

Lemma reachable_prevLen s : reachable s → prevUtilitiesLen s = length (utilities (inp s)).
Proof. intros Hr. by destruct (reachable_counts_ok s Hr). Qed.

Lemma reachable_mounted_le s :
  reachable s → mountedCount (inp s) ≤ length (utilities (inp s)).
Proof. intros Hr. by destruct (reachable_counts_ok s Hr). Qed.

(** X6 -- A refetch of another size unmounts every marker.  When the store
    replaces the collection by one of a different length, the mounted count
    restarts at zero and the render set is emptied: no marker is mounted
    until the mount timer fires again. *)
Theorem refetch_unmounts us s s' :
  reachable s → step (StoreSetUtilities us) s = Normal s' →
  length us ≠ length (utilities (inp s)) →
  utilities (inp s') = us
  ∧ mountedCount (inp s') = 0
  ∧ renderedIds (rset s') = ∅
  ∧ finalMarkers us (rset s') = [].
Proof.
  intros Hr Hstep Hlen.
  pose proof (reachable_prevLen s Hr) as Hprev.
  pose proof (reachable_ok s' (reachable_step _ _ _ Hr Hstep)) as (ms & Hms & Hsub & _).
  cbn [step] in Hstep. inv_bind Hstep.
  pose proof (commit_inp _ _ _ Ha) as Hi. pose proof (commit_prevLen _ _ _ Ha) as Hp.
  cbn [with_inputs inp prevUtilitiesLen] in Hi, Hp.
  case_bool_decide as Hl; [lia|].
  pose proof (commit_inp _ _ _ Hstep) as Hi'. cbn [inp] in Hi'.
  assert (mountedCount (inp s') = 0) as Hm by by rewrite Hi'.
  assert (renderedIds (rset s') = ∅) as Hempty.
  { apply (ReconcilerClaims.eligible_unmounted _ _ Hm) in Hms. subst ms.
    rewrite validIdsOf_nil in Hsub. apply set_eq. intros i.
    split; [apply Hsub | by intros ?%elem_of_empty]. }
  split_and!; [by rewrite Hi', Hi | done | done |].
  unfold finalMarkers. rewrite Hempty.
  induction us as [|u us' IH]; [done|].
  rewrite filter_cons_False; [|by intros ?%elem_of_empty].
  clear -us'. induction us' as [|v us' IH]; [done|].
  rewrite filter_cons_False; [done|by intros ?%elem_of_empty].
Qed.


End RefreshFacts.

Module SearchBoxFacts.
Import Entities MapScreen ScreenFacts.



End SearchBoxFacts.

Module LaunchFacts.
Import Entities MapScreen RenderSetFacts ScreenFacts GrowthFacts GateFacts GrowthChain RefreshFacts.

(** What the gate effect tests. *)
Lemma commit_gateTimer b s s' ms :
  commit b s = Normal s' → eligible (inp s') = Normal ms →
  isLoading (gt s') = false →
  length (utilities (inp s')) ≤ mountedCount (inp s') →
  growthTarget ms ≤ size (renderedIds (rset s')) →
  gateTimer (gt s') = true.
Proof.
  intros Hc Hms. rewrite (commit_inp _ _ _ Hc) in Hms |- *.
  unfold commit in Hc. rewrite Hms in Hc.
  cbn [mret mbind completion_ret completion_bind] in Hc.
  apply Normal_inj in Hc. subst s'. cbn [gt rset].
  set (rs' := if b then reconcile ms (initialLoadComplete (gt s)) (rset s) else rset s).
  intros Hl Hm Ht.
  assert (isLoading (gt s) = false) as Hl'.
  { revert Hl. unfold markInitialLoad, gateEffect.
    by destruct (negb _ && _), (_ || _ || _). }
  unfold gateEffect. rewrite Hl'. cbn [orb].
  rewrite (bool_decide_eq_false_2 (mountedCount (inp s) < length (utilities (inp s)))) by lia.
  rewrite (bool_decide_eq_false_2 (size (renderedIds rs') < growthTarget ms)) by lia.
  rewrite andb_false_r. cbn [orb].
  unfold markInitialLoad. by destruct (negb _ && _).
Qed.

Lemma reachable_gateTimer s ms :
  reachable s → eligible (inp s) = Normal ms →
  isLoading (gt s) = false →
  length (utilities (inp s)) ≤ mountedCount (inp s) →
  growthTarget ms ≤ size (renderedIds (rset s)) →
  gateTimer (gt s) = true.
Proof.
  intros Hr. revert ms.
  apply (reachable_commit_inv
           (λ s, ∀ ms, eligible (inp s) = Normal ms →
                       isLoading (gt s) = false →
                       length (utilities (inp s)) ≤ mountedCount (inp s) →
                       growthTarget ms ≤ size (renderedIds (rset s)) →
                       gateTimer (gt s) = true)); [|done].
  intros b s0 s' Hc ms. by eapply commit_gateTimer.
Qed.

Lemma commit_isLoading b s s' : commit b s = Normal s' → isLoading (gt s') = isLoading (gt s).
Proof.
  unfold commit. intros H. inv_bind H. apply Normal_inj in H. subst s'. cbn [gt].
  unfold markInitialLoad, gateEffect. by destruct (negb _ && _), (_ || _ || _).
Qed.

(** Whether the render throws is decided by the committed search alone. *)
Lemma eligible_total_mounted i n ms :
  eligible i = Normal ms → ∃ ms', eligible (set_mountedCount n i) = Normal ms'.
Proof.
  unfold eligible. cbn [set_mountedCount utilities deferredFilter committedSearch
                         mountedCount mapRegion].
  intros H. inv_bind H. rewrite Ha.
  cbn [mret mbind completion_ret completion_bind]. eauto.
Qed.

Lemma eligible_sublist i ms : eligible i = Normal ms → ms `sublist_of` utilities i.
Proof.
  unfold eligible. intros H. inv_bind H.
  cbn [mret mbind completion_ret completion_bind] in H.
  apply Normal_inj in H. subst ms.
  unfold markersToRender, visibleUtilities.
  assert (∀ l : list Utility, l `sublist_of` take (mountedCount i) (utilities i) →
                              l `sublist_of` utilities i) as Htake
      by (intros l Hl; etrans; [exact Hl | apply sublist_take]).
  destruct (viewportBounds _) as [b|], a as [ids|].
  - etrans; [apply sublist_filter|]. apply Htake, sublist_filter.
  - apply Htake, sublist_filter.
  - apply Htake, sublist_filter.
  - by apply Htake.
Qed.

Lemma mount_step s :
  reachable s →
  ∃ s', step MountTimer s = Normal s'
        ∧ utilities (inp s') = utilities (inp s)
        ∧ isLoading (gt s') = isLoading (gt s)
        ∧ mountedCount (inp s') =
          Nat.min (mountedCount (inp s) + MOUNT_BATCH) (length (utilities (inp s)))
          `max` mountedCount (inp s).
Proof.
  intros Hr. destruct (reachable_ok s Hr) as (ms & Hms & _).
  cbn [step]. case_bool_decide as Hlt.
  - destruct (eligible_total_mounted (inp s)
                (Nat.min (mountedCount (inp s) + MOUNT_BATCH) (length (utilities (inp s))))
                ms Hms) as [ms' Hms'].
    destruct (commit_total true
                (with_inputs
                   (set_mountedCount
                      (Nat.min (mountedCount (inp s) + MOUNT_BATCH)
                               (length (utilities (inp s)))) (inp s)) s) ms' Hms')
      as [s' Hc].
    exists s'. split; [done|].
    rewrite (commit_inp _ _ _ Hc), (commit_isLoading _ _ _ Hc).
    cbn [with_inputs inp gt set_mountedCount utilities mountedCount].
    split_and!; [done | done | lia].
  - exists s. split_and!; [done | done | done | lia].
Qed.

End LaunchFacts.

Module LaunchChain.
Import Entities MapScreen RenderSetFacts ScreenFacts GrowthFacts GateFacts GrowthChain RefreshFacts LaunchFacts.

Lemma run_app es1 es2 s : run (es1 ++ es2) s = (s' ← run es1 s; run es2 s').
Proof.
  revert s. induction es1 as [|e es1 IH]; intros s; [done|].
  cbn [app run]. destruct (step e s) as [s1|err]; [apply IH | done].
Qed.

Lemma run_app_Normal es1 es2 s s1 :
  run es1 s = Normal s1 → run (es1 ++ es2) s = run es2 s1.
Proof. intros H. by rewrite run_app, H. Qed.

Lemma run_reachable es s s' : reachable s → run es s = Normal s' → reachable s'.
Proof.
  revert s. induction es as [|e es IH]; intros s Hr Hrun; cbn [run] in Hrun.
  - apply Normal_inj in Hrun. by subst.
  - inv_bind Hrun. eapply IH; [|done]. by eapply reachable_step.
Qed.

Lemma mount_run k s :
  reachable s →
  ∃ s', run (replicate k MountTimer) s = Normal s'
        ∧ utilities (inp s') = utilities (inp s)
        ∧ isLoading (gt s') = isLoading (gt s)
        ∧ Nat.min (mountedCount (inp s) + k * MOUNT_BATCH) (length (utilities (inp s)))
          ≤ mountedCount (inp s').
Proof.
  revert s. induction k as [|k IH]; intros s Hr.
  { exists s. cbn [replicate run]. split_and!; [done..|lia]. }
  destruct (mount_step s Hr) as (s1 & Hstep & Hu & Hl & Hm).
  destruct (IH s1 (reachable_step _ _ _ Hr Hstep)) as (s' & Hrun & Hu' & Hl' & Hm').
  exists s'. cbn [replicate run]. rewrite Hstep.
  cbn [mret mbind completion_ret completion_bind].
  split_and!; [done | congruence | congruence |].
  rewrite Hu in Hm'. lia.
Qed.

Lemma step_growth_isLoading s s' :
  step GrowthTimer s = Normal s' → isLoading (gt s') = isLoading (gt s).
Proof.
  cbn [step]. intros H. inv_bind H.
  destruct (growthPending _ _); [|apply Normal_inj in H; by subst].
  by rewrite (commit_isLoading _ _ _ H).
Qed.

Lemma run_growth_isLoading n s s' :
  run (replicate n GrowthTimer) s = Normal s' → isLoading (gt s') = isLoading (gt s).
Proof.
  revert s. induction n as [|n IH]; intros s Hrun; cbn [replicate run] in Hrun.
  - apply Normal_inj in Hrun. by subst.
  - inv_bind Hrun. rewrite (IH _ Hrun). by apply step_growth_isLoading.
Qed.

Lemma render_complete_fires s ms :
  eligible (inp s) = Normal ms →
  isLoading (gt s) = false → gateTimer (gt s) = true →
  length (utilities (inp s)) ≤ mountedCount (inp s) →
  growthTarget ms ≤ size (renderedIds (rset s)) →
  ∃ s', step RenderCompleteTimer s = Normal s'
        ∧ inp s' = inp s ∧ rset s' = rset s
        ∧ renderComplete (gt s') = true
        ∧ initialLoadComplete (gt s') = true.
Proof.
  intros Hms Hl Hg Hm Ht. cbn [step]. rewrite Hg.
  unfold commit. cbn [with_gate inp gt rset set_renderComplete prevUtilitiesLen
                        isLoading renderComplete initialLoadComplete gateTimer].
  rewrite Hms. cbn [mret mbind completion_ret completion_bind].
  eexists. split; [reflexivity|]. cbn [inp rset gt].
  split; [done|]. split; [done|].
  unfold gateEffect, set_renderComplete.
  cbn [isLoading renderComplete initialLoadComplete gateTimer].
  rewrite Hl. cbn [orb negb andb].
  rewrite (bool_decide_eq_false_2 (mountedCount (inp s) < length (utilities (inp s)))) by lia.
  rewrite (bool_decide_eq_false_2 (size (renderedIds (rset s)) < growthTarget ms)) by lia.
  rewrite andb_false_r. cbn [orb]. unfold markInitialLoad. cbn [negb andb].
  by cbn [renderComplete initialLoadComplete].
Qed.

(** X7 -- The launch completes.  From a reachable state in which the store
    is not loading and the entities have pairwise distinct identifiers,
    enough firings of the mount timer and of the growth timer followed by the
    gate's timer run without a throw and hide the overlay: every entity is
    mounted, [renderComplete] is set and the initial load is marked. *)
Theorem launch_completes k n s :
  reachable s → isLoading (gt s) = false →
  NoDup (id <$> utilities (inp s)) →
  length (utilities (inp s)) ≤ k * MOUNT_BATCH →
  MAX_RENDERED ≤ n * RENDER_BATCH →
  ∃ s', run (replicate k MountTimer ++ replicate n GrowthTimer ++ [RenderCompleteTimer]) s
        = Normal s'
        ∧ utilities (inp s') = utilities (inp s)
        ∧ mountedCount (inp s') = length (utilities (inp s'))
        ∧ renderComplete (gt s') = true
        ∧ showLoadingOverlay (gt s') = false.
Proof.
  intros Hr Hl Hnd Hk Hn.
  destruct (mount_run k s Hr) as (s1 & Hrun1 & Hu1 & Hl1 & Hm1).
  pose proof (run_reachable _ _ _ Hr Hrun1) as Hr1.
  destruct (reachable_ok s1 Hr1) as (ms & Hms & Hsub & Hsz).
  assert (NoDup (id <$> ms)) as Hndms.
  { eapply sublist_NoDup; [exact Hnd|]. rewrite <- Hu1.
    apply fmap_sublist. by apply eligible_sublist. }
  destruct (growth_chain_settles_aux n s1 ms Hr1 Hms Hndms Hn)
    as (s2 & Hrun2 & Hinp2 & Hpend).
  pose proof (run_reachable _ _ _ Hr1 Hrun2) as Hr2.
  pose proof (run_growth_isLoading _ _ _ Hrun2) as Hl2.
  rewrite <- Hinp2 in Hms.
  assert (length (utilities (inp s2)) ≤ mountedCount (inp s2)) as Hm2
      by (rewrite Hinp2, Hu1; lia).
  assert (growthTarget ms ≤ size (renderedIds (rset s2))) as Ht2.
  { unfold growthPending in Hpend. by apply negb_false_iff, bool_decide_eq_true in Hpend. }
  assert (isLoading (gt s2) = false) as Hl2' by congruence.
  pose proof (reachable_gateTimer s2 ms Hr2 Hms Hl2' Hm2 Ht2) as Hg2.
  destruct (render_complete_fires s2 ms Hms Hl2' Hg2 Hm2 Ht2)
    as (s3 & Hstep3 & Hinp3 & _ & Hrc3 & Hilc3).
  exists s3.
  rewrite (run_app_Normal _ _ _ _ Hrun1), (run_app_Normal _ _ _ _ Hrun2).
  cbn [run]. rewrite Hstep3.
  split_and!; [done | by rewrite Hinp3, Hinp2 | | done |].
  - rewrite Hinp3.
    pose proof (reachable_mounted_le s2 Hr2). lia.
  - unfold showLoadingOverlay. by rewrite Hilc3.
Qed.

End LaunchChain.

Module ViewportFacts.
Import Entities MapScreen RenderSetFacts ScreenFacts LaunchFacts RegionDebounce.

Lemma SFeqb_refl_nan f : SFeqb f f = false → f = S754_nan.
Proof.
  destruct f as [s|s| |s m e]; unfold SFeqb, SFcompare; [done| |done|].
  - by destruct s.
  - rewrite Z.compare_refl, Pos.compare_cont_refl. by destruct s.
Qed.

Lemma is_nan_Prim2SF x : PrimFloat.is_nan x = true → Prim2SF x = S754_nan.
Proof.
  unfold PrimFloat.is_nan. intros H%negb_true_iff.
  rewrite FloatAxioms.eqb_spec in H. by apply SFeqb_refl_nan.
Qed.

Lemma leb_nan_r x y : PrimFloat.is_nan y = true → PrimFloat.leb x y = false.
Proof.
  intros Hy. rewrite leb_spec, (is_nan_Prim2SF y Hy).
  unfold SFleb, SFcompare. by destruct (Prim2SF x).
Qed.

Lemma leb_nan_l x y : PrimFloat.is_nan x = true → PrimFloat.leb x y = false.
Proof.
  intros Hx. rewrite leb_spec, (is_nan_Prim2SF x Hx). reflexivity.
Qed.

Lemma inViewport_nan b u :
  PrimFloat.is_nan (latitude u) = true ∨ PrimFloat.is_nan (longitude u) = true →
  inViewport b u = false.
Proof.
  unfold inViewport. intros [H|H].
  - by rewrite (leb_nan_r _ _ H).
  - by rewrite (leb_nan_r _ _ H), andb_false_r.
Qed.

(** X9 -- NaN coordinates are culled.  Once the map has a region, an
    entity whose latitude or longitude is NaN is never eligible: every
    comparison against the viewport bounds fails, whatever the viewport. *)
Theorem nan_coordinates_never_eligible i ms u :
  eligible i = Normal ms → mapRegion i ≠ None → u ∈ ms →
  PrimFloat.is_nan (latitude u) = false ∧ PrimFloat.is_nan (longitude u) = false.
Proof.
  intros Hms Hreg Hu.
  destruct (ReconcilerClaims.eligible_spec i ms Hms) as (fs & _ & Hspec).
  destruct (Hspec u Hu) as (_ & Hb & _).
  destruct (mapRegion i) as [r|] eqn:Hr; [|done].
  specialize (Hb _ eq_refl).
  destruct (PrimFloat.is_nan (latitude u)) eqn:Hlat.
  { rewrite inViewport_nan in Hb; [done | by left]. }
  destruct (PrimFloat.is_nan (longitude u)) eqn:Hlng; [|done].
  rewrite inViewport_nan in Hb; [done | by right].
Qed.

(** X10 -- Collection order.  The eligible markers are a subsequence of
    the store's collection, through mounting, culling and filtering, and the
    mounted markers are a subsequence of the eligible ones. *)
Theorem markers_in_collection_order i ms rs :
  eligible i = Normal ms →
  ms `sublist_of` utilities i ∧ finalMarkers ms rs `sublist_of` ms.
Proof.
  intros Hms. split; [by apply eligible_sublist | apply sublist_filter].
Qed.

Lemma map_step_debounced r d s :
  firstRegionFired d = true →
  map_step (RegionChangeComplete r) (d, s)
  = Normal ({| firstRegionFired := true; regionDebounce := Some r |}, s).
Proof.
  intros Hd. unfold map_step, handleRegionChangeComplete. cbn [fst snd].
  rewrite Hd. reflexivity.
Qed.

Lemma map_run_burst rs r d s :
  firstRegionFired d = true →
  map_run (RegionChangeComplete <$> (rs ++ [r])) (d, s)
  = Normal ({| firstRegionFired := true; regionDebounce := Some r |}, s).
Proof.
  revert d. induction rs as [|r0 rs IH]; intros d Hd.
  - cbn [app fmap list_fmap map_run]. by rewrite (map_step_debounced r d s Hd).
  - cbn [app fmap list_fmap map_run]. rewrite (map_step_debounced r0 d s Hd).
    cbn [mret mbind completion_ret completion_bind]. by apply IH.
Qed.

Lemma map_run_app es1 es2 ds :
  map_run (es1 ++ es2) ds = (ds' ← map_run es1 ds; map_run es2 ds').
Proof.
  revert ds. induction es1 as [|e es1 IH]; intros ds; [done|].
  cbn [app map_run]. destruct (map_step e ds) as [ds1|err]; [apply IH | done].
Qed.

(** X11 -- The region debounce.  The first region the map reports is
    applied at once; of a later burst of reports with no timer firing in
    between, only the last region reaches [setMapRegion], once, when the
    timer fires. *)
Theorem region_debounce_last_wins rs r d s :
  (firstRegionFired d = false →
   map_step (RegionChangeComplete r) (d, s)
   = (s' ← step (SetMapRegion r) s;
      mret ({| firstRegionFired := true; regionDebounce := regionDebounce d |}, s')))
  ∧ (firstRegionFired d = true →
     map_run ((RegionChangeComplete <$> (rs ++ [r])) ++ [DebounceTimer]) (d, s)
     = (s' ← step (SetMapRegion r) s;
        mret ({| firstRegionFired := true; regionDebounce := None |}, s'))).
Proof.
  split; intros Hd.
  - unfold map_step, handleRegionChangeComplete. cbn [fst snd]. by rewrite Hd.
  - rewrite map_run_app, (map_run_burst rs r d s Hd).
    cbn [mbind completion_bind map_run]. unfold map_step, debounceFires.
    cbn [fst snd regionDebounce firstRegionFired setMapRegion].
    by destruct (step (SetMapRegion r) s).
Qed.

End ViewportFacts.

(* ===================================================================== *)
(** * The store *)
(* ===================================================================== *)

Module JSMapFacts.

Section JSMapFacts.
Context {K V : Type} `{EqDecision K}.
Implicit Types (m : list (K * V)) (k : K) (v : V).

Lemma set_keys_in k v m : k ∈ m.*1 → (JSMap.set k v m).*1 = m.*1.
Proof.
  induction m as [|[k' v'] m IH]; [by intros ?%elem_of_nil|].
  cbn [JSMap.set fmap list_fmap fst]. destruct (decide (k' = k)) as [->|Hne]; [done|].
  intros [?|Hin]%elem_of_cons; [congruence|].
  cbn [fmap list_fmap fst]. f_equal. by apply IH.
Qed.

Lemma set_keys_fresh k v m : k ∉ m.*1 → (JSMap.set k v m).*1 = m.*1 ++ [k].
Proof.
  induction m as [|[k' v'] m IH]; [done|].
  cbn [JSMap.set fmap list_fmap fst]. intros Hnin.
  apply not_elem_of_cons in Hnin as [Hne Hnin].
  destruct (decide (k' = k)) as [->|_]; [done|].
  cbn [fmap list_fmap fst app]. f_equal. by apply IH.
Qed.

Lemma set_NoDup k v m : NoDup m.*1 → NoDup (JSMap.set k v m).*1.
Proof.
  intros Hnd. destruct (decide (k ∈ m.*1)) as [Hin|Hnin].
  - by rewrite set_keys_in.
  - rewrite set_keys_fresh by done. apply NoDup_app. split_and!; [done| |apply NoDup_singleton].
    intros x Hx ->%list_elem_of_singleton. done.
Qed.

Lemma elem_of_set k v m k' v' :
  NoDup m.*1 →
  (k', v') ∈ JSMap.set k v m ↔ (k' = k ∧ v' = v) ∨ (k' ≠ k ∧ (k', v') ∈ m).
Proof.
  induction m as [|[k0 v0] m IH]; intros Hnd.
  { cbn [JSMap.set]. rewrite list_elem_of_singleton. split.
    - intros [= -> ->]. by left.
    - intros [[-> ->]|[_ ?%elem_of_nil]]; done. }
  cbn [fmap list_fmap fst] in Hnd. apply NoDup_cons in Hnd as [Hk0 Hnd].
  cbn [JSMap.set]. destruct (decide (k0 = k)) as [->|Hne].
  - rewrite !elem_of_cons. split.
    + intros [[= -> ->]|Hin]; [by left|]. right. split; [|by right].
      intros ->. apply Hk0. apply list_elem_of_fmap. by exists (k, v').
    + intros [[-> ->]|[Hne [[= ? ?]|Hin]]]; [by left | congruence | by right].
  - rewrite !elem_of_cons, (IH Hnd). split.
    + intros [[= -> ->]|[[-> ->]|[Hne' Hin]]].
      * right. split; [done | by left].
      * by left.
      * right. split; [done | by right].
    + intros [[-> ->]|[Hne' [[= -> ->]|Hin]]].
      * right. by left.
      * by left.
      * right. right. done.
Qed.

Lemma set_fresh k v m : k ∉ m.*1 → JSMap.set k v m = m ++ [(k, v)].
Proof.
  induction m as [|[k' v'] m IH]; [done|].
  cbn [JSMap.set fmap list_fmap fst]. intros Hnin.
  apply not_elem_of_cons in Hnin as [Hne Hnin].
  destruct (decide (k' = k)) as [->|_]; [done|].
  cbn [app]. f_equal. by apply IH.
Qed.

(** Two maps with the same keys in the same order, the second holding
    every entry of the first, are the same map. *)
Lemma entries_ext m1 m2 :
  NoDup m1.*1 → m1.*1 = m2.*1 → (∀ kv, kv ∈ m1 → kv ∈ m2) → m1 = m2.
Proof.
  revert m2. induction m1 as [|[k v1] m1 IH]; intros [|[k2 v2] m2] Hnd Hkeys Hsub;
    cbn [fmap list_fmap fst] in *; try done.
  injection Hkeys as <- Hkeys. apply NoDup_cons in Hnd as [Hk Hnd].
  assert (v1 = v2) as <-.
  { specialize (Hsub (k, v1) (list_elem_of_here _ _)).
    apply elem_of_cons in Hsub as [[= ->]|Hin]; [done|].
    exfalso. apply Hk. rewrite Hkeys. apply list_elem_of_fmap. by exists (k, v1). }
  f_equal. apply IH; [done|done|].
  intros kv Hkv. specialize (Hsub kv (list_elem_of_further _ _ _ Hkv)).
  apply elem_of_cons in Hsub as [->|Hin]; [|done].
  exfalso. apply Hk. apply list_elem_of_fmap. by exists (k, v1).
Qed.

End JSMapFacts.

End JSMapFacts.

Module StoreFacts.
Import Entities UtilityStore StoreActions JSMapFacts.

Lemma upsert_cons m u us : upsert m (u :: us) = upsert (JSMap.set (id u) u m) us.
Proof. reflexivity. Qed.

Lemma upsert_app m us1 us2 : upsert m (us1 ++ us2) = upsert (upsert m us1) us2.
Proof. unfold upsert. apply foldl_app. Qed.

Lemma of_entries_upsert us : JSMap.of_entries ((λ u, (id u, u)) <$> us) = upsert [] us.
Proof.
  unfold JSMap.of_entries, upsert. generalize ([] : list (entity_id * Utility)).
  induction us as [|u us IH]; intros m; [done|]. cbn [fmap list_fmap foldl fst snd]. apply IH.
Qed.

Lemma set_keyed u m : keyed m → keyed (JSMap.set (id u) u m).
Proof.
  unfold keyed. induction m as [|[k v] m IH]; intros Hm.
  { cbn [JSMap.set]. by repeat constructor. }
  apply Forall_cons in Hm as [Hkv Hm]. cbn [JSMap.set].
  destruct (decide (k = id u)) as [->|Hne]; constructor; auto.
Qed.

Lemma upsert_keyed m us : keyed m → keyed (upsert m us).
Proof.
  revert m. induction us as [|u us IH]; intros m Hm; [done|].
  rewrite upsert_cons. by apply IH, set_keyed.
Qed.

Lemma upsert_NoDup m us : NoDup m.*1 → NoDup (upsert m us).*1.
Proof.
  revert m. induction us as [|u us IH]; intros m Hm; [done|].
  rewrite upsert_cons. by apply IH, set_NoDup.
Qed.

Lemma last_version_cons i u us :
  last_version i (u :: us) =
  match last_version i us with
  | Some v => Some v
  | None => if decide (id u = i) then Some u else None
  end.
Proof.
  unfold last_version. rewrite filter_cons.
  destruct (decide (id u = i)) as [Heq|Hne]; [|by destruct (last _)].
  destruct (filter _ us) as [|w ws] eqn:Hf; [done|].
  by rewrite last_cons.
Qed.

Lemma last_version_None i us : last_version i us = None ↔ ∀ u, u ∈ us → id u ≠ i.
Proof.
  unfold last_version. rewrite last_None. split.
  - intros Hf u Hu Hid. assert (u ∈ filter (λ u, id u = i) us) as Hin
        by by apply list_elem_of_filter.
    rewrite Hf in Hin. by apply elem_of_nil in Hin.
  - intros Hall. destruct (filter _ us) as [|w ws] eqn:Hf; [done|].
    assert (w ∈ filter (λ u, id u = i) us) as Hin by (rewrite Hf; apply list_elem_of_here).
    apply list_elem_of_filter in Hin as [Hid Hw]. by destruct (Hall w Hw).
Qed.

Lemma last_version_Some i us v : last_version i us = Some v → v ∈ us ∧ id v = i.
Proof.
  unfold last_version. intros Hl.
  assert (v ∈ filter (λ u, id u = i) us) as Hin.
  { apply last_Some in Hl as [l' ->]. apply elem_of_app. right. apply list_elem_of_here. }
  apply list_elem_of_filter in Hin as [? ?]. done.
Qed.

Lemma last_version_app i us1 us2 :
  last_version i (us1 ++ us2) =
  match last_version i us2 with
  | Some v => Some v
  | None => last_version i us1
  end.
Proof.
  induction us1 as [|u us1 IH]; [cbn [app]; by destruct (last_version i us2)|].
  cbn [app]. rewrite !last_version_cons, IH. by destruct (last_version i us2).
Qed.

(** The entries a sequence of upserts leaves. *)
Lemma elem_of_upsert m us k v :
  NoDup m.*1 →
  (k, v) ∈ upsert m us ↔
  last_version k us = Some v ∨ (last_version k us = None ∧ (k, v) ∈ m).
Proof.
  revert m. induction us as [|u us IH]; intros m Hnd.
  { cbn [upsert foldl]. unfold last_version. cbn. naive_solver. }
  rewrite upsert_cons, (IH _ (set_NoDup _ _ _ Hnd)), last_version_cons.
  rewrite (elem_of_set _ _ _ _ _ Hnd).
  destruct (last_version k us) as [w|] eqn:Hl.
  - split; [intros [?|[? _]]; [by left|done] | intros [?|[? _]]; [by left|done]].
  - destruct (decide (id u = k)) as [Heq|Hne].
    + split.
      * intros [?|[_ [[_ ->]|[Hne _]]]]; [done|by left|congruence].
      * intros [[= ->]|[? _]]; [|done]. right. split; [done|]. left. done.
    + split.
      * intros [?|[_ [[-> _]|[_ Hin]]]]; [done|done|]. by right.
      * intros [?|[_ Hin]]; [done|]. right. split; [done|]. right. split; [congruence|done].
Qed.

Lemma keyed_ids m : keyed m → id <$> JSMap.values m = m.*1.
Proof.
  unfold keyed, JSMap.values. induction 1 as [|[k v] m Hkv _ IH]; [done|].
  cbn [fmap list_fmap fst snd] in *. by rewrite IH, Hkv.
Qed.

Lemma keyed_entries m : keyed m → (λ u, (id u, u)) <$> JSMap.values m = m.
Proof.
  unfold keyed, JSMap.values. induction 1 as [|[k v] m Hkv _ IH]; [done|].
  cbn [fmap list_fmap fst snd] in *. by rewrite IH, Hkv.
Qed.

Lemma elem_of_values m u : keyed m → u ∈ JSMap.values m ↔ (id u, u) ∈ m.
Proof.
  intros Hm. unfold JSMap.values. rewrite list_elem_of_fmap. split.
  - intros ([k v] & -> & Hin). cbn [snd].
    unfold keyed in Hm. rewrite Forall_forall in Hm.
    specialize (Hm _ Hin). cbn [fst snd] in Hm. by subst k.
  - intros Hin. by exists (id u, u).
Qed.

(** The map [mergeUtilities] ends with. *)
Lemma merged_map newUtilities st :
  upsert (JSMap.of_entries ((λ u, (id u, u)) <$> utilities st)) newUtilities
  = upsert [] (utilities st ++ newUtilities).
Proof. by rewrite of_entries_upsert, upsert_app. Qed.

Lemma upsert_nil_keyed us : keyed (upsert [] us).
Proof. apply upsert_keyed. constructor. Qed.

Lemma upsert_nil_NoDup us : NoDup (upsert [] us).*1.
Proof. apply upsert_NoDup. constructor. Qed.

Lemma elem_of_upsert_nil us k v : (k, v) ∈ upsert [] us ↔ last_version k us = Some v.
Proof.
  rewrite elem_of_upsert by constructor. split; [|by left].
  intros [?|[_ ?%elem_of_nil]]; done.
Qed.

(** Upserting entities whose identifiers are all fresh appends them. *)
Lemma upsert_fresh m us :
  NoDup (id <$> us) → (∀ u, u ∈ us → id u ∉ m.*1) →
  upsert m us = m ++ ((λ u, (id u, u)) <$> us).
Proof.
  revert m. induction us as [|u us IH]; intros m Hnd Hfresh.
  { cbn [upsert foldl fmap list_fmap]. by rewrite app_nil_r. }
  cbn [fmap list_fmap] in Hnd. apply NoDup_cons in Hnd as [Hu Hnd].
  rewrite upsert_cons, set_fresh by (apply Hfresh, list_elem_of_here).
  rewrite IH; [by rewrite <- app_assoc|done|].
  intros v Hv. rewrite fmap_app. cbn [fmap list_fmap fst].
  intros [Hin|Hin%list_elem_of_singleton]%elem_of_app.
  - by apply (Hfresh v (list_elem_of_further _ _ _ Hv)).
  - apply Hu. rewrite <- Hin. apply list_elem_of_fmap. by exists v.
Qed.

(** X12 -- [mergeUtilities] is an upsert by identifier.  Whatever the
    store held, the merged collection has pairwise distinct identifiers; it
    holds, for each identifier of the old collection or of the new entities,
    exactly the last entity with that identifier (a new one wins over an old
    one); and the error is cleared while the loading flag and the fetch time
    stay. *)
Theorem mergeUtilities_upsert newUtilities st :
  NoDup (id <$> utilities (mergeUtilities newUtilities st))
  ∧ (∀ u, u ∈ utilities (mergeUtilities newUtilities st) ↔
          last_version (id u) (utilities st ++ newUtilities) = Some u)
  ∧ error (mergeUtilities newUtilities st) = None
  ∧ isLoading (mergeUtilities newUtilities st) = isLoading st
  ∧ lastFetchTimestamp (mergeUtilities newUtilities st) = lastFetchTimestamp st.
Proof.
  unfold mergeUtilities. cbn [utilities error isLoading lastFetchTimestamp].
  rewrite merged_map. split_and!; [| |done..].
  - rewrite keyed_ids by apply upsert_nil_keyed. apply upsert_nil_NoDup.
  - intros u. rewrite elem_of_values by apply upsert_nil_keyed.
    apply elem_of_upsert_nil.
Qed.

(** X13 -- Merging is idempotent: merging the same entities a second time
    changes nothing, neither the entities nor their order. *)
Theorem mergeUtilities_idempotent newUtilities st :
  mergeUtilities newUtilities (mergeUtilities newUtilities st)
  = mergeUtilities newUtilities st.
Proof.
  unfold mergeUtilities at 1 3. cbn [utilities error isLoading lastFetchTimestamp].
  f_equal. f_equal. unfold mergeUtilities. cbn [utilities].
  rewrite !merged_map.
  set (L := utilities st ++ newUtilities).
  set (M := upsert [] L).
  assert (keyed M) as HkM by apply upsert_nil_keyed.
  assert (NoDup M.*1) as HndM by apply upsert_nil_NoDup.
  rewrite of_entries_upsert.
  assert (upsert [] (JSMap.values M) = M) as ->.
  { rewrite (upsert_fresh [] (JSMap.values M)).
    - cbn [app]. by apply keyed_entries.
    - by rewrite keyed_ids.
    - intros u _ Hin. by apply elem_of_nil in Hin. }
  assert (∀ k v, (k, v) ∈ upsert M newUtilities ↔ (k, v) ∈ M) as Hsame.
  { intros k v. rewrite (elem_of_upsert _ _ _ _ HndM).
    unfold M at 2. rewrite elem_of_upsert_nil. unfold L. rewrite last_version_app.
    destruct (last_version k newUtilities) as [w|] eqn:Hl.
    - split; [intros [?|[? _]]; done | by left].
    - unfold M. rewrite elem_of_upsert_nil. unfold L. rewrite last_version_app, Hl.
      split; [intros [?|[_ ?]]; done | by right]. }
  apply entries_ext.
  - by apply upsert_NoDup.
  - clear Hsame. assert (∀ u, u ∈ newUtilities → id u ∈ M.*1) as Hin.
    { intros u Hu. destruct (last_version (id u) L) as [w|] eqn:Hl.
      - apply elem_of_upsert_nil in Hl. apply list_elem_of_fmap. by exists (id u, w).
      - exfalso. pose proof (proj1 (last_version_None _ _) Hl) as Hnone.
        apply (Hnone u); [|done]. apply elem_of_app. by right. }
    revert Hin. generalize M. clear.
    induction newUtilities as [|u us IH]; intros M Hin; [done|].
    rewrite upsert_cons, IH.
    + apply set_keys_in, Hin, list_elem_of_here.
    + intros v Hv. rewrite set_keys_in by apply Hin, list_elem_of_here.
      apply Hin. by apply list_elem_of_further.
  - intros [k v]. apply Hsame.
Qed.

Lemma filter_idemp {A} (P : A → Prop) `{!∀ x, Decision (P x)} (l : list A) :
  filter P (filter P l) = filter P l.
Proof.
  induction l as [|x l IH]; [done|]. rewrite (filter_cons P x l).
  destruct (decide (P x)) as [Hx|Hx]; [|done].
  rewrite filter_cons_True by done. by rewrite IH.
Qed.

(** X14 -- A failed action leaves the collection alone and says so.  When
    the API call of [searchUtilities], [createUtility], [updateUtility],
    [deleteUtility] or [reportUtility] rejects, the entities and the fetch
    time are what they were, the error holds the action's message, and the
    four actions that raise the loading flag have lowered it again;
    [createUtility] returns null. *)
Theorem failed_action_keeps_collection reason now i st :
  let failed (msg : string) (st' : state) :=
    utilities st' = utilities st
    ∧ lastFetchTimestamp st' = lastFetchTimestamp st
    ∧ error st' = Some msg in
  (failed "Failed to search utilities" (searchUtilities now (Rejected reason) st)
   ∧ isLoading (searchUtilities now (Rejected reason) st) = false)
  ∧ (failed "Failed to create utility" (createUtility (Rejected reason) st).1
     ∧ isLoading (createUtility (Rejected reason) st).1 = false
     ∧ (createUtility (Rejected reason) st).2 = None)
  ∧ (failed "Failed to update utility" (updateUtility i (Rejected reason) st)
     ∧ isLoading (updateUtility i (Rejected reason) st) = false)
  ∧ (failed "Failed to delete utility" (deleteUtility i (Rejected reason) st)
     ∧ isLoading (deleteUtility i (Rejected reason) st) = false)
  ∧ (failed "Failed to report utility" (reportUtility (Rejected reason) st)
     ∧ isLoading (reportUtility (Rejected reason) st) = isLoading st).
Proof. cbv zeta. repeat split. Qed.

(** X15 -- What a successful update or delete touches.  [updateUtility]
    keeps the length and the order of the collection and replaces exactly
    the entities whose identifier is the given string; [deleteUtility] keeps
    exactly the others, in order, and a second delete changes nothing more.
    Identifiers are compared strictly, so an entity with a numeric
    identifier is never replaced or removed.  Both clear the error and lower
    the loading flag. *)
Theorem update_delete_by_string_id i updated st :
  (utilities (updateUtility i (Fulfilled updated) st)
   = (λ u, if bool_decide (id u = IdStr i) then updated else u) <$> utilities st
   ∧ length (utilities (updateUtility i (Fulfilled updated) st)) = length (utilities st)
   ∧ error (updateUtility i (Fulfilled updated) st) = None
   ∧ isLoading (updateUtility i (Fulfilled updated) st) = false)
  ∧ (utilities (deleteUtility i (Fulfilled ()) st) `sublist_of` utilities st
     ∧ (∀ u, u ∈ utilities (deleteUtility i (Fulfilled ()) st) ↔
             u ∈ utilities st ∧ id u ≠ IdStr i)
     ∧ utilities (deleteUtility i (Fulfilled ())
                    (deleteUtility i (Fulfilled ()) st))
       = utilities (deleteUtility i (Fulfilled ()) st)
     ∧ error (deleteUtility i (Fulfilled ()) st) = None
     ∧ isLoading (deleteUtility i (Fulfilled ()) st) = false)
  ∧ (∀ n k u, utilities st !! k = Some u → id u = IdNum n →
              utilities (updateUtility i (Fulfilled updated) st) !! k = Some u
              ∧ u ∈ utilities (deleteUtility i (Fulfilled ()) st)).
Proof.
  unfold updateUtility, deleteUtility, id_is.
  cbn [utilities error isLoading setLoading setError set_utilities].
  split; [|split].
  - split_and!; [done | by rewrite length_fmap | done | done].
  - split_and!; [apply sublist_filter | | apply filter_idemp | done | done].
    intros u. rewrite list_elem_of_filter, bool_decide_eq_false. tauto.
  - intros n k u Hk Hid. split.
    + rewrite list_lookup_fmap, Hk. cbn [fmap option_fmap option_map].
      by rewrite (bool_decide_eq_false_2 (id u = IdStr i)) by (rewrite Hid; discriminate).
    + apply list_elem_of_filter. split.
      * apply bool_decide_eq_false. rewrite Hid. discriminate.
      * by eapply list_elem_of_lookup_2.
Qed.

End StoreFacts.

Module PersistFacts.
Import Entities UtilityStore StorePersist.


Lemma elem_of_userCreated bundled p u :
  u ∈ userCreated bundled p ↔
  u ∈ default [] (p ≫= p_utilities) ∧ id u ∉ id <$> bundled.
Proof.
  unfold userCreated. rewrite list_elem_of_filter, elem_of_list_to_set. tauto.
Qed.

(** X17 -- Rehydration never duplicates a bundled entity.  Whatever
    storage holds, the merged collection starts with the current entities,
    and every entity after them is a persisted one whose identifier is not
    bundled; so when the current collection is the bundled one and both it
    and the persisted entities have pairwise distinct identifiers, so has
    the merged collection. *)
Theorem rehydrate_keeps_bundled bundled p current :
  (∃ added, utilities (store (merge bundled p current))
            = utilities (store current) ++ added
            ∧ ∀ u, u ∈ added →
                   u ∈ default [] (p ≫= p_utilities) ∧ id u ∉ id <$> bundled)
  ∧ (utilities (store current) = bundled →
     NoDup (id <$> bundled) →
     NoDup (id <$> default [] (p ≫= p_utilities)) →
     NoDup (id <$> utilities (store (merge bundled p current)))).
Proof.
  assert (utilities (store (merge bundled p current))
          = utilities (store current) ++ userCreated bundled p) as Heq.
  { unfold merge. cbn [store utilities]. case_bool_decide as Hlen; [done|].
    destruct (userCreated bundled p); [by rewrite app_nil_r | cbn [length] in Hlen; lia]. }
  split.
  - exists (userCreated bundled p). split; [done|].
    intros u Hu. by apply elem_of_userCreated.
  - intros Hcur Hb Hp. rewrite Heq, Hcur, fmap_app. apply NoDup_app. split_and!.
    + done.
    + intros i Hi (u & -> & Hu)%list_elem_of_fmap.
      apply elem_of_userCreated in Hu as [_ Hu]. done.
    + eapply sublist_NoDup; [exact Hp|]. apply fmap_sublist. apply sublist_filter.
Qed.

End PersistFacts.

(* ===================================================================== *)
(** * The API service *)
(* ===================================================================== *)

Module ApiFacts.
Import UtilityStore ApiService.

(** X18 -- Each source gets its own answer.  Whatever subset of the three
    sources is requested and however each call settles, the [hrsa], [va]
    and [usda] lists of the answer are the values of the HRSA, VA and USDA
    calls when requested and fulfilled, and empty otherwise: the positional
    bookkeeping never attributes one source's facilities to another, and a
    rejected call empties its own list only. *)
Theorem facilities_attributed {A} (healthCenters vaFacilities usdaFacilities : settled (list A))
        (includeHRSA includeVA includeUSDA : bool) :
  getAllGovernmentFacilities healthCenters vaFacilities usdaFacilities
                             includeHRSA includeVA includeUSDA
  = {| hrsa := contribution includeHRSA healthCenters;
       va := contribution includeVA vaFacilities;
       usda := contribution includeUSDA usdaFacilities |}.
Proof.
  destruct includeHRSA, includeVA, includeUSDA,
    healthCenters, vaFacilities, usdaFacilities; reflexivity.
Qed.

End ApiFacts.

(* ===================================================================== *)
(** * The list search (SearchScreen.tsx) *)
(* ===================================================================== *)

Module SearchScreenFacts.
Import Entities SearchScreen.

Lemma toggleFilter_all prev : toggleFilter "all" prev = [].
Proof. reflexivity. Qed.

Lemma toggleFilter_other k prev :
  k ≠ "all" →
  toggleFilter k prev = if bool_decide (k ∈ prev) then filter (λ f, f ≠ k) prev else prev ++ [k].
Proof.
  intros Hk. unfold toggleFilter.
  destruct (String.eqb_spec k "all") as [->|_]; [done|done].
Qed.

Lemma toggleFilter_ok k prev :
  NoDup prev → "all" ∉ prev →
  NoDup (toggleFilter k prev) ∧ "all" ∉ toggleFilter k prev.
Proof.
  intros Hnd Hall. unfold toggleFilter.
  destruct (String.eqb_spec k "all") as [->|Hk].
  { split; [constructor | by intros ?%elem_of_nil]. }
  case_bool_decide as Hin.
  - split; [by apply NoDup_filter|]. intros [_ ?]%list_elem_of_filter. done.
  - split.
    + apply NoDup_app. split_and!; [done| |apply NoDup_singleton].
      intros x Hx ->%list_elem_of_singleton. done.
    + intros [?|?%list_elem_of_singleton]%elem_of_app; [done|congruence].
Qed.

Lemma filter_ne_fresh (k : string) (prev : list string) :
  k ∉ prev → filter (λ f, f ≠ k) prev = prev.
Proof.
  induction prev as [|x prev IH]; [done|]. intros [Hx Hk]%not_elem_of_cons.
  rewrite filter_cons_True by congruence. by rewrite IH.
Qed.

(** X19 -- The chip selection.  Starting from the empty selection, any
    sequence of chip presses leaves a selection without repetitions that
    never holds the "all" chip and holds pressed chips only; pressing "all"
    empties it; pressing another chip puts it in exactly when it was out;
    and pressing a chip that is out twice in a row restores the selection
    as it was. *)
Theorem chip_selection (presses : list string) (k : string) :
  let selection := foldl (λ prev k, toggleFilter k prev) [] presses in
  NoDup selection
  ∧ ("all" ∉ selection)
  ∧ (∀ x, x ∈ selection → x ∈ presses)
  ∧ toggleFilter "all" selection = []
  ∧ (k ≠ "all" → (k ∈ toggleFilter k selection ↔ k ∉ selection))
  ∧ (k ≠ "all" → k ∉ selection →
     toggleFilter k (toggleFilter k selection) = selection).
Proof.
  cbv zeta.
  assert (∀ init, NoDup init → "all" ∉ init →
                  NoDup (foldl (λ prev k, toggleFilter k prev) init presses)
                  ∧ ("all" ∉ foldl (λ prev k, toggleFilter k prev) init presses)
                  ∧ ∀ x, x ∈ foldl (λ prev k, toggleFilter k prev) init presses →
                         x ∈ init ∨ x ∈ presses) as Hinv.
  { induction presses as [|p ps IH]; intros init Hnd Hall.
    { cbn [foldl]. split_and!; [done|done|]. intros x ?. by left. }
    cbn [foldl]. destruct (toggleFilter_ok p init Hnd Hall) as [Hnd' Hall'].
    destruct (IH _ Hnd' Hall') as (H1 & H2 & H3). split_and!; [done|done|].
    intros x Hx. destruct (H3 x Hx) as [Hx'|Hx']; [|right; by right].
    unfold toggleFilter in Hx'. destruct (String.eqb p "all"); [by apply elem_of_nil in Hx'|].
    case_bool_decide.
    - apply list_elem_of_filter in Hx' as [_ ?]. by left.
    - apply elem_of_app in Hx' as [?|Hx']; [by left|].
      apply list_elem_of_singleton in Hx' as ->. right. by left. }
  destruct (Hinv [] (NoDup_nil_2) (not_elem_of_nil _)) as (Hnd & Hall & Hsub).
  set (selection := foldl _ [] presses) in *.
  split_and!; [done | done | | done | |].
  - intros x Hx. destruct (Hsub x Hx) as [?%elem_of_nil|?]; done.
  - intros Hk. rewrite (toggleFilter_other _ _ Hk). case_bool_decide as Hin.
    + split; [intros [? _]%list_elem_of_filter; done | done].
    + split; [done|]. intros _. apply elem_of_app. right. by apply list_elem_of_singleton.
  - intros Hk Hout. rewrite (toggleFilter_other k selection Hk).
    rewrite (bool_decide_eq_false_2 _ Hout), (toggleFilter_other _ _ Hk).
    rewrite bool_decide_eq_true_2
      by (apply elem_of_app; right; by apply list_elem_of_singleton).
    rewrite filter_app, (filter_ne_fresh _ _ Hout).
    rewrite filter_cons_False by (intros Hne; by apply Hne).
    by rewrite filter_nil, app_nil_r.
Qed.

Lemma is_space_lower c : JS.is_space (JS.lower_ascii c) = JS.is_space c.
Proof. by destruct c as [[] [] [] [] [] [] [] []]. Qed.

Lemma toLowerCase_trimStart s :
  JS.toLowerCase (JS.trimStart s) = JS.trimStart (JS.toLowerCase s).
Proof.
  induction s as [|c s IH]; [done|].
  cbn [JS.trimStart JS.toLowerCase]. rewrite is_space_lower.
  destruct (JS.is_space c); [exact IH | reflexivity].
Qed.

Lemma toLowerCase_rev_app s acc :
  JS.toLowerCase (String.rev_app s acc)
  = String.rev_app (JS.toLowerCase s) (JS.toLowerCase acc).
Proof.
  revert acc. induction s as [|c s IH]; intros acc; [done|].
  cbn [String.rev_app JS.toLowerCase]. by rewrite IH.
Qed.

Lemma toLowerCase_rev s : JS.toLowerCase (String.rev s) = String.rev (JS.toLowerCase s).
Proof. unfold String.rev. by rewrite toLowerCase_rev_app. Qed.

Lemma toLowerCase_trim s : JS.toLowerCase (JS.trim s) = JS.trim (JS.toLowerCase s).
Proof.
  unfold JS.trim.
  by rewrite toLowerCase_rev, toLowerCase_trimStart, toLowerCase_rev, toLowerCase_trimStart.
Qed.

(** X20 -- The list and the map search alike.  With no chip selected and
    no user location, the list screen shows for the text of its search box
    exactly what the map screen's filter yields once that text has been
    submitted (trimmed) with the "all" chip: the same entities in the same
    order, or the same throw.  The list trims after lower-casing, the map
    before; the two commute. *)
Theorem list_search_agrees_with_map sortByDistance us q :
  SearchScreen.filteredUtilities sortByDistance us q None None
  = Entities.filteredUtilities us "all" (JS.trim q).
Proof.
  unfold SearchScreen.filteredUtilities, Entities.filteredUtilities.
  rewrite toLowerCase_trim. reflexivity.
Qed.

Lemma find_key (l : list UtilityType) k f :
  NoDup (key <$> l) →
  find (λ f, String.eqb (key f) k) l = Some f ↔ f ∈ l ∧ key f = k.
Proof.
  induction l as [|g l IH]; intros Hnd.
  { cbn [find]. split; [done | by intros [?%elem_of_nil _]]. }
  cbn [fmap list_fmap] in Hnd. apply NoDup_cons in Hnd as [Hg Hnd].
  cbn [find]. destruct (String.eqb_spec (key g) k) as [Heq|Hne].
  - split.
    + intros [= ->]. split; [apply list_elem_of_here | done].
    + intros [[->|Hin]%elem_of_cons Hk]; [done|].
      exfalso. apply Hg. rewrite Heq, <- Hk. apply list_elem_of_fmap. by exists f.
  - rewrite (IH Hnd). split.
    + intros [? ?]. split; [by apply list_elem_of_further | done].
    + intros [[->|Hin]%elem_of_cons Hk]; [done | done].
Qed.

Lemma UTILITY_TYPES_keys : NoDup (key <$> UTILITY_TYPES).
Proof.
  apply (bool_decide_unpack (NoDup (key <$> UTILITY_TYPES))). vm_compute. exact I.
Qed.

Lemma elem_of_addCategories cats k x :
  x ∈ addCategories cats k ↔
  x ∈ cats ∨ ∃ f, f ∈ UTILITY_TYPES ∧ key f = k ∧ x ∈ categories f.
Proof.
  unfold addCategories.
  destruct (find _ UTILITY_TYPES) as [f|] eqn:Hf.
  - apply (find_key _ _ _ UTILITY_TYPES_keys) in Hf as [Hin Hk].
    rewrite elem_of_union, elem_of_list_to_set. split.
    + intros [?|?]; [by left | right; by exists f].
    + intros [?|(g & Hg & Hgk & Hx)]; [by left|]. right.
      assert (find (λ f, String.eqb (key f) k) UTILITY_TYPES = Some g) as Hfg
          by by apply (find_key _ _ _ UTILITY_TYPES_keys).
      assert (find (λ f, String.eqb (key f) k) UTILITY_TYPES = Some f) as Hff
          by by apply (find_key _ _ _ UTILITY_TYPES_keys).
      congruence.
  - split; [by left|]. intros [?|(g & Hg & Hgk & Hx)]; [done|].
    assert (find (λ f, String.eqb (key f) k) UTILITY_TYPES = Some g) as Hfg
        by by apply (find_key _ _ _ UTILITY_TYPES_keys).
    congruence.
Qed.

Lemma elem_of_foldl_addCategories sel cats x :
  x ∈ foldl addCategories cats sel ↔
  x ∈ cats ∨ ∃ f, f ∈ UTILITY_TYPES ∧ key f ∈ sel ∧ x ∈ categories f.
Proof.
  revert cats. induction sel as [|k sel IH]; intros cats.
  { cbn [foldl]. split; [by left|]. intros [?|(f & _ & ?%elem_of_nil & _)]; done. }
  cbn [foldl]. rewrite IH, elem_of_addCategories. split.
  - intros [[?|(f & Hf & Hk & Hx)]|(f & Hf & Hk & Hx)].
    + by left.
    + right. exists f. split_and!; [done | rewrite Hk; apply list_elem_of_here | done].
    + right. exists f. split_and!; [done | by apply list_elem_of_further | done].
  - intros [?|(f & Hf & [Hk|Hk]%elem_of_cons & Hx)].
    + left. by left.
    + left. right. by exists f.
    + right. by exists f.
Qed.

(** X21 -- Selected chips widen the filter.  The category set is absent
    exactly when no chip is selected; otherwise it is the union of the
    categories of the selected chips, a selected key that names no chip
    contributing nothing; and an entity passes it when its lower-cased,
    non-empty category or type is in that union. *)
Theorem chips_combine_by_union (selectedFilters : list string) :
  match filterCategorySet selectedFilters with
  | None => selectedFilters = []
  | Some cats =>
      selectedFilters ≠ []
      ∧ (∀ x, x ∈ cats ↔
              ∃ f, f ∈ UTILITY_TYPES ∧ key f ∈ selectedFilters ∧ x ∈ categories f)
      ∧ ∀ u, SearchScreen.chipMatch cats u = true ↔
             ∃ x, (category u = Some x ∨ type u = Some x)
                  ∧ JS.toLowerCase x ≠ "" ∧ JS.toLowerCase x ∈ cats
  end.
Proof.
  unfold filterCategorySet. case_bool_decide as Hlen.
  { by destruct selectedFilters. }
  split; [by destruct selectedFilters|]. split.
  - intros x. rewrite elem_of_foldl_addCategories. split; [|by right].
    intros [?%elem_of_empty|?]; done.
  - intros u. unfold SearchScreen.chipMatch, lower_and_has.
    rewrite orb_true_iff.
    assert (∀ f : option string,
              match f with
              | Some x => JS.truthy (JS.toLowerCase x)
                          && bool_decide (JS.toLowerCase x ∈ foldl addCategories ∅ selectedFilters)
              | None => false
              end = true ↔
              ∃ x, f = Some x ∧ JS.toLowerCase x ≠ ""
                   ∧ JS.toLowerCase x ∈ foldl addCategories ∅ selectedFilters) as Hfield.
    { intros [x|]; [|split; [done | by intros (? & ? & _)]].
      rewrite andb_true_iff, bool_decide_eq_true. split.
      - intros [Ht Hin]. exists x. split_and!; [done| |done].
        intros Heq. by rewrite Heq in Ht.
      - intros (y & [= <-] & Hne & Hin). split; [|done].
        by destruct (JS.toLowerCase x). }
    rewrite !Hfield. split.
    + intros [(x & Hx & Hne & Hin)|(x & Hx & Hne & Hin)]; exists x; auto.
    + intros (x & [Hx|Hx] & Hne & Hin); [left | right]; by exists x.
Qed.

End SearchScreenFacts.

(* ===================================================================== *)
(** * The review prompt (appRating.ts) *)
(* ===================================================================== *)

Module AppRatingFacts.
Import AppRating.

Lemma launches_cons h rest storage :
  launches (h :: rest) storage =
  ((launches rest (stored (trackSessionAndMaybePrompt h storage))).1,
   (if prompted (trackSessionAndMaybePrompt h storage) then 1 else 0)
   + (launches rest (stored (trackSessionAndMaybePrompt h storage))).2).
Proof. cbn [launches]. by destruct (launches rest _). Qed.

Lemma track_requested h storage loaded :
  requested storage → hasRequested loaded = true →
  requested (stored (track h storage loaded)) ∧ prompted (track h storage loaded) = false.
Proof.
  intros Hreq Hl. unfold track, eligible. cbn [hasRequested]. rewrite Hl. cbn [negb andb].
  unfold save. cbn [stored prompted]. split; [|done].
  destruct (setItem h); [|done]. eexists. split; [done|]. done.
Qed.

Lemma launch_requested h storage :
  requested storage →
  requested (stored (trackSessionAndMaybePrompt h storage))
  ∧ prompted (trackSessionAndMaybePrompt h storage) = false.
Proof.
  intros Hreq. pose proof Hreq as (state & -> & Hs). unfold trackSessionAndMaybePrompt.
  destruct (getItem h); [|done]. by apply track_requested.
Qed.

Lemma launches_requested hs storage :
  requested storage → requested (launches hs storage).1 ∧ (launches hs storage).2 = 0.
Proof.
  revert storage. induction hs as [|h hs IH]; intros storage Hreq; [done|].
  rewrite launches_cons. cbn [fst snd].
  destruct (launch_requested h storage Hreq) as [Hreq' ->].
  destruct (IH _ Hreq') as [? ->]. done.
Qed.

(** A launch that prompts and whose calls all succeed records the
    request. *)
Lemma prompt_recorded h storage :
  requestReview h = true → setItem h = true →
  prompted (trackSessionAndMaybePrompt h storage) = true →
  requested (stored (trackSessionAndMaybePrompt h storage)).
Proof.
  intros Hr Hs. unfold trackSessionAndMaybePrompt.
  assert (∀ st l, prompted (track h st l) = true → requested (stored (track h st l))) as Ht.
  { intros st l. unfold track. destruct (eligible h _); [|unfold save; by cbn].
    destruct (isAvailable h) as [[]|]; [|unfold save; by cbn|by cbn].
    rewrite Hr. unfold save. rewrite Hs. cbn [stored prompted]. intros _.
    eexists. split; [done|]. done. }
  destruct (getItem h); [|by cbn].
  destruct storage as [state|]; [apply Ht|].
  destruct (setItem_initial h); [apply Ht | by cbn].
Qed.

(** X22 -- The review is requested at most once.  Over any sequence of
    launches in which a review request, once made, goes through and the
    state is written, [StoreReview.requestReview] is called at most once,
    whatever the clocks and whatever else fails; and once storage records
    the request, no later launch calls it again, with no assumption at
    all. *)
Theorem review_requested_at_most_once hs storage :
  (Forall (λ h, requestReview h = true ∧ setItem h = true) hs →
   (launches hs storage).2 ≤ 1)
  ∧ (requested storage →
     (launches hs storage).2 = 0 ∧ requested (launches hs storage).1).
Proof.
  split.
  - revert storage. induction hs as [|h hs IH]; intros storage Hall; [cbn; lia|].
    apply Forall_cons in Hall as [[Hr Hs] Hall].
    rewrite launches_cons. cbn [snd].
    destruct (prompted (trackSessionAndMaybePrompt h storage)) eqn:Hp.
    + pose proof (prompt_recorded h storage Hr Hs Hp) as Hreq.
      destruct (launches_requested hs _ Hreq) as [_ ->]. lia.
    + specialize (IH (stored (trackSessionAndMaybePrompt h storage)) Hall). lia.
  - intros Hreq. destruct (launches_requested hs storage Hreq). done.
Qed.

(** X23 -- No prompt before the thresholds.  A launch calls
    [StoreReview.requestReview] only when the session just counted is at
    least the fifth, the install date lies at least three days back on the
    launch's clock, no request is on record, and the store review is
    available; in particular the very first launch never prompts. *)
Theorem review_prompt_thresholds h storage :
  prompted (trackSessionAndMaybePrompt h storage) = true →
  ∃ state, storage = Some state
           ∧ hasRequested state = false
           ∧ (MIN_SESSIONS ≤ sessionCount state + 1)%Z
           ∧ PrimFloat.leb MIN_DAYS_SINCE_INSTALL
               ((now h - installDate state) / (1000 * 60 * 60 * 24))%float = true
           ∧ isAvailable h = Some true.
Proof.
  unfold trackSessionAndMaybePrompt.
  assert (∀ st l, prompted (track h st l) = true →
                  hasRequested l = false
                  ∧ (MIN_SESSIONS ≤ sessionCount l + 1)%Z
                  ∧ PrimFloat.leb MIN_DAYS_SINCE_INSTALL
                      ((now h - installDate l) / (1000 * 60 * 60 * 24))%float = true
                  ∧ isAvailable h = Some true) as Ht.
  { intros st l. unfold track.
    destruct (eligible h _) eqn:He; [|unfold save; by cbn].
    unfold eligible, daysSinceInstall in He. cbn [hasRequested sessionCount installDate] in He.
    apply andb_true_iff in He as [[Hreq Hsess]%andb_true_iff Hdays].
    apply negb_true_iff in Hreq. apply Z.leb_le in Hsess.
    destruct (isAvailable h) as [[]|]; [|unfold save; by cbn|by cbn].
    intros _. done. }
  destruct (getItem h); [|by cbn].
  destruct storage as [state|].
  - intros Hp. exists state. split; [done|]. exact (Ht _ _ Hp).
  - destruct (setItem_initial h); [|by cbn].
    intros Hp. destruct (Ht _ _ Hp) as (_ & Hsess & _). cbn [sessionCount] in Hsess.
    unfold MIN_SESSIONS in Hsess. lia.
Qed.

End AppRatingFacts.

(* ===================================================================== *)
(** * The arrival clock (TransitArrivals.tsx) *)
(* ===================================================================== *)

Module TransitFacts.
Import TransitArrivals.

Lemma distinct_clocks_true :
  forallb (λ x, forallb (same_minute x) clock_table) clock_table = true.
Proof. vm_compute. reflexivity. Qed.

Lemma shaped_true : forallb shaped clock_table = true.
Proof. vm_compute. reflexivity. Qed.

Lemma table_distinct (tbl : list (nat * string)) x y :
  forallb (λ x, forallb (same_minute x) tbl) tbl = true →
  x ∈ tbl → y ∈ tbl → x.2 = y.2 → x.1 = y.1.
Proof.
  intros Hd Hx Hy Heq. rewrite forallb_forall in Hd.
  specialize (Hd _ (proj1 (list_elem_of_In _ _) Hx)). rewrite forallb_forall in Hd.
  specialize (Hd _ (proj1 (list_elem_of_In _ _) Hy)). unfold same_minute in Hd.
  rewrite Heq, String.eqb_refl in Hd. by apply Nat.eqb_eq in Hd.
Qed.

Lemma table_shaped (tbl : list (nat * string)) x :
  forallb shaped tbl = true → x ∈ tbl → shaped x = true.
Proof.
  intros Hs Hx. rewrite forallb_forall in Hs. apply Hs. by apply list_elem_of_In.
Qed.

Lemma shaped_spec n s :
  shaped (n, s) = true →
  ∃ hour, 1 ≤ hour ≤ 12 ∧ hour mod 12 = (n / 60) mod 12
          ∧ s = String.append (toString hour)
                  (String.append ":"
                     (String (ascii_of_nat (48 + (n mod 60) / 10))
                        (String (ascii_of_nat (48 + (n mod 60) mod 10))
                           (if n / 60 <? 12 then " AM" else " PM")))).
Proof.
  unfold shaped. cbn [fst snd]. intros Hs.
  apply existsb_exists in Hs as (hour & Hhour & Heq).
  apply in_seq in Hhour. apply andb_true_iff in Heq as [Heq Hm12].
  apply String.eqb_eq in Heq. apply Nat.eqb_eq in Hm12.
  exists hour. split_and!; [lia | lia | done | done].
Qed.

Lemma clock_in_table h m :
  h < 24 → m < 60 → (h * 60 + m, formatTime h m) ∈ clock_table.
Proof.
  intros Hh Hm. unfold clock_table. apply list_elem_of_fmap.
  exists (h * 60 + m). split.
  - f_equal. f_equal.
    + symmetry. rewrite Nat.div_add_l by lia. rewrite Nat.div_small by lia. lia.
    + symmetry. rewrite Nat.add_comm, Nat.Div0.mod_add. by apply Nat.mod_small.
  - apply elem_of_seq. lia.
Qed.

(** X24 -- The displayed clock.  For the hours (0 to 23) and minutes (0 to
    59) of a local time, the displayed text is a 12-hour hour between 1 and
    12 (never 0: midnight and noon read 12), a colon, the minutes on two
    digits, and AM before noon, PM from noon on; and two different times of
    day never display alike. *)
Theorem clock_display h m h' m' :
  h < 24 → m < 60 → h' < 24 → m' < 60 →
  (∃ hour, 1 ≤ hour ≤ 12 ∧ hour mod 12 = h mod 12
           ∧ formatTime h m
             = String.append (toString hour)
                 (String.append ":"
                    (String (ascii_of_nat (48 + m / 10))
                       (String (ascii_of_nat (48 + m mod 10))
                          (if h <? 12 then " AM" else " PM")))))
  ∧ (formatTime h m = formatTime h' m' → h = h' ∧ m = m').
Proof.
  intros Hh Hm Hh' Hm'.
  pose proof (clock_in_table h m Hh Hm) as Hin.
  pose proof (clock_in_table h' m' Hh' Hm') as Hin'.
  assert ((h * 60 + m) / 60 = h) as Hdiv
      by (rewrite Nat.div_add_l by lia; rewrite Nat.div_small by lia; lia).
  assert ((h * 60 + m) mod 60 = m) as Hmod
      by (rewrite Nat.add_comm, Nat.Div0.mod_add; by apply Nat.mod_small).
  split.
  - pose proof (shaped_spec _ _ (table_shaped _ _ shaped_true Hin)) as Hs.
    by rewrite Hdiv, Hmod in Hs.
  - intros Heq.
    pose proof (table_distinct _ _ _ distinct_clocks_true Hin Hin' Heq) as Hd.
    cbn [fst] in Hd. assert (h = h') by nia. subst h'. split; [done | lia].
Qed.

End TransitFacts.

(* ===================================================================== *)
(** * The marker icons *)
(* ===================================================================== *)

Module MarkerIconFacts.
Import Entities MarkerImages PreloaderScreen MarkerImageClaims.

(** [normalize], character by character. *)
Lemma normalize_cons c s :
  normalize (String c s)
  = String (if JS.is_space (JS.lower_ascii c) || Ascii.eqb (JS.lower_ascii c) "-"
            then "_"%char else JS.lower_ascii c)
           (normalize s).
Proof. reflexivity. Qed.

Lemma normalize_char_idemp c :
  let n := λ c, if JS.is_space (JS.lower_ascii c) || Ascii.eqb (JS.lower_ascii c) "-"
                then "_"%char else JS.lower_ascii c in
  n (n c) = n c.
Proof. by destruct c as [[] [] [] [] [] [] [] []]. Qed.

Lemma normalize_idemp category : normalize (normalize category) = normalize category.
Proof.
  induction category as [|c s IH]; [done|].
  rewrite !normalize_cons, IH. f_equal. apply normalize_char_idemp.
Qed.

Lemma resolveImage_normalize c c' :
  normalize c = normalize c' → resolveImage c = resolveImage c'.
Proof. unfold resolveImage. by intros ->. Qed.

(** X26 -- Spelling of the category does not matter.  Normalising is
    idempotent, and through any cache the module can hold, two category
    strings with the same normal form (the same up to letter case and to
    white space or hyphens for underscores) get the same icon, the icon of
    the normal form itself. *)
Theorem icon_ignores_spelling (c c' : string) (cache : gmap string marker_value) :
  cache_reachable cache → normalize c = normalize c' →
  normalize (normalize c) = normalize c
  ∧ (getMarkerImage c cache).1 = (getMarkerImage c' cache).1
  ∧ (getMarkerImage c cache).1 = (getMarkerImage (normalize c) cache).1
  ∧ (getMarkerImage c' (getMarkerImage c cache).2).1 = (getMarkerImage c cache).1.
Proof.
  intros Hreach Heq.
  assert (cache_reachable (getMarkerImage c cache).2) as Hreach' by by constructor.
  rewrite !getMarkerImage_value by done.
  split_and!; [apply normalize_idemp | by apply resolveImage_normalize | |].
  - apply resolveImage_normalize. by rewrite normalize_idemp.
  - symmetry. by apply resolveImage_normalize.
Qed.

Lemma markerElements_cons u rest cache :
  markerElements (u :: rest) cache =
  ({| key := id u; coordinate := (latitude u, longitude u);
      icon := (getMarkerImage (utilityType u) cache).1 |}
     :: (markerElements rest (getMarkerImage (utilityType u) cache).2).1,
   (markerElements rest (getMarkerImage (utilityType u) cache).2).2).
Proof.
  cbn [markerElements]. destruct (getMarkerImage _ cache) as [img cache1].
  cbn [fst snd]. by destruct (markerElements rest cache1).
Qed.

(** X27 -- The cache never changes an icon.  Building the marker elements
    of a list of entities through any cache the module can hold gives one
    element per entity, in order, keyed by the entity's identifier, at its
    coordinates, with the icon the cache-free lookup returns for its type
    (its category when the type is missing or empty, "water_fountain" when
    both are); and the cache left behind is again one the module can
    hold. *)
Theorem marker_elements_cache_free (ms : list Utility) (cache : gmap string marker_value) :
  cache_reachable cache →
  (markerElements ms cache).1
  = (λ u, {| key := id u; coordinate := (latitude u, longitude u);
             icon := resolveImage (utilityType u) |}) <$> ms
  ∧ cache_reachable (markerElements ms cache).2.
Proof.
  revert cache. induction ms as [|u rest IH]; intros cache Hreach; [done|].
  rewrite markerElements_cons. cbn [fst snd fmap list_fmap].
  assert (cache_reachable (getMarkerImage (utilityType u) cache).2) as Hreach'
      by by constructor.
  destruct (IH _ Hreach') as [Hels Hcache].
  split; [|done]. by rewrite Hels, getMarkerImage_value.
Qed.

End MarkerIconFacts.

(* ===================================================================== *)
(** * The overlay of the preloader screen (PrivacyPolicyScreen.tsx) *)
(* ===================================================================== *)

Module PreloaderOverlayFacts.
Import Entities MarkerImages PreloaderScreen PreloaderInvariants ScreenFacts.

Lemma commit_fields s s' :
  commit s = Normal s' →
  imagesCached s' = imagesCached s
  ∧ renderComplete s' =
    (if negb (imagesCached s) || bool_decide (length (utilities s) = 0)
     then false else renderComplete s)
  ∧ initialLoadComplete s' = (initialLoadComplete s || renderComplete s)
  ∧ gateTimer s' = negb (negb (imagesCached s) || bool_decide (length (utilities s) = 0)).
Proof. unfold commit. intros H. inv_bind H. by inversion H. Qed.

(** A commit of a state whose gate has only moved with the icons cached. *)
Lemma commit_gate_needs_icons s s' :
  commit s = Normal s' → (gate_moved s → imagesCached s = true) → gate_needs_icons s'.
Proof.
  intros Hc Hs. apply commit_fields in Hc as (Hi & Hr & Hl & Hg).
  unfold gate_needs_icons, gate_moved. rewrite Hi, Hr, Hl, Hg.
  destruct (imagesCached s); [done|]. cbn [negb orb]. intros [[?|Hm]|?]; [done| |done].
  apply Hs. apply orb_true_iff in Hm as [?|?]; [by right | by left].
Qed.

Lemma commit_gate_moved s s' : commit s = Normal s' → gate_moved s' → gate_moved s.
Proof.
  intros Hc. apply commit_fields in Hc as (_ & Hr & Hl & _).
  unfold gate_moved. rewrite Hr, Hl. intros [Hm|Hm].
  - left. by destruct (_ || _).
  - apply orb_true_iff in Hm as [?|?]; [by right | by left].
Qed.

Lemma step_gate_needs_icons images h e s s' :
  gate_needs_icons s → step images h e s = Normal s' → gate_needs_icons s'.
Proof.
  intros Hs Hstep.
  assert (gate_moved s → imagesCached s = true) as Hs' by (intros ?; apply Hs; by left).
  destruct e; cbn [step] in Hstep.
  - destruct (finished (preload images h)); [|apply Normal_inj in Hstep; by subst].
    by eapply commit_gate_needs_icons.
  - by eapply commit_gate_needs_icons.
  - by eapply commit_gate_needs_icons.
  - unfold handleSearch in Hstep. destruct (JS.truthy _).
    + inv_bind Hstep. by eapply commit_gate_needs_icons.
    + by eapply commit_gate_needs_icons.
  - by eapply commit_gate_needs_icons.
  - by eapply commit_gate_needs_icons.
  - by eapply commit_gate_needs_icons.
  - by eapply commit_gate_needs_icons.
  - destruct (gateTimer s) eqn:Hg; [|apply Normal_inj in Hstep; by subst].
    eapply commit_gate_needs_icons; [done|]. intros _.
    cbn [set_flags imagesCached]. apply Hs. by right.
Qed.

Lemma step_gate_moved images h e s s' :
  step images h e s = Normal s' → gate_moved s' →
  gate_moved s ∨ (e = RenderCompleteTimer ∧ gateTimer s = true).
Proof.
  intros Hstep Hm. destruct e; cbn [step] in Hstep;
    try (left; by apply (commit_gate_moved _ _ Hstep Hm)).
  - destruct (finished (preload images h)); [|apply Normal_inj in Hstep; subst; by left].
    left. by apply (commit_gate_moved _ _ Hstep Hm).
  - unfold handleSearch in Hstep. destruct (JS.truthy _).
    + inv_bind Hstep. left. by apply (commit_gate_moved _ _ Hstep Hm).
    + left. by apply (commit_gate_moved _ _ Hstep Hm).
  - destruct (gateTimer s); [by right|]. apply Normal_inj in Hstep. subst. by left.
Qed.

Lemma run_gate_needs_icons images h es s s' :
  gate_needs_icons s → run images h es s = Normal s' → gate_needs_icons s'.
Proof.
  revert s. induction es as [|e es IH]; intros s Hs Hrun; cbn [run] in Hrun.
  - apply Normal_inj in Hrun. by subst.
  - inv_bind Hrun. eapply IH; [|done]. by eapply step_gate_needs_icons.
Qed.

Lemma run_gate_moved images h es s s' :
  run images h es s = Normal s' → gate_moved s' →
  gate_moved s ∨ RenderCompleteTimer ∈ es.
Proof.
  revert s. induction es as [|e es IH]; intros s Hrun Hm; cbn [run] in Hrun.
  - apply Normal_inj in Hrun. subst. by left.
  - inv_bind Hrun. destruct (IH _ Hrun Hm) as [Ha'|Hin].
    + destruct (step_gate_moved _ _ _ _ _ Ha Ha') as [?|[-> _]]; [by left|].
      right. apply list_elem_of_here.
    + right. by apply list_elem_of_further.
Qed.

Lemma step_keeps_moved images h e s s' :
  step images h e s = Normal s' →
  initialLoadComplete s = true → initialLoadComplete s' = true.
Proof.
  intros Hstep Hl.
  assert (∀ t, commit t = Normal s' → initialLoadComplete t = true →
               initialLoadComplete s' = true) as Hc.
  { intros t Ht Hlt. apply commit_fields in Ht as (_ & _ & -> & _). by rewrite Hlt. }
  destruct e; cbn [step] in Hstep; try (by eapply Hc).
  - destruct (finished (preload images h)); [by eapply Hc | apply Normal_inj in Hstep; by subst].
  - unfold handleSearch in Hstep. destruct (JS.truthy _).
    + inv_bind Hstep. by eapply Hc.
    + by eapply Hc.
  - destruct (gateTimer s); [by eapply Hc | apply Normal_inj in Hstep; by subst].
Qed.

Lemma run_keeps_moved images h es s s' :
  run images h es s = Normal s' →
  initialLoadComplete s = true → initialLoadComplete s' = true.
Proof.
  revert s. induction es as [|e es IH]; intros s Hrun Hl; cbn [run] in Hrun.
  - apply Normal_inj in Hrun. by subst.
  - inv_bind Hrun. eapply IH; [done|]. by eapply step_keeps_moved.
Qed.

Lemma commit_marks s s' :
  commit s = Normal s' → renderComplete s' = true → initialLoadComplete s' = true.
Proof.
  intros Hc. apply commit_fields in Hc as (_ & -> & -> & _).
  destruct (_ || bool_decide _); [done|]. intros ->. apply orb_true_r.
Qed.

Lemma step_marks images h e s s' :
  (renderComplete s = true → initialLoadComplete s = true) →
  step images h e s = Normal s' →
  renderComplete s' = true → initialLoadComplete s' = true.
Proof.
  intros Hs Hstep. destruct e; cbn [step] in Hstep; try (by eapply commit_marks).
  - destruct (finished (preload images h));
      [by eapply commit_marks | apply Normal_inj in Hstep; by subst].
  - unfold handleSearch in Hstep. destruct (JS.truthy _).
    + inv_bind Hstep. by eapply commit_marks.
    + by eapply commit_marks.
  - destruct (gateTimer s); [by eapply commit_marks | apply Normal_inj in Hstep; by subst].
Qed.

Lemma run_marks images h es s s' :
  (renderComplete s = true → initialLoadComplete s = true) →
  run images h es s = Normal s' →
  renderComplete s' = true → initialLoadComplete s' = true.
Proof.
  revert s. induction es as [|e es IH]; intros s Hs Hrun; cbn [run] in Hrun.
  - apply Normal_inj in Hrun. by subst.
  - inv_bind Hrun. eapply IH; [|done]. by eapply step_marks.
Qed.

(** X25 -- The overlay waits for the icons.  On the preloader screen, in
    every state reached from the first render in which the loading overlay
    is hidden, the icons are cached, the preload ran to its end (the event
    is in the history, so a preload that never settles keeps the overlay
    up for good) and the gate's timer has fired; and from such a state on
    the initial load stays marked, so the overlay stays hidden whatever
    follows. *)
Theorem overlay_waits_for_icons (images : list ImageRequireSource) (h : host)
        (us : list Utility) (permission : bool) (cache : gmap string marker_value)
        (es es' : list event) (s s' : screen) :
  run images h es (initial us permission cache) = Normal s →
  showLoadingOverlay s = false →
  (imagesCached s = true
   ∧ finished (preload images h) = true
   ∧ PreloadFinishes ∈ es
   ∧ RenderCompleteTimer ∈ es)
  ∧ (run images h es' s = Normal s' → showLoadingOverlay s' = false).
Proof.
  intros Hrun Hov.
  assert (gate_moved s) as Hm.
  { unfold showLoadingOverlay in Hov. unfold gate_moved.
    destruct (initialLoadComplete s); [by right|]. destruct (renderComplete s); [by left|done]. }
  assert (gate_needs_icons (initial us permission cache)) as H0.
  { unfold gate_needs_icons, gate_moved, initial. cbn. intros [[?|?]|?]; done. }
  pose proof (run_gate_needs_icons _ _ _ _ _ H0 Hrun) as Hneeds.
  assert (imagesCached s = true) as Hcached by (apply Hneeds; by left).
  split.
  - split; [done|].
    destruct (PreloaderClaims.run_imagesCached _ _ _ _ _ Hrun Hcached) as [?|[Hin Hfin]];
      [done|].
    split; [done|]. split; [done|].
    destruct (run_gate_moved _ _ _ _ _ Hrun Hm) as [[?|?]|?]; done.
  - intros Hrun'.
    assert (initialLoadComplete s = true) as Hl.
    { destruct Hm as [Hrc|?]; [|done].
      assert (renderComplete (initial us permission cache) = true →
              initialLoadComplete (initial us permission cache) = true) as Hinit
          by (intros Hx; discriminate Hx).
      by apply (run_marks _ _ _ _ _ Hinit Hrun). }
    unfold showLoadingOverlay. by rewrite (run_keeps_moved _ _ _ _ _ Hrun' Hl).
Qed.

End PreloaderOverlayFacts.

(* ===================================================================== *)
(** * The further properties at concrete inputs *)
(* ===================================================================== *)

Module MapWitnesses.
Import Entities MapScreen.

Ltac by_computation :=
  match goal with |- ?P => apply (bool_decide_unpack P); vm_compute; exact I end.

Lemma scenario_mounted_reachable : reachable scenario_mounted.
Proof. exists scenario, false, None, [MountTimer]. vm_compute. reflexivity. Defined.

Lemma scenario_open_reachable : reachable scenario_open.
Proof.
  exists scenario, false, None, [MountTimer; RenderCompleteTimer]. vm_compute. reflexivity.
Defined.

Lemma scenario_started_reachable : reachable (state_of (mount scenario false None)).
Proof. exists scenario, false, None, []. vm_compute. reflexivity. Defined.

(** X2 at the scenario: one firing over the two entities, from the empty
    render set, leaves both rendered. *)
Lemma growth_size_after_witness :
  size (renderedIds (Nat.iter 1 (growthTick scenario true)
                              {| renderedIds := ∅; renderTick := 0 |})) = 2.
Proof.
  rewrite (GrowthFacts.growth_size_after 1 scenario true {| renderedIds := ∅; renderTick := 0 |}).
  - vm_compute. reflexivity.
  - intros i Hi. by apply elem_of_empty in Hi.
  - cbn [renderedIds]. rewrite size_empty. apply Nat.le_0_l.
Defined.

(** X3 at the scenario: fourteen firings on the mounted screen. *)
Lemma growth_chain_settles_witness :
  reachable scenario_mounted
  ∧ NoDup (id <$> scenario)
  ∧ MAX_RENDERED ≤ 14 * RENDER_BATCH
  ∧ ∃ s', run (replicate 14 GrowthTimer) scenario_mounted = Normal s'
          ∧ growthPending scenario (rset s') = false
          ∧ renderedIds (rset s') = validIdsOf scenario.
Proof.
  assert (NoDup (id <$> scenario)) as Hnd by by_computation.
  assert (MAX_RENDERED ≤ 14 * RENDER_BATCH) as Hn by by_computation.
  assert (eligible (inp scenario_mounted) = Normal scenario) as Hms
      by (vm_compute; reflexivity).
  split; [exact scenario_mounted_reachable|]. split; [exact Hnd|]. split; [exact Hn|].
  destruct (GrowthChain.growth_chain_settles 14 scenario_mounted scenario
              scenario_mounted_reachable Hms Hnd Hn) as (s' & Hrun & _ & Hpend & Hall).
  exists s'. split; [exact Hrun|]. split; [exact Hpend|].
  apply Hall. by_computation.
Defined.

(** X4 at the scenario: the opened screen. *)
Lemma render_complete_sound_witness :
  reachable scenario_open
  ∧ renderComplete (gt scenario_open) = true
  ∧ isLoading (gt scenario_open) = false
  ∧ length (utilities (inp scenario_open)) ≤ mountedCount (inp scenario_open)
  ∧ growthTarget scenario ≤ size (renderedIds (rset scenario_open)).
Proof.
  assert (renderComplete (gt scenario_open) = true) as Hrc by (vm_compute; reflexivity).
  split; [exact scenario_open_reachable|]. split; [exact Hrc|].
  apply (GateFacts.render_complete_sound scenario_open scenario scenario_open_reachable).
  - vm_compute. reflexivity.
  - left. exact Hrc.
Defined.

(** X5 on a collection holding the same entity twice: after mounting, one
    identifier is rendered, the target is two, and the overlay stays. *)
Lemma duplicate_ids_block_gate_witness :
  ∃ s, (s0 ← mount [scenario_entity_1; scenario_entity_1] false None;
        run [MountTimer; GrowthTimer; RenderCompleteTimer] s0) = Normal s
       ∧ size (validIdsOf [scenario_entity_1; scenario_entity_1])
         < growthTarget [scenario_entity_1; scenario_entity_1]
       ∧ renderComplete (gt s) = false
       ∧ gateTimer (gt s) = false
       ∧ showLoadingOverlay (gt s) = true.
Proof.
  eexists.
  assert (∀ (P Q R : Prop), P → Q → (P → Q → R) → P ∧ Q ∧ R) as Hchain by tauto.
  apply Hchain; [vm_compute; reflexivity | by_computation |].
  intros Hrun Hdup.
  destruct (GateFacts.duplicate_ids_block_gate _ [scenario_entity_1; scenario_entity_1]
              (ex_intro _ _ (ex_intro _ _ (ex_intro _ _ (ex_intro _ _ Hrun)))))
    as (Hrc & Hgt & Hov); [vm_compute; reflexivity | exact Hdup |].
  split; [exact Hrc|]. split; [exact Hgt|]. rewrite Hov. vm_compute. reflexivity.
Defined.

(** X6 at the scenario: the store replaces the two entities by one. *)
Lemma refetch_unmounts_witness :
  ∃ s', step (StoreSetUtilities [scenario_entity_1]) scenario_mounted = Normal s'
        ∧ renderedIds (rset scenario_mounted) = {[IdNum 1; IdNum 2]}
        ∧ mountedCount (inp s') = 0
        ∧ renderedIds (rset s') = ∅.
Proof.
  eexists.
  assert (∀ (P Q R : Prop), P → Q → (P → R) → P ∧ Q ∧ R) as Hchain by tauto.
  apply Hchain; [vm_compute; reflexivity | vm_compute; reflexivity |].
  intros Hstep.
  destruct (RefreshFacts.refetch_unmounts _ _ _ scenario_mounted_reachable Hstep)
    as (_ & Hm & He & _); [vm_compute; discriminate|].
  split; [exact Hm | exact He].
Defined.

(** X7 at the scenario: from the first render, one mount batch, fourteen
    growth batches and the gate's timer. *)
Lemma launch_completes_witness :
  ∃ s', run (replicate 1 MountTimer ++ replicate 14 GrowthTimer ++ [RenderCompleteTimer])
            (state_of (mount scenario false None)) = Normal s'
        ∧ mountedCount (inp s') = length (utilities (inp s'))
        ∧ renderComplete (gt s') = true
        ∧ showLoadingOverlay (gt s') = false.
Proof.
  destruct (LaunchChain.launch_completes 1 14 (state_of (mount scenario false None))
              scenario_started_reachable) as (s' & Hrun & _ & Hm & Hrc & Hov).
  - vm_compute. reflexivity.
  - by_computation.
  - by_computation.
  - by_computation.
  - exists s'. split; [exact Hrun|]. split; [exact Hm|]. split; [exact Hrc | exact Hov].
Defined.


(** X9 and X10 at the scenario's viewport, which holds entity 2 only. *)
Lemma nan_coordinates_never_eligible_witness :
  eligible (inp scenario_viewport) = Normal [scenario_entity_2]
  ∧ PrimFloat.is_nan (latitude scenario_entity_2) = false
  ∧ PrimFloat.is_nan (longitude scenario_entity_2) = false.
Proof.
  assert (eligible (inp scenario_viewport) = Normal [scenario_entity_2]) as Hms
      by (vm_compute; reflexivity).
  split; [exact Hms|].
  apply (ViewportFacts.nan_coordinates_never_eligible
           (inp scenario_viewport) [scenario_entity_2] scenario_entity_2 Hms).
  - vm_compute. discriminate.
  - apply list_elem_of_here.
Defined.

Lemma markers_in_collection_order_witness :
  [scenario_entity_2] `sublist_of` utilities (inp scenario_viewport)
  ∧ finalMarkers [scenario_entity_2] (rset scenario_viewport)
    `sublist_of` [scenario_entity_2].
Proof.
  apply (ViewportFacts.markers_in_collection_order
           (inp scenario_viewport) [scenario_entity_2] (rset scenario_viewport)).
  vm_compute. reflexivity.
Defined.

End MapWitnesses.

Module ServiceWitnesses.
Import Entities MarkerImages.

(** X23 at a fifth launch three days after the install: the stored state
    counts four sessions, the clock stands 259200000 ms after the install
    date, and the review is requested. *)
Lemma review_prompt_thresholds_witness :
  AppRating.prompted
    (AppRating.trackSessionAndMaybePrompt
       (AppRating.mkLaunch 259200000%float true true (Some true) true true)
       (Some (AppRating.mkRatingState 0%float 4 false))) = true
  ∧ ∃ state, Some (AppRating.mkRatingState 0%float 4 false) = Some state
             ∧ AppRating.hasRequested state = false
             ∧ (AppRating.MIN_SESSIONS ≤ AppRating.sessionCount state + 1)%Z.
Proof.
  assert (AppRating.prompted
            (AppRating.trackSessionAndMaybePrompt
               (AppRating.mkLaunch 259200000%float true true (Some true) true true)
               (Some (AppRating.mkRatingState 0%float 4 false))) = true) as Hp
      by (vm_compute; reflexivity).
  split; [exact Hp|].
  destruct (AppRatingFacts.review_prompt_thresholds _ _ Hp) as (state & Hs & Hr & Hn & _).
  exists state. split; [exact Hs|]. split; [exact Hr | exact Hn].
Defined.

(** X24 at five past midnight and five past noon. *)
Lemma clock_display_witness :
  TransitArrivals.formatTime 0 5 = "12:05 AM"
  ∧ TransitArrivals.formatTime 12 5 = "12:05 PM"
  ∧ (TransitArrivals.formatTime 0 5 = TransitArrivals.formatTime 12 5 → 0 = 12 ∧ 5 = 5).
Proof.
  split; [vm_compute; reflexivity|]. split; [vm_compute; reflexivity|].
  apply (TransitFacts.clock_display 0 5 12 5); repeat constructor.
Defined.

Import PreloaderScreen.

(** X25 at the example host: the preload finishes, the gate's timer fires,
    the overlay is hidden, and a refetch that empties the store leaves it
    hidden. *)
Lemma overlay_waits_for_icons_witness :
  ∃ s s',
    run example_images example_host [PreloadFinishes; RenderCompleteTimer]
        (initial scenario true ∅) = Normal s
    ∧ showLoadingOverlay s = false
    ∧ run example_images example_host [StoreSetUtilities []] s = Normal s'
    ∧ imagesCached s = true
    ∧ showLoadingOverlay s' = false.
Proof.
  eexists _, _.
  assert (∀ (P Q R S : Prop), P → Q → R → (P → Q → R → S) → P ∧ Q ∧ R ∧ S) as Hchain by tauto.
  apply Hchain; [vm_compute; reflexivity | vm_compute; reflexivity | vm_compute; reflexivity |].
  intros Hrun Hov Hrun'.
  match type of Hrun' with
  | run _ _ _ ?a = Normal ?b =>
      destruct (PreloaderOverlayFacts.overlay_waits_for_icons
                  _ _ _ _ _ _ [StoreSetUtilities []] a b Hrun Hov)
        as ((Hcached & _) & Hstay)
  end.
  split; [exact Hcached | exact (Hstay Hrun')].
Defined.

(** X26 with a cache warmed by "restroom": three spellings of one
    category. *)
Lemma icon_ignores_spelling_witness :
  normalize "Water Fountain" = normalize "water-fountain"
  ∧ (getMarkerImage "Water Fountain" (getMarkerImage "restroom" ∅).2).1
    = (getMarkerImage "water-fountain" (getMarkerImage "restroom" ∅).2).1
  ∧ (getMarkerImage "Water Fountain" (getMarkerImage "restroom" ∅).2).1
    = Image (marker "water_fountain").
Proof.
  assert (normalize "Water Fountain" = normalize "water-fountain") as Heq
      by (vm_compute; reflexivity).
  split; [exact Heq|].
  destruct (MarkerIconFacts.icon_ignores_spelling
              "Water Fountain" "water-fountain" (getMarkerImage "restroom" ∅).2
              (cache_call _ _ cache_init) Heq) as (_ & Hsame & _).
  split; [exact Hsame|]. vm_compute. reflexivity.
Defined.

(** X27 at the scenario, from the empty cache. *)
Lemma marker_elements_cache_free_witness :
  (markerElements scenario ∅).1
  = [ {| key := IdNum 1; coordinate := (47.6%float, (-122.3)%float);
         icon := Image (marker "restroom") |};
      {| key := IdNum 2; coordinate := (47.61%float, (-122.31)%float);
         icon := Image (marker "water_fountain") |} ].
Proof.
  rewrite (proj1 (MarkerIconFacts.marker_elements_cache_free scenario ∅ cache_init)).
  vm_compute. reflexivity.
Defined.

End ServiceWitnesses.
